(** * InPort_Update.py: the metadata transform-and-publish loop

    A shallow embedding of [src/python/InPort_Update.py]: the XML edits
    of lines 109-181 over a model of [xml.etree.ElementTree] elements,
    the two regular expressions of lines 118 and 184 over a small
    backtracking matcher, and the session acquisition and per-record
    loop of lines 56-205 as explicit state passing over an abstract
    network.

    Characters are the 8-bit characters of [Ascii.ascii], read as the
    code points 0..255; a Python [str] is a [string] of them. *)

From Stdlib Require Import ZArith Ascii.
From stdpp Require Import base tactics option list sets strings pretty.

Local Open Scope Z_scope.
Local Open Scope nat_scope.

(** ** Python strings *)

Module Py.

(** [s[:n]] for [0 <= n]. *)
Fixpoint slice_to (n : nat) (s : string) : string :=
  match n, s with
  | S n', String c s' => String c (slice_to n' s')
  | _, _ => EmptyString
  end.

(** [s[n:]] for [0 <= n]. *)
Fixpoint slice_from (n : nat) (s : string) : string :=
  match n, s with
  | S n', String _ s' => slice_from n' s'
  | _, _ => s
  end.

(** [s.startswith(p)]. *)
Fixpoint startswith (s p : string) {struct p} : bool :=
  match p, s with
  | EmptyString, _ => true
  | String a p', String b s' => bool_decide (a = b) && startswith s' p'
  | String _ _, EmptyString => false
  end.

(** [s.endswith(p)]: the last [len(p)] characters of [s] are [p]. *)
Definition endswith (s p : string) : bool :=
  bool_decide (String.length p <= String.length s)
  && bool_decide (slice_from (String.length s - String.length p) s = p).

(** Truth value of an optional string: [None] and [""] are false. *)
Definition truthy (o : option string) : bool :=
  match o with
  | Some (String _ _) => true
  | _ => false
  end.

End Py.

(** ** ElementTree elements

    [ET.fromstring] builds a tree of [Element] objects only (comments
    and processing instructions are dropped by the default parser). An
    element has a tag, attributes, a text, a tail and its children in
    document order. *)

#[warnings="-register-all"]
Inductive Element : Type :=
  Elem { tag : string;
         attrib : list (string * string);
         text : option string;
         tail : option string;
         children : list Element }.

Definition set_text (x : option string) (e : Element) : Element :=
  Elem (tag e) (attrib e) x (tail e) (children e).

Definition set_children (cs : list Element) (e : Element) : Element :=
  Elem (tag e) (attrib e) (text e) (tail e) cs.

(** A reference to an element of the document is the list of child
    indices that leads to it from the root; the root is [[]]. The
    document is owned by one loop iteration, so a reference held in a
    Python variable stays valid as long as no child to its left on the
    way is removed. *)
Definition ref := list nat.

Fixpoint get (p : ref) (e : Element) : option Element :=
  match p with
  | [] => Some e
  | i :: p' => c ← children e !! i; get p' c
  end.

(** In-place mutation of the element behind a reference. *)
Fixpoint update (f : Element → Element) (p : ref) (e : Element) : Element :=
  match p with
  | [] => f e
  | i :: p' => set_children (alter (update f p') i (children e)) e
  end.

(** [Element.iter()]: the element itself, then its descendants, in
    document order; here as references relative to the element. *)
Definition iter_children (iter : Element → list ref) : nat → list Element → list ref :=
  fix go (i : nat) (cs : list Element) : list ref :=
    match cs with
    | [] => []
    | c :: cs' => (cons i <$> iter c) ++ go (S i) cs'
    end.

Fixpoint iter (e : Element) : list ref :=
  match e with
  | Elem _ _ _ _ cs => [] :: iter_children iter 0 cs
  end.

Definition tag_at (doc : Element) (p : ref) : option string :=
  tag <$> get p doc.

(** *** ElementPath

    [findall] compiles its path into a chain of selectors, each mapping
    the current result list to the next one (ElementPath.iterfind). The
    paths of this program use three of them. [".//t"] selects, for each
    element of the result, every descendant other than the element
    itself whose tag is [t]; ["/t"] selects the children whose tag is
    [t]. *)
Inductive step : Type :=
  | Self
  | Descendant (t : string)
  | Child (t : string).

(** The positions of the children with tag [t], counted from [i]. *)
Fixpoint indices_with_tag_from (t : string) (i : nat) (cs : list Element) : list nat :=
  match cs with
  | [] => []
  | c :: cs' =>
      if bool_decide (tag c = t) then i :: indices_with_tag_from t (S i) cs'
      else indices_with_tag_from t (S i) cs'
  end.

Definition indices_with_tag (t : string) (cs : list Element) : list nat :=
  indices_with_tag_from t 0 cs.

Definition select (doc : Element) (s : step) (result : list ref) : list ref :=
  match s with
  | Self => result
  | Descendant t =>
      p ← result;
      match get p doc with
      | Some e =>
          rel ← iter e;
          if bool_decide (rel ≠ []) && bool_decide (tag_at e rel = Some t)
          then [p ++ rel] else []
      | None => []
      end
  | Child t =>
      p ← result;
      match get p doc with
      | Some e => (λ i, p ++ [i]) <$> indices_with_tag t (children e)
      | None => []
      end
  end.

Definition findall (path : list step) (doc : Element) : list ref :=
  fold_left (λ result s, select doc s result) path [[]].

(** [root.find(t)]: the first child with tag [t]. *)
Definition find (t : string) (p : ref) (doc : Element) : option ref :=
  e ← get p doc;
  i ← head (indices_with_tag t (children e));
  Some (p ++ [i]).

(** [ET.SubElement(parent, t)]: a fresh element, no attributes, no
    text, no children, appended to the parent's children; the new
    document and the reference to the new element. *)
Definition new_element (t : string) : Element := Elem t [] None None [].

Definition SubElement (p : ref) (t : string) (doc : Element) : Element * ref :=
  let n := from_option (λ e, length (children e)) 0 (get p doc) in
  (update (λ e, set_children (children e ++ [new_element t]) e) p doc, p ++ [n]).

(** ** Regular expressions

    The two patterns of the program use literals, character classes,
    [^], grouping, [?], greedy [*] and [+], lazy [*?] and one capturing
    group. [Re.run] is the backtracking matcher of Python's [re]: it
    explores the alternatives in priority order and stops at the first
    one whose continuation succeeds. *)

Module Re.

Inductive class : Type :=
  | Space                   (* \s *)
  | Digit                   (* \d *)
  | Dot                     (* . *)
  | NotChar (c : ascii).    (* [^c] *)

Inductive regex : Type :=
  | Eps
  | Lit (c : ascii)
  | In (cl : class)
  | Bol                           (* ^ *)
  | Seq (r1 r2 : regex)
  | Opt (r : regex)               (* r? *)
  | Star (r : regex)              (* r* *)
  | StarLazy (r : regex)          (* r*? *)
  | Group (i : nat) (r : regex).  (* (r), the i-th capturing group *)

(** [r+] is one [r] followed by [r*], in priority order too. *)
Definition Plus (r : regex) : regex := Seq r (Star r).

(** The literal string [s]. *)
Fixpoint Str (s : string) : regex :=
  match s with
  | EmptyString => Eps
  | String c EmptyString => Lit c
  | String c s' => Seq (Lit c) (Str s')
  end.

Record flags : Type := Flags { IGNORECASE : bool; DOTALL : bool }.

Definition no_flags : flags := Flags false false.

(** Lower case of the letters A-Z; with the ASCII literals of this
    program's patterns no other character of the range 0..255 folds
    onto a pattern character. *)
Definition lower (c : ascii) : ascii :=
  let n := nat_of_ascii c in
  if (65 <=? n) && (n <=? 90) then ascii_of_nat (n + 32) else c.

Definition lit_matches (fl : flags) (c a : ascii) : bool :=
  if IGNORECASE fl then bool_decide (lower a = lower c) else bool_decide (a = c).

(** [\s] on [str] patterns is [str.isspace]: in the range 0..255 the
    characters 9-13, 28-32, 133 and 160. *)
Definition is_space (a : ascii) : bool :=
  let n := nat_of_ascii a in
  ((9 <=? n) && (n <=? 13)) || ((28 <=? n) && (n <=? 32))
  || (n =? 133) || (n =? 160).

(** [\d]: the decimal digits; 0-9 are the only ones below 256. *)
Definition is_digit (a : ascii) : bool :=
  let n := nat_of_ascii a in (48 <=? n) && (n <=? 57).

Definition class_matches (fl : flags) (cl : class) (a : ascii) : bool :=
  match cl with
  | Space => is_space a
  | Digit => is_digit a
  | Dot => DOTALL fl || negb (bool_decide (a = "010"%char))
  | NotChar c => negb (bool_decide (a = c))
  end.

(** The matcher's position: how many characters lie to the left, the
    text still to read, and the groups captured so far (latest
    first). *)
Record cursor : Type :=
  Cursor { pos : nat; rest : string; groups : list (nat * string) }.

Definition advance (s : cursor) (s' : string) : cursor :=
  Cursor (S (pos s)) s' (groups s).

Definition capture (i : nat) (before after : cursor) : cursor :=
  Cursor (pos after) (rest after)
    ((i, Py.slice_to (pos after - pos before) (rest before)) :: groups after).

Definition orelse {A} (x y : option A) : option A :=
  match x with Some _ => x | None => y end.

(** The loops of [r*] and [r*?], with [body] the matcher of [r] and
    [k] what follows the repetition. The greedy loop tries one more
    iteration before it tries [k]; the lazy loop tries [k] first. An
    iteration must consume a character to go round again (all the
    repetition bodies of this program's patterns do), which bounds
    the number of iterations by the length [n] of the remaining
    text. *)
Definition greedy_loop (body : cursor → (cursor → option cursor) → option cursor)
    (k : cursor → option cursor) : nat → cursor → option cursor :=
  fix loop (n : nat) (s : cursor) : option cursor :=
    match n with
    | 0 => k s
    | S n' =>
        orelse
          (body s (λ s1, if pos s <? pos s1 then loop n' s1 else None))
          (k s)
    end.

Definition lazy_loop (body : cursor → (cursor → option cursor) → option cursor)
    (k : cursor → option cursor) : nat → cursor → option cursor :=
  fix loop (n : nat) (s : cursor) : option cursor :=
    match n with
    | 0 => k s
    | S n' =>
        orelse
          (k s)
          (body s (λ s1, if pos s <? pos s1 then loop n' s1 else None))
    end.

(** [run fl r s k]: match [r] at [s], then continue with [k]; [None]
    when every alternative fails. *)
Fixpoint run (fl : flags) (r : regex) (s : cursor)
    (k : cursor → option cursor) {struct r} : option cursor :=
  match r with
  | Eps => k s
  | Lit c =>
      match rest s with
      | String a s' => if lit_matches fl c a then k (advance s s') else None
      | EmptyString => None
      end
  | In cl =>
      match rest s with
      | String a s' => if class_matches fl cl a then k (advance s s') else None
      | EmptyString => None
      end
  | Bol => if pos s =? 0 then k s else None
  | Seq r1 r2 => run fl r1 s (λ s1, run fl r2 s1 k)
  | Opt r1 => orelse (run fl r1 s k) (k s)
  | Star r1 => greedy_loop (run fl r1) k (String.length (rest s)) s
  | StarLazy r1 => lazy_loop (run fl r1) k (String.length (rest s)) s
  | Group i r1 => run fl r1 s (λ s1, k (capture i s s1))
  end.

(** A match object: where the match ends and what the groups hold. *)
Definition match_at (fl : flags) (r : regex) (p : nat) (s : string) : option cursor :=
  run fl r (Cursor p s []) Some.

(** [m.group(i)]; a group that took no part in the match is [None]. *)
Definition group (i : nat) (m : cursor) : option string :=
  match list_find (λ g, fst g = i) (groups m) with
  | Some (_, (_, s)) => Some s
  | None => None
  end.

(** [re.search(r, s)]: the match at the leftmost position that has
    one. *)
Fixpoint search_from (fl : flags) (r : regex) (p : nat) (s : string) : option cursor :=
  match match_at fl r p s with
  | Some m => Some m
  | None =>
      match s with
      | String _ s' => search_from fl r (S p) s'
      | EmptyString => None
      end
  end.

Definition search (fl : flags) (r : regex) (s : string) : option cursor :=
  search_from fl r 0 s.

(** A replacement template: literal text and group references. *)
Inductive piece : Type :=
  | Text (s : string)
  | Backref (i : nat).     (* \i *)

Definition expand (t : list piece) (m : cursor) : string :=
  foldr (λ pc acc,
           match pc with
           | Text s => s +:+ acc
           | Backref i => default "" (group i m) +:+ acc
           end) "" t.

(** [re.sub(r, t, s)]: every non-overlapping match, left to right, is
    replaced by the expansion of [t]; the text between the matches is
    kept. After an empty match the scan moves one character on. *)
Fixpoint sub_from (fl : flags) (r : regex) (t : list piece)
    (fuel p : nat) (s : string) : string :=
  match fuel with
  | 0 => s
  | S fuel' =>
      let skip :=
        match s with
        | String c s' => String c (sub_from fl r t fuel' (S p) s')
        | EmptyString => EmptyString
        end in
      match match_at fl r p s with
      | Some m =>
          if pos m =? p then expand t m +:+ skip
          else expand t m +:+ sub_from fl r t fuel' (pos m) (rest m)
      | None => skip
      end
  end.

Definition sub (fl : flags) (r : regex) (t : list piece) (s : string) : string :=
  sub_from fl r t (S (String.length s)) 0 s.

End Re.

(** The longest prefix of [s] made of characters that satisfy [P]. *)
Fixpoint leading (P : ascii → bool) (s : string) : string :=
  match s with
  | String a s' => if P a then String a (leading P s') else EmptyString
  | EmptyString => EmptyString
  end.

(** Every character of [s] satisfies [P]. *)
Fixpoint all_chars (P : ascii → bool) (s : string) : bool :=
  match s with
  | String a s' => P a && all_chars P s'
  | EmptyString => true
  end.

(** An exception: [requests.exceptions.RequestException] and its
    subclasses, or any other subclass of [Exception]; and [str(e)]. *)
Inductive ExcClass : Type := RequestException | OtherException.

Record Exc : Type := MkExc { exc_class : ExcClass; exc_msg : string }.

(** The integer that a string of the digits 0-9 spells. *)
Definition digit_value (a : ascii) : Z := Z.of_nat (nat_of_ascii a - 48).

Definition int_of_digits (s : string) : Z :=
  (fix go (acc : Z) (s : string) : Z :=
     match s with
     | EmptyString => acc
     | String a s' => go (10 * acc + digit_value a)%Z s'
     end) 0%Z s.

(** [int(s)] for a string of the digits 0-9. CPython converts a decimal
    string of at most [sys.int_info.default_max_str_digits] = 4300
    digits, leading zeros counted, and raises [ValueError] on a longer
    one; the script leaves the limit as it is. *)
Definition int_max_str_digits : nat := 4300.

Definition int_limit_error (n : nat) : Exc :=
  MkExc OtherException
    ("Exceeds the limit (4300 digits) for integer string conversion: value has "
     +:+ pretty n +:+ " digits; use sys.set_int_max_str_digits() to increase the limit").

Definition py_int (s : string) : Z + Exc :=
  if bool_decide (String.length s ≤ int_max_str_digits)
  then inl (int_of_digits s)
  else inr (int_limit_error (String.length s)).

Definition dquote : ascii := "034"%char.

(** ** TextNormalizer (lines 114-127) *)

(** Line 118, laid out as under [re.VERBOSE] and with the double quote
    written [\x22]:
    [( ^ \s* (?:<p>)? \s* )
     (?: <a \s+ href=\x22 [^\x22]* \x22> .*? </a> \s* (?: <br \s* /? > )? \s* )+] *)
Definition match_pattern : Re.regex :=
  let ws := Re.Star (Re.In Re.Space) in
  Re.Seq
    (Re.Group 1
       (Re.Seq Re.Bol (Re.Seq ws (Re.Seq (Re.Opt (Re.Str "<p>")) ws))))
    (Re.Plus
       (Re.Seq (Re.Str "<a")
       (Re.Seq (Re.Plus (Re.In Re.Space))
       (Re.Seq (Re.Str "href=")
       (Re.Seq (Re.Lit dquote)
       (Re.Seq (Re.Star (Re.In (Re.NotChar dquote)))
       (Re.Seq (Re.Lit dquote)
       (Re.Seq (Re.Lit ">")
       (Re.Seq (Re.StarLazy (Re.In Re.Dot))
       (Re.Seq (Re.Str "</a>")
       (Re.Seq ws
       (Re.Seq (Re.Opt
                  (Re.Seq (Re.Str "<br")
                  (Re.Seq ws
                  (Re.Seq (Re.Opt (Re.Lit "/")) (Re.Lit ">")))))
               ws)))))))))))).

(** Line 120: [re.sub(match_pattern, r'\1', text, flags=re.IGNORECASE | re.DOTALL)]. *)
Definition stripLeadingLinks (t : string) : string :=
  Re.sub (Re.Flags true true) match_pattern [Re.Backref 1] t.

(** Line 127: [text[:267] + '.']. *)
Definition truncateUseLimit (t : string) : string :=
  Py.slice_to 267 t +:+ ".".

(** ** IdentifierExtractor (lines 184-190)

    [re.search(r'/item/(\d+)', link)], then [int(id_match.group(1))]:
    [None] without a match (line 188), else what [int] returns or
    raises (line 186). *)
Definition item_pattern : Re.regex :=
  Re.Seq (Re.Str "/item/") (Re.Group 1 (Re.Plus (Re.In Re.Digit))).

Definition extractCatalogId (link : string) : option (Z + Exc) :=
  m ← Re.search Re.no_flags item_pattern link;
  py_int <$> Re.group 1 m.

(** ** TreeEditor and the edit section (lines 109-176) *)

(** [".//dataIdInfo/idAbs"] and [".//dataIdInfo/resConst/Consts/useLimit"]. *)
Definition abstract_path : list step :=
  [Self; Descendant "dataIdInfo"; Child "idAbs"].

Definition use_limit_path : list step :=
  [Self; Descendant "dataIdInfo"; Child "resConst"; Child "Consts"; Child "useLimit"].

(** [if node.text: node.text = f(node.text)]. *)
Definition edit_text (f : string → string) (e : Element) : Element :=
  if Py.truthy (text e) then set_text (f <$> text e) e else e.

(** [for node in root.findall(path): if node.text: node.text = f(node.text)].
    [findall] returns a list, built before the first iteration. *)
Definition edit_texts (f : string → string) (path : list step) (root : Element) : Element :=
  fold_left (λ doc node, update (edit_text f) node doc) (findall path root) root.

(** Lines 135-139, the inner loop: walk [child.iter()] until a tag ends
    with [Thumbnail]; [true] when the walk hit one (the child is then
    removed and the walk left by [break]). *)
Fixpoint thumbnail_scan (child : Element) (rels : list ref) : bool :=
  match rels with
  | [] => false
  | rel :: rels' =>
      if from_option (λ t, Py.endswith t "Thumbnail") false (tag_at child rel)
      then true
      else thumbnail_scan child rels'
  end.

Definition holds_thumbnail (child : Element) : bool :=
  Py.endswith (tag child) "Binary" && thumbnail_scan child (iter child).

(** Lines 133-139. [list(root)] is a snapshot of the children; each
    child keeps the index it has in the snapshot as its identity, and
    [root.remove(child)] takes the child with that identity out of the
    live list. The second component counts the removals (one log line
    each). *)
Definition remove_child (i : nat) (live : list (nat * Element)) : list (nat * Element) :=
  filter (λ ic, ic.1 ≠ i) live.

Definition removeThumbnailBlock_loop (snapshot : list (nat * Element))
    (live : list (nat * Element)) : list (nat * Element) * nat :=
  fold_left
    (λ st ic,
       if holds_thumbnail ic.2 then (remove_child ic.1 st.1, S st.2) else st)
    snapshot (live, 0).

Definition removeThumbnailBlock (root : Element) : Element :=
  let snapshot := imap pair (children root) in
  set_children ((removeThumbnailBlock_loop snapshot snapshot).1.*2) root.

Definition thumbnails_removed (root : Element) : nat :=
  let snapshot := imap pair (children root) in
  (removeThumbnailBlock_loop snapshot snapshot).2.

(** [x = parent.find(t); if x is None: x = ET.SubElement(parent, t)]. *)
Definition find_or_create (t : string) (parent : ref) (doc : Element) : Element * ref :=
  match find t parent doc with
  | Some x => (doc, x)
  | None => SubElement parent t doc
  end.

(** Lines 143-174. *)
Definition upsertDistributionInfo (restUrl formatName : string) (root : Element) : Element :=
  let '(root, dist_info) := find_or_create "distInfo" [] root in
  let '(root, dist_tran_ops) := find_or_create "distTranOps" dist_info root in
  let '(root, online_src) := find_or_create "onLineSrc" dist_tran_ops root in
  let '(root, linkage) := find_or_create "linkage" online_src root in
  let root := update (set_text (Some restUrl)) linkage root in
  let '(root, dist_format) := find_or_create "distFormat" dist_info root in
  let '(root, format_name) := find_or_create "formatName" dist_format root in
  update (set_text (Some formatName)) format_name root.

(** Lines 114-174: the document after the edits. *)
Definition edit_document (rest_url : string) (root : Element) : Element :=
  let root := edit_texts stripLeadingLinks abstract_path root in
  let root := edit_texts truncateUseLimit use_limit_path root in
  let root := removeThumbnailBlock root in
  upsertDistributionInfo rest_url "ESRI REST Service" root.

(** ** The script around the edits (lines 49-207)

    The network, the XML parser and serializer and the JSON decoder are
    outside the program. A call to them returns a value or raises; the
    network also moves the world on, so the same request can be answered
    differently later. *)

Record Response : Type := MkResponse { status_code : Z; content : string }.

Inductive Payload : Type :=
  | Credentials (username password : option string)
  | InportUpdate (sessionId : option string) (catId transformId : Z) (xml : string).

(** What the run does to the outside, in order: the lines it prints and
    the requests it makes, with their answers. *)
Inductive Event : Type :=
  | Print (line : string)
  | Get (url : string) (answer : Response + Exc)
  | Post (url : option string) (json : Payload) (answer : Response + Exc).

(** A row of the data frame, each field after [str()]. *)
Record SourceRecord : Type :=
  MkRecord { file_id : string; rest_url : string; survey_name : string; link : string }.

(** The environment variables the loop reads (lines 23-26). *)
Record Config : Type :=
  MkConfig { inport_username : option string;
             inport_password : option string;
             inport_session_url : option string;
             inport_xml_url : option string }.

(** The module-level variables the claims read. *)
Record Globals : Type :=
  MkGlobals { session_id : option string;
              root : option Element;
              modified_xml : option string;
              item_id : option Z }.

(** Where an exception of the loop body was raised: in [requests.get]
    (line 103), in [ET.fromstring] (line 109), in [int] (line 186) or
    in [requests.post] (line 200). *)
Inductive Site : Type := AtFetch | AtParse | AtId | AtPublish.

(** How one iteration of the loop ends: at the end of the [try] body,
    at the [continue] of line 107, at the [continue] of line 190, or in
    the handler of lines 204-205. *)
Inductive RecordOutcome : Type :=
  | Success
  | SkippedFetch (status : Z)
  | SkippedNoId
  | Caught (site : Site) (e : Exc).


(** Line 82. *)
Definition surveys_with_inport : list string :=
  ["Hook and Line Survey"; "Marine Mammal and Sea Turtle Survey";
   "North Atlantic Right Whale Aerial Survey"; "Passive Acoustic Monitoring Survey";
   "Seal Aerial Survey"; "Turtle Ecology Survey"; "eDNA Survey"].

(** Line 102. *)
Definition source_url (file_id : string) : string :=
  "https://www.arcgis.com/sharing/rest/content/items/" +:+ file_id
  +:+ "/info/metadata/metadata.xml".

(** The lines the loop prints (lines 99-205). *)
Definition starting_line (row : SourceRecord) : string :=
  "Starting update for " +:+ survey_name row +:+ "...".
Definition fetch_failed_line (row : SourceRecord) (status : Z) : string :=
  survey_name row +:+ " (" +:+ file_id row
  +:+ "): Failed to fetch XML (HTTP " +:+ pretty status +:+ ")".
Definition abstract_line (row : SourceRecord) : string :=
  " - Edited XML abstract for " +:+ survey_name row +:+ " -".
Definition use_terms_line (row : SourceRecord) : string :=
  " - Edited XML use terms for " +:+ survey_name row +:+ " -".
Definition thumbnail_line (row : SourceRecord) : string :=
  " - Removed thumbnail from XML for " +:+ survey_name row +:+ " -".
Definition distribution_line (row : SourceRecord) : string :=
  " - Added/edited distribution info to XML for " +:+ survey_name row +:+ " -".
Definition updating_line (n : Z) : string :=
  " - Updating InPort item ID: " +:+ pretty n.
Definition skipping_line (row : SourceRecord) : string :=
  "Skipping " +:+ file_id row +:+ ": InPort ID not found in link '" +:+ link row +:+ "'".
Definition status_line (r : Response) : string :=
  " - InPort Status Code: " +:+ pretty (status_code r) +:+ " - ".
Definition warnings_line (r : Response) : string :=
  " - InPort Errors and Warnings: " +:+ content r +:+ " - ".
Definition error_line (row : SourceRecord) (e : Exc) : string :=
  survey_name row +:+ ": Error - " +:+ exc_msg e.

Section Script.

Context {World : Type}.

(** [requests.get(url)] and [requests.post(url, json=payload)]. *)
Variable requests_get : string → World → (Response + Exc) * World.
Variable requests_post : option string → Payload → World → (Response + Exc) * World.
(** [response.raise_for_status()]: [Some e] when it raises [e]. *)
Variable raise_for_status : Response → option Exc.
(** [response.json().get('sessionId')]. *)
Variable json_sessionId : Response → option string + Exc.
(** [ET.fromstring] and [ET.tostring(_, encoding="unicode")]. *)
Variable fromstring : string → Element + Exc.
Variable tostring : Element → string.

Variable config : Config.

Record State : Type := MkState { world : World; globals : Globals }.

(** The three ways a statement sequence ends. *)
Inductive Result (A : Type) : Type :=
  | Ok (a : A)
  | Raise (site : Site) (e : Exc)
  | Continue (o : RecordOutcome).
Arguments Ok {A} a.
Arguments Raise {A} site e.
Arguments Continue {A} o.

(** A statement: from a state to how it ends, the state it leaves and
    the events it produced. *)
Definition M (A : Type) : Type := State → Result A * State * list Event.

Definition ret {A} (a : A) : M A := λ st, (Ok a, st, []).

Definition bind {A B} (m : M A) (f : A → M B) : M B :=
  λ st,
    match m st with
    | (Ok a, st1, ev1) =>
        let '(r, st2, ev2) := f a st1 in (r, st2, ev1 ++ ev2)
    | (Raise site e, st1, ev1) => (Raise site e, st1, ev1)
    | (Continue o, st1, ev1) => (Continue o, st1, ev1)
    end.

#[local] Instance M_ret : MRet M := @ret.
#[local] Instance M_bind : MBind M := λ A B f m, bind m f.

Definition print (line : string) : M unit := λ st, (Ok (), st, [Print line]).

Definition raise {A} (site : Site) (e : Exc) : M A := λ st, (Raise site e, st, []).

Definition continue {A} (o : RecordOutcome) : M A := λ st, (Continue o, st, []).

Definition read {A} (f : Globals → A) : M A := λ st, (Ok (f (globals st)), st, []).

Definition assign (f : Globals → Globals) : M unit :=
  λ st, (Ok (), MkState (world st) (f (globals st)), []).

Definition http_get (site : Site) (url : string) : M Response :=
  λ st,
    let '(answer, w) := requests_get url (world st) in
    let st1 := MkState w (globals st) in
    match answer with
    | inl r => (Ok r, st1, [Get url answer])
    | inr e => (Raise site e, st1, [Get url answer])
    end.

Definition http_post (site : Site) (url : option string) (json : Payload) : M Response :=
  λ st,
    let '(answer, w) := requests_post url json (world st) in
    let st1 := MkState w (globals st) in
    match answer with
    | inl r => (Ok r, st1, [Post url json answer])
    | inr e => (Raise site e, st1, [Post url json answer])
    end.

Definition call {A} (site : Site) (x : A + Exc) : M A :=
  match x with
  | inl a => ret a
  | inr e => raise site e
  end.

Definition set_root (r : Element) (g : Globals) : Globals :=
  MkGlobals (session_id g) (Some r) (modified_xml g) (item_id g).
Definition set_modified_xml (x : string) (g : Globals) : Globals :=
  MkGlobals (session_id g) (root g) (Some x) (item_id g).
Definition set_item_id (n : Z) (g : Globals) : Globals :=
  MkGlobals (session_id g) (root g) (modified_xml g) (Some n).
Definition set_session_id (x : option string) (g : Globals) : Globals :=
  MkGlobals x (root g) (modified_xml g) (item_id g).

(** *** Session acquisition (lines 56-74)

    The two handlers catch everything; whatever is raised inside the
    [try], the script goes on with the [session_id] it has. *)
Definition acquire_session : M unit :=
  assign (set_session_id None) ;;
  print "Obtaining InPort session ID..." ;;
  match inport_session_url config with
  | Some (String _ _ as url) =>
      λ st,
        let '(answer, w) :=
          requests_post (Some url)
            (Credentials (inport_username config) (inport_password config)) (world st) in
        let st1 := MkState w (globals st) in
        let ev := Post (Some url)
                    (Credentials (inport_username config) (inport_password config)) answer in
        let handler (e : Exc) : Result unit * State * list Event :=
          (Ok (), st1,
           [ev; Print (match exc_class e with
                       | RequestException => "An error occurred during the request: "
                       | OtherException => "An unexpected error occurred: "
                       end +:+ exc_msg e)]) in
        match answer with
        | inr e => handler e
        | inl response =>
            match raise_for_status response with
            | Some e => handler e
            | None =>
                match json_sessionId response with
                | inr e => handler e
                | inl sid =>
                    (Ok (), MkState w (set_session_id sid (globals st)),
                     [ev; Print "InPort session ID obtained."])
                end
            end
        end
  | _ => print "Error: inport_session_url was not defined."
  end.

(** *** One iteration of the loop (lines 93-205) *)

(** The [try] body, lines 99-202. *)
Definition record_body (row : SourceRecord) : M unit :=
  print (starting_line row) ;;
  response ← http_get AtFetch (source_url (file_id row));
  (if bool_decide (status_code response ≠ 200%Z)
   then
     print (fetch_failed_line row (status_code response)) ;;
     continue (SkippedFetch (status_code response))
   else ret ()) ;;
  r ← call AtParse (fromstring (content response));
  assign (set_root r) ;;
  let r := edit_texts stripLeadingLinks abstract_path r in
  assign (set_root r) ;;
  print (abstract_line row) ;;
  let r := edit_texts truncateUseLimit use_limit_path r in
  assign (set_root r) ;;
  print (use_terms_line row) ;;
  let removed := thumbnails_removed r in
  let r := removeThumbnailBlock r in
  assign (set_root r) ;;
  (λ st, (Ok (), st, replicate removed (Print (thumbnail_line row)))) ;;
  let r := upsertDistributionInfo (rest_url row) "ESRI REST Service" r in
  assign (set_root r) ;;
  print (distribution_line row) ;;
  assign (set_modified_xml (tostring r)) ;;
  match extractCatalogId (link row) with
  | Some item =>
      n ← call AtId item;
      assign (set_item_id n) ;;
      print (updating_line n) ;;
      sid ← read session_id;
      update ← http_post AtPublish (inport_xml_url config)
                  (InportUpdate sid n 1005 (tostring r));
      print (status_line update) ;;
      print (warnings_line update)
  | None =>
      print (skipping_line row) ;;
      continue SkippedNoId
  end.

(** The [try] with its handler: how the iteration ended, the state it
    leaves and its events. *)
Definition run_record (row : SourceRecord) (st : State)
    : RecordOutcome * State * list Event :=
  match record_body row st with
  | (Ok _, st1, ev) => (Success, st1, ev)
  | (Continue o, st1, ev) => (o, st1, ev)
  | (Raise site e, st1, ev) =>
      (Caught site e, st1, ev ++ [Print (error_line row e)])
  end.

(** *** The loop (lines 87-205) *)

(** Line 87: the rows whose survey is on the list, in their order. *)
Definition df_subset (df_features : list SourceRecord) : list SourceRecord :=
  filter (λ row, survey_name row ∈ surveys_with_inport) df_features.

Fixpoint run_batch (rows : list SourceRecord) (st : State)
    : list (RecordOutcome * list Event) * State :=
  match rows with
  | [] => ([], st)
  | row :: rows' =>
      let '(o, st1, ev) := run_record row st in
      let '(rest, st2) := run_batch rows' st1 in
      ((o, ev) :: rest, st2)
  end.

(** Lines 56-207, from the data frame on: the iterations, the final
    state and everything the run did to the outside. *)
Definition script (df_features : list SourceRecord) (w : World)
    : list (RecordOutcome * list Event) * State * list Event :=
  let st0 := MkState w (MkGlobals None None None None) in
  let '(_, st1, ev) := acquire_session st0 in
  let '(runs, st2) := run_batch (df_subset df_features) st1 in
  (runs, st2,
   ev ++ [Print "Looping through surveys with InPort pages to update..."]
      ++ concat (runs.*2)
      ++ [Print "All AGOL XML items updated on InPort."]).

End Script.

Arguments Ok {A} a.
Arguments Raise {A} site e.
Arguments Continue {A} o.

(** ** Fixtures: documents, and a scripted network *)

Definition abstract_example : string :=
  "<p><a href=" +:+ String dquote ("h" +:+ String dquote ">x</a></p>Real text.").

Definition leaf (t x : string) : Element := Elem t [] (Some x) None [].
Definition node (t : string) (cs : list Element) : Element := Elem t [] None None cs.

(** A document with one abstract, one use limit and one thumbnail. *)
Definition fixture : Element :=
  node "metadata"
    [ node "dataIdInfo"
        [ leaf "idAbs" abstract_example;
          node "resConst" [ node "Consts" [ leaf "useLimit" "CC0 1.0" ] ] ];
      node "Binary" [ node "Thumbnail" [ leaf "Data" "AAAA" ] ] ].

(** Two binary containers, each with a thumbnail below it. *)
Definition two_thumbnails : Element :=
  node "metadata"
    [ node "Binary" [ node "Thumbnail" [ leaf "Data" "AAAA" ] ];
      node "Binary" [ node "Enclosure" [ node "Thumbnail" [] ] ] ].

(** A distribution block that already lists two linkages. *)
Definition two_linkages : Element :=
  node "metadata"
    [ node "distInfo"
        [ node "distTranOps"
            [ node "onLineSrc" [ leaf "linkage" "old-a"; leaf "linkage" "old-b" ] ] ] ].

Module Toy.

(** The answers of the network, in the order of the requests. *)
Definition World : Type := list (Response + Exc).

Definition refused : Exc := MkExc RequestException "connection refused".

Definition next (w : World) : (Response + Exc) * World :=
  match w with
  | a :: w' => (a, w')
  | [] => (inr refused, [])
  end.

Definition requests_get (_ : string) : World → (Response + Exc) * World := next.
Definition requests_post (_ : option string) (_ : Payload)
  : World → (Response + Exc) * World := next.

Definition raise_for_status (r : Response) : option Exc :=
  if ((400 <=? status_code r) && (status_code r <? 600))%Z
  then Some (MkExc RequestException "HTTP error")
  else None.

(** The body of the session answer is the token itself. *)
Definition json_sessionId (r : Response) : option string + Exc :=
  match content r with
  | EmptyString => inr (MkExc RequestException "Expecting value")
  | tok => inl (Some tok)
  end.

Definition fromstring (s : string) : Element + Exc :=
  if bool_decide (s = "fixture") then inl fixture
  else inr (MkExc OtherException "syntax error: line 1, column 0").

Fixpoint tostring (e : Element) : string :=
  match e with
  | Elem t _ x tl cs =>
      "<" +:+ t +:+ ">" +:+ default "" x
      +:+ (fix go (cs : list Element) : string :=
             match cs with
             | [] => ""
             | c :: cs' => tostring c +:+ go cs'
             end) cs
      +:+ "</" +:+ t +:+ ">" +:+ default "" tl
  end.

Definition config : Config :=
  MkConfig (Some "user") (Some "secret") (Some "https://inport/session")
    (Some "https://inport/xml").


Definition row (name id lnk : string) : SourceRecord :=
  MkRecord id "https://svc/rest" name lnk.

Definition run_record := run_record requests_get requests_post fromstring tostring.
Definition run_batch := run_batch requests_get requests_post fromstring tostring.
Definition script :=
  script requests_get requests_post raise_for_status json_sessionId fromstring tostring.

End Toy.


(** ** Definitions for the statements and the proofs *)

Definition long_use_limit : string :=
  "This work is licensed under the Creative Commons CC0 1.0 Universal license. "
  +:+ "The person who associated a work with this deed has dedicated the work to "
  +:+ "the public domain by waiving all of his or her rights to the work worldwide "
  +:+ "under copyright law, including all related rights.<img src='cc-zero.png'/>".

(** A run of [n] digits, and a link whose id has 4301 of them. *)
Definition digit_run (n : nat) : string := Nat.iter n (String "1") "".

Definition long_id_link : string := "https://x/item/" +:+ digit_run 4301.

Section ElementInd.

Variable P : Element → Prop.
Hypothesis step_case : ∀ t a x tl cs, Forall P cs → P (Elem t a x tl cs).

Fixpoint Element_forall_ind (e : Element) : P e :=
  match e with
  | Elem t a x tl cs =>
      step_case t a x tl cs
        ((fix go (cs : list Element) : Forall P cs :=
            match cs with
            | [] => Forall_nil_2 P
            | c :: cs' => Forall_cons_2 P c cs' (Element_forall_ind c) (go cs')
            end) cs)
  end.

End ElementInd.

Definition removed_ids (todo : list (nat * Element)) : list nat :=
  (filter (λ ic, holds_thumbnail ic.2) todo).*1.

(** The digits right behind the marker at the start of [s], if [s]
    starts with the marker and a digit. *)
Definition digits_here (s : string) : option string :=
  if Py.startswith s "/item/"
  then (match leading Re.is_digit (Py.slice_from 6 s) with
        | EmptyString => None
        | ds => Some ds
        end)
  else None.

Fixpoint first_digits (s : string) : option string :=
  match digits_here s with
  | Some ds => Some ds
  | None =>
      match s with
      | String _ s' => first_digits s'
      | EmptyString => None
      end
  end.

(** An edit of the text of one element, nothing else. *)
Definition text_edit (h : option string → option string) (e : Element) : Element :=
  set_text (h (text e)) e.

Definition edit_opt (f : string → string) (o : option string) : option string :=
  if Py.truthy o then f <$> o else o.

(** The document without its texts: tags, attributes, tails, children. *)
Fixpoint skeleton (e : Element) : Element :=
  match e with
  | Elem t a _ tl cs => Elem t a None tl (skeleton <$> cs)
  end.

(** The elements of [e], [e] included, whose tag is [t]. *)
Definition descend (t : string) (e : Element) : list ref :=
  rel ← iter e; if bool_decide (tag_at e rel = Some t) then [rel] else [].

(** What [".//t/t1/../tn"] selects below a child [c] of the root, as
    references relative to [c]. *)
Definition sub_findall (t : string) (ts : list string) (c : Element) : list ref :=
  fold_left (λ result s, select c s result) (Child <$> ts) (descend t c).

(** The text edits of a list of references, one after the other. *)
Definition edit_all (h : option string → option string) (ps : list ref) (doc : Element) : Element :=
  fold_left (λ d p, update (text_edit h) p d) ps doc.

(** [x = e.find(t); if x is None: x = ET.SubElement(e, t)] seen from
    the element [e]: what [e] is afterwards, and where [x] is. *)
Definition ensure_child (t : string) (e : Element) : Element :=
  match head (indices_with_tag t (children e)) with
  | Some _ => e
  | None => set_children (children e ++ [new_element t]) e
  end.

Definition child_index (t : string) (e : Element) : nat :=
  default 0 (head (indices_with_tag t (children e))).

(** Get-or-create the first child with tag [t], then apply [f] to it. *)
Definition with_child (t : string) (f : Element → Element) (e : Element) : Element :=
  match head (indices_with_tag t (children e)) with
  | Some i => set_children (alter f i (children e)) e
  | None => set_children (children e ++ [f (new_element t)]) e
  end.

(** Get-or-create along the tags [ts], then [f] on the last element:
    with references, and as a function on the element. *)
Fixpoint chain (ts : list string) (f : Element → Element) (p : ref) (doc : Element) : Element :=
  match ts with
  | [] => update f p doc
  | t :: ts' => let '(doc', q) := find_or_create t p doc in chain ts' f q doc'
  end.

Fixpoint with_chain (ts : list string) (f : Element → Element) (e : Element) : Element :=
  match ts with
  | [] => f e
  | t :: ts' => with_child t (with_chain ts' f) e
  end.

(** [e.find(t1).find(t2)...]: the element reached through the first
    child with tag [t1], its first child with tag [t2], and so on. *)
Fixpoint follow (ts : list string) (e : Element) : option Element :=
  match ts with
  | [] => Some e
  | t :: ts' =>
      i ← head (indices_with_tag t (children e));
      c ← children e !! i;
      follow ts' c
  end.

(** The reference of the element that [follow ts] reaches. *)
Fixpoint follow_ref (ts : list string) (e : Element) : option ref :=
  match ts with
  | [] => Some []
  | t :: ts' =>
      i ← head (indices_with_tag t (children e));
      c ← children e !! i;
      r ← follow_ref ts' c;
      Some (i :: r)
  end.

(** Every element of [e] is in [e'] at the same place, with its tag,
    attributes and tail, and with its text unless [P] holds of the
    place. *)
Definition kept (P : ref → Prop) (e e' : Element) : Prop :=
  ∀ p x, get p e = Some x →
    ∃ x', get p e' = Some x' ∧ tag x' = tag x ∧ attrib x' = attrib x
          ∧ tail x' = tail x ∧ (text x' = text x ∨ P p).

(** Every place of [e'] is a place of [e], unless [P] holds of it. *)
Definition grown (P : ref → Prop) (e e' : Element) : Prop :=
  ∀ p, is_Some (get p e') → is_Some (get p e) ∨ P p.

(** The number of elements with tag [t] in [e], [e] included. *)
Definition count_tag (t : string) (e : Element) : nat := length (descend t e).

Definition linkage_tags : list string := ["distTranOps"; "onLineSrc"; "linkage"].
Definition format_tags : list string := ["distFormat"; "formatName"].

(** The distribution block that the upsert builds from nothing. *)
Definition fresh_distInfo (restUrl formatName : string) : Element :=
  node "distInfo"
    [ node "distTranOps" [ node "onLineSrc" [ leaf "linkage" restUrl ] ];
      node "distFormat" [ leaf "formatName" formatName ] ].

(** The first child with tag [t] is there and [f] leaves it as it is. *)
Definition settled (t : string) (f : Element → Element) (e : Element) : Prop :=
  ∃ i c, head (indices_with_tag t (children e)) = Some i
         ∧ children e !! i = Some c ∧ f c = c.

(** [with_child] on the list of children. *)
Fixpoint upsert_first (t : string) (f : Element → Element) (cs : list Element) : list Element :=
  match cs with
  | [] => [f (new_element t)]
  | c :: cs' => if bool_decide (tag c = t) then f c :: cs' else c :: upsert_first t f cs'
  end.

(** The children without the first one with tag [t]. *)
Fixpoint drop_first (t : string) (cs : list Element) : list Element :=
  match cs with
  | [] => []
  | c :: cs' => if bool_decide (tag c = t) then cs' else c :: drop_first t cs'
  end.

(** *** The document outside the targets of the edits

    The texts of the elements selected by the two paths are blanked,
    the children of the root that hold a thumbnail are dropped, and so
    is the first [distInfo] child of the root. What is left is the part
    of the document the edits have no business with. *)
Definition blank_texts (path : list step) (root : Element) : Element :=
  fold_left (λ doc node, update (set_text None) node doc) (findall path root) root.

Definition drop_thumbnails (root : Element) : Element :=
  set_children (filter (λ c, ¬ holds_thumbnail c) (children root)) root.

Definition drop_distInfo (root : Element) : Element :=
  set_children (drop_first "distInfo" (children root)) root.

Definition outside_targets (root : Element) : Element :=
  drop_distInfo
    (drop_thumbnails
       (blank_texts use_limit_path (blank_texts abstract_path root))).

(** [fixture] after the edits with the REST URL of the specification's
    example. *)
Definition fixture_edited : Element :=
  node "metadata"
    [ node "dataIdInfo"
        [ leaf "idAbs" "<p></p>Real text.";
          node "resConst" [ node "Consts" [ leaf "useLimit" "CC0 1.0." ] ] ];
      fresh_distInfo "https://svc/rest" "ESRI REST Service" ].

(** The character data directly inside [e], in document order: its
    text, and the tail behind each of its children. *)
Definition text_nodes (e : Element) : list string :=
  omap id (text e :: (tail <$> children e)).

(** A document with text behind its thumbnail container. *)
Definition thumbnail_with_tail : Element :=
  node "metadata"
    [ Elem "Binary" [] None (Some "KEEP ME") [ node "Thumbnail" [ leaf "Data" "AAAA" ] ];
      leaf "idPurp" "Purpose." ].

Definition text_at (doc : Element) (p : ref) : option (option string) :=
  text <$> get p doc.

(** The lines of the edit section for a parsed document (lines 121-176). *)
Definition edit_log (row : SourceRecord) (doc : Element) : list Event :=
  [Print (abstract_line row); Print (use_terms_line row)]
  ++ replicate
       (thumbnails_removed
          (edit_texts truncateUseLimit use_limit_path
             (edit_texts stripLeadingLinks abstract_path doc)))
       (Print (thumbnail_line row))
  ++ [Print (distribution_line row)].

(** The module variables after the edit section. *)
Definition edited_globals (tostring : Element → string) (row : SourceRecord)
    (doc : Element) (g : Globals) : Globals :=
  MkGlobals (session_id g) (Some (edit_document (rest_url row) doc))
    (Some (tostring (edit_document (rest_url row) doc))) (item_id g).

Definition is_post (ev : Event) : bool :=
  match ev with Post _ _ _ => true | _ => false end.

(** The session value of a publish request. *)
Definition posted_session (ev : Event) : option (option string) :=
  match ev with
  | Post _ (InportUpdate sid _ _ _) _ => Some sid
  | _ => None
  end.

(** The module variables after a publish request under id [n]. *)
Definition published_globals (tostring : Element → string) (row : SourceRecord)
    (doc : Element) (n : Z) (g : Globals) : Globals :=
  MkGlobals (session_id g) (Some (edit_document (rest_url row) doc))
    (Some (tostring (edit_document (rest_url row) doc))) (Some n).

(** The body of the publish request (lines 193-198). *)
Definition inport_update (tostring : Element → string) (row : SourceRecord)
    (doc : Element) (n : Z) (g : Globals) : Payload :=
  InportUpdate (session_id g) n 1005 (tostring (edit_document (rest_url row) doc)).




(** The first character of [s] that is not white space. *)
Fixpoint first_nonspace (s : string) : option ascii :=
  match s with
  | EmptyString => None
  | String a s' => if Re.is_space a then first_nonspace s' else Some a
  end.

(** [r] has no capturing group. *)
Fixpoint no_group (r : Re.regex) : bool :=
  match r with
  | Re.Seq r1 r2 => no_group r1 && no_group r2
  | Re.Opt r1 | Re.Star r1 | Re.StarLazy r1 => no_group r1
  | Re.Group _ _ => false
  | _ => true
  end.

(** The matcher has moved from [s] to [s'] over the text of [s]. *)
Definition reach (s s' : Re.cursor) : Prop :=
  Re.pos s <= Re.pos s'
  ∧ Re.pos s' - Re.pos s <= String.length (Re.rest s)
  ∧ Re.rest s' = Py.slice_from (Re.pos s' - Re.pos s) (Re.rest s).

(** A text with a link in the middle, for the examples. *)
Definition mid_text_link : string :=
  "  See <a href=" +:+ String dquote ("h" +:+ String dquote ">x</a> for more.").

(** A result of the matcher [body] is a result of its continuation, at
    a cursor further on in the same text; when [pure], the groups there
    are the groups at the start. *)
Definition sound (body : Re.cursor → (Re.cursor → option Re.cursor) → option Re.cursor)
    (pure : bool) : Prop :=
  ∀ s k res, body s k = Some res →
    ∃ s', reach s s' ∧ k s' = Some res ∧ (pure = true → Re.groups s' = Re.groups s).

(** The flags of line 120. *)
Definition strip_flags : Re.flags := Re.Flags true true.

(** One leading link of the pattern of line 118 without its first two
    characters, and the pattern's first group without the group. *)
Definition anchor_tail : Re.regex :=
  let ws := Re.Star (Re.In Re.Space) in
  Re.Seq (Re.Plus (Re.In Re.Space))
  (Re.Seq (Re.Str "href=")
  (Re.Seq (Re.Lit dquote)
  (Re.Seq (Re.Star (Re.In (Re.NotChar dquote)))
  (Re.Seq (Re.Lit dquote)
  (Re.Seq (Re.Lit ">")
  (Re.Seq (Re.StarLazy (Re.In Re.Dot))
  (Re.Seq (Re.Str "</a>")
  (Re.Seq ws
  (Re.Seq (Re.Opt
             (Re.Seq (Re.Str "<br")
             (Re.Seq ws
             (Re.Seq (Re.Opt (Re.Lit "/")) (Re.Lit ">")))))
          ws))))))))).

Definition anchor : Re.regex := Re.Seq (Re.Str "<a") anchor_tail.

Definition lead_part : Re.regex :=
  let ws := Re.Star (Re.In Re.Space) in
  Re.Seq Re.Bol (Re.Seq ws (Re.Seq (Re.Opt (Re.Str "<p>")) ws)).

(** The URL of a GET request, and the URL and body of a POST request. *)
Definition fetched_url (ev : Event) : option string :=
  match ev with
  | Get url _ => Some url
  | _ => None
  end.

Definition posted (ev : Event) : option (option string * Payload) :=
  match ev with
  | Post url json _ => Some (url, json)
  | _ => None
  end.

(** * Properties *)

(** ** Python strings *)

Lemma string_app_nil_l (s : string) : "" +:+ s = s.
Proof. reflexivity. Qed.

Lemma string_app_cons (a : ascii) (s1 s2 : string) :
  String a s1 +:+ s2 = String a (s1 +:+ s2).
Proof. reflexivity. Qed.

Lemma string_app_nil_r (s : string) : s +:+ "" = s.
Proof. induction s as [|a s IH]; [done|]. by rewrite string_app_cons, IH. Qed.

Lemma string_app_assoc (s1 s2 s3 : string) : (s1 +:+ s2) +:+ s3 = s1 +:+ (s2 +:+ s3).
Proof.
  induction s1 as [|a s1 IH]; [done|].
  by rewrite !string_app_cons, IH.
Qed.

Lemma string_app_length (s1 s2 : string) :
  String.length (s1 +:+ s2) = String.length s1 + String.length s2.
Proof.
  induction s1 as [|a s1 IH]; [done|].
  rewrite string_app_cons. simpl. by rewrite IH.
Qed.

Lemma slice_to_from (n : nat) (s : string) :
  Py.slice_to n s +:+ Py.slice_from n s = s.
Proof.
  revert s. induction n as [|n IH]; intros [|a s]; simpl; try done.
  by rewrite string_app_cons, IH.
Qed.

Lemma slice_to_length (n : nat) (s : string) :
  String.length (Py.slice_to n s) = n `min` String.length s.
Proof.
  revert s. induction n as [|n IH]; intros [|a s]; simpl; try done.
  by rewrite IH.
Qed.

Lemma slice_to_short (n : nat) (s : string) :
  String.length s ≤ n → Py.slice_to n s = s.
Proof.
  revert s. induction n as [|n IH]; intros [|a s]; simpl; try done; [lia|].
  intros ?. rewrite IH; [done|lia].
Qed.

Lemma slice_to_app (s1 s2 : string) :
  Py.slice_to (String.length s1) (s1 +:+ s2) = s1.
Proof.
  induction s1 as [|a s1 IH].
  - by destruct s2.
  - rewrite string_app_cons. simpl. by rewrite IH.
Qed.

Lemma slice_from_app (s1 s2 : string) :
  Py.slice_from (String.length s1) (s1 +:+ s2) = s2.
Proof.
  induction s1 as [|a s1 IH]; [by destruct s2|].
  rewrite string_app_cons. simpl. done.
Qed.

(** ** TextNormalizer: the use-limit cut *)

(** C3. A use-limit text of 267 characters or more becomes its first 267
    characters and a period, 268 characters in all; a shorter one
    becomes the whole text and a period. *)
Theorem truncateUseLimit_spec (t : string) :
  (267 ≤ String.length t →
     String.length (truncateUseLimit t) = 268
     ∧ ∃ first beyond, t = first +:+ beyond ∧ String.length first = 267
                       ∧ truncateUseLimit t = first +:+ ".")
  ∧ (String.length t < 267 → truncateUseLimit t = t +:+ ".").
Proof.
  unfold truncateUseLimit. split.
  - intros Hlen. split.
    + rewrite string_app_length, slice_to_length.
      change (String.length ".") with 1. lia.
    + exists (Py.slice_to 267 t), (Py.slice_from 267 t).
      rewrite slice_to_from, slice_to_length. split; [done|]. split; [lia|done].
  - intros Hlen. rewrite slice_to_short; [done|lia].
Qed.



Lemma truncateUseLimit_spec_witness :
  String.length (truncateUseLimit long_use_limit) = 268
  ∧ truncateUseLimit "CC0 1.0" = "CC0 1.0.".
Proof.
  split.
  - apply (truncateUseLimit_spec long_use_limit). vm_compute. lia.
  - apply (truncateUseLimit_spec "CC0 1.0"). vm_compute. lia.
Defined.

(** The guard of line 126: the cut is applied to a text that is there
    and not empty, and to no other. *)
Lemma edit_text_truthy (f : string → string) (e : Element) (a : ascii) (t : string) :
  text e = Some (String a t) →
  edit_text f e = set_text (Some (f (String a t))) e.
Proof. unfold edit_text. by intros ->. Qed.

Lemma edit_text_falsy (f : string → string) (e : Element) :
  Py.truthy (text e) = false → edit_text f e = e.
Proof. unfold edit_text. by intros ->. Qed.

(** ** Elements and references *)



Lemma set_text_same (e : Element) : set_text (text e) e = e.
Proof. by destruct e. Qed.

Lemma set_children_same (e : Element) : set_children (children e) e = e.
Proof. by destruct e. Qed.

Lemma get_app (p q : ref) (e : Element) :
  get (p ++ q) e = get p e ≫= get q.
Proof.
  revert e. induction p as [|i p IH]; intros e; simpl; [done|].
  destruct (children e !! i) as [c|]; simpl; [apply IH|done].
Qed.

Lemma iter_unfold (e : Element) : iter e = [] :: iter_children iter 0 (children e).
Proof. by destruct e. Qed.

Lemma iter_children_cons (L : Element → list ref) (i : nat) (c : Element) (cs : list Element) :
  iter_children L i (c :: cs) = (cons i <$> L c) ++ iter_children L (S i) cs.
Proof. done. Qed.

Lemma elem_of_iter_children (L : Element → list ref) (k : nat) (cs : list Element) (p : ref) :
  p ∈ iter_children L k cs ↔
  ∃ i c q, cs !! i = Some c ∧ q ∈ L c ∧ p = (k + i) :: q.
Proof.
  revert k. induction cs as [|c cs IH]; intros k.
  - simpl. split; [by intros ?%elem_of_nil|]. by intros (i & c & q & ? & _).
  - rewrite iter_children_cons, elem_of_app, list_elem_of_fmap, IH. split.
    + intros [(q & -> & Hq)|(i & c' & q & Hi & Hq & ->)].
      * exists 0, c, q. by rewrite Nat.add_0_r.
      * exists (S i), c', q. split_and!; [done..|]. f_equal. lia.
    + intros ([|i] & c' & q & Hi & Hq & ->); simplify_eq/=.
      * left. exists q. by rewrite Nat.add_0_r.
      * right. exists i, c', q. split_and!; [done..|]. f_equal. lia.
Qed.

(** [iter] lists exactly the references that lead somewhere. *)
Lemma elem_of_iter (e : Element) (p : ref) : p ∈ iter e ↔ is_Some (get p e).
Proof.
  revert p. induction e as [t a x tl cs IH] using Element_forall_ind. intros p.
  rewrite iter_unfold, elem_of_cons, elem_of_iter_children. simpl. split.
  - intros [->|(i & c & q & Hi & Hq & ->)]; [by eexists|]. simpl. rewrite Hi. simpl.
    rewrite Forall_lookup in IH. by apply (IH i c Hi).
  - destruct p as [|i q]; [by left|]. simpl. intros [e He]. right.
    destruct (cs !! i) as [c|] eqn:Hi; [|done]. simpl in He.
    exists i, c, q. split_and!; [done| |done].
    rewrite Forall_lookup in IH. apply (IH i c Hi). by eexists.
Qed.

Lemma NoDup_iter_children (L : Element → list ref) (k : nat) (cs : list Element) :
  Forall (λ c, NoDup (L c)) cs → NoDup (iter_children L k cs).
Proof.
  intros Hcs. revert k. induction Hcs as [|c cs Hc Hcs IH]; intros k; [constructor|].
  rewrite iter_children_cons. apply NoDup_app. split_and!.
  - apply (NoDup_fmap_2 _), Hc.
  - intros p (q & -> & _)%list_elem_of_fmap (i & c' & q' & _ & _ & ?)%elem_of_iter_children.
    simplify_eq. lia.
  - apply IH.
Qed.

Lemma NoDup_iter (e : Element) : NoDup (iter e).
Proof.
  induction e as [t a x tl cs IH] using Element_forall_ind.
  rewrite iter_unfold. simpl. constructor.
  - by intros (i & c & q & _ & _ & ?)%elem_of_iter_children.
  - by apply NoDup_iter_children.
Qed.

(** ** TreeEditor: the thumbnail loop *)

Lemma filter_all {A} (P : A → Prop) `{!∀ x, Decision (P x)} (l : list A) :
  Forall P l → filter P l = l.
Proof.
  induction 1 as [|x l ? ? IH]; [done|]. by rewrite filter_cons_True, IH.
Qed.

Lemma filter_ext_in {A} (P1 P2 : A → Prop)
    `{!∀ x, Decision (P1 x), !∀ x, Decision (P2 x)} (l : list A) :
  Forall (λ x, P1 x ↔ P2 x) l → filter P1 l = filter P2 l.
Proof.
  induction 1 as [|x l Hx ? IH]; [done|].
  rewrite !filter_cons, IH. apply decide_ext, Hx.
Qed.



Lemma thumbnail_scan_true (child : Element) (rels : list ref) :
  thumbnail_scan child rels = true ↔
  ∃ rel e, rel ∈ rels ∧ get rel child = Some e ∧ Py.endswith (tag e) "Thumbnail" = true.
Proof.
  induction rels as [|rel rels IH]; simpl.
  - split; [done|]. by intros (? & ? & ?%elem_of_nil & _).
  - unfold tag_at. destruct (get rel child) as [e|] eqn:Hget; simpl.
    + destruct (Py.endswith (tag e) "Thumbnail") eqn:He.
      * split; [|done]. intros _. exists rel, e. split_and!; [left|done..].
      * rewrite IH. split.
        -- intros (rel' & e' & ? & ? & ?). exists rel', e'. split_and!; [by right|done..].
        -- intros (rel' & e' & [->|?]%elem_of_cons & ? & ?); [congruence|].
           by exists rel', e'.
    + rewrite IH. split.
      * intros (rel' & e' & ? & ? & ?). exists rel', e'. split_and!; [by right|done..].
      * intros (rel' & e' & [->|?]%elem_of_cons & ? & ?); [congruence|].
        by exists rel', e'.
Qed.

(** A child is taken out when its tag ends with [Binary] and the tag of
    the child itself or of one of its descendants ends with
    [Thumbnail]. *)
Lemma holds_thumbnail_true (child : Element) :
  holds_thumbnail child = true ↔
  Py.endswith (tag child) "Binary" = true
  ∧ ∃ rel e, get rel child = Some e ∧ Py.endswith (tag e) "Thumbnail" = true.
Proof.
  unfold holds_thumbnail. rewrite andb_true_iff, thumbnail_scan_true. split.
  - intros (? & rel & e & _ & ? & ?). eauto.
  - intros (? & rel & e & Hget & ?). split; [done|]. exists rel, e. split_and!; [|done..].
    apply elem_of_iter. by eexists.
Qed.

Lemma removeThumbnailBlock_loop_spec (todo live : list (nat * Element)) (n : nat) :
  fold_left
    (λ st ic, if holds_thumbnail ic.2 then (remove_child ic.1 st.1, S st.2) else st)
    todo (live, n)
  = (filter (λ ic, ic.1 ∉ removed_ids todo) live, n + length (removed_ids todo)).
Proof.
  revert live n. induction todo as [|[i c] todo IH]; intros live n; simpl.
  - f_equal; [|unfold removed_ids; simpl; lia].
    symmetry. apply filter_all. apply Forall_forall. intros ? _. apply not_elem_of_nil.
  - unfold removed_ids. rewrite filter_cons. simpl.
    destruct (holds_thumbnail c) eqn:Hc.
    + rewrite decide_True by done. rewrite IH, fmap_cons, length_cons. simpl.
      f_equal; [|unfold removed_ids; lia].
      unfold remove_child. rewrite list_filter_filter. apply list_filter_iff.
      intros [j c']. simpl. rewrite not_elem_of_cons. unfold removed_ids. tauto.
    + rewrite decide_False by (simpl; tauto). apply IH.
Qed.

Lemma imap_pair_filter_snd {A} (P : A → Prop) `{!∀ x, Decision (P x)} (l : list A) (k : nat) :
  (filter (λ ic : nat * A, ic.1 ∉ (filter (λ ic, P ic.2) (imap (λ i, pair (k + i)) l)).*1)
     (imap (λ i, pair (k + i)) l)).*2
  = filter (λ c, ¬ P c) l.
Proof.
  assert (∀ (l : list A) k (j : nat) (c : A), (j, c) ∈ imap (λ i, pair (k + i)) l → k ≤ j) as Hge.
  { clear. intros l k j c (i & c' & ? & _)%elem_of_lookup_imap_1. simplify_eq/=. lia. }
  revert k. induction l as [|c l IH]; intros k; [done|].
  rewrite imap_cons. rewrite Nat.add_0_r.
  assert (imap ((λ i, pair (k + i)) ∘ S) l = imap (λ i, pair (S k + i)) l) as ->.
  { apply imap_ext. intros i ? _. simpl. f_equal. lia. }
  rewrite (filter_cons (λ c, ¬ P c)), (filter_cons (λ ic : nat * A, P ic.2)). simpl.
  destruct (decide (P c)) as [Hc|Hc].
  - rewrite (decide_False (P := ¬ P c)) by tauto.
    rewrite fmap_cons, filter_cons_False by (simpl; rewrite not_elem_of_cons; tauto).
    rewrite <-(IH (S k)). f_equal. apply filter_ext_in. apply Forall_forall.
    intros [j c'] Hj. simpl. rewrite not_elem_of_cons. apply Hge in Hj. split; [tauto|].
    intros ?. split; [lia|done].
  - rewrite (decide_True (P := ¬ P c)) by done. rewrite filter_cons_True.
    + rewrite fmap_cons. cbn [snd]. f_equal. apply (IH (S k)).
    + cbn [fst]. intros ([j c'] & ? & [_ Hj]%list_elem_of_filter)%list_elem_of_fmap.
      apply (Hge l (S k)) in Hj. simplify_eq/=. lia.
Qed.

(** The loop takes out every child that holds a thumbnail, and keeps
    the others in their order. *)
Lemma removeThumbnailBlock_filter (root : Element) :
  removeThumbnailBlock root
  = set_children (filter (λ c, ¬ holds_thumbnail c) (children root)) root.
Proof.
  unfold removeThumbnailBlock, removeThumbnailBlock_loop. rewrite removeThumbnailBlock_loop_spec. simpl.
  f_equal. unfold removed_ids.
  exact (imap_pair_filter_snd (λ c, holds_thumbnail c) (children root) 0).
Qed.

Lemma length_filter_imap_pair {A} (P : A → Prop) `{!∀ x, Decision (P x)}
    (g : nat → nat) (l : list A) :
  length (filter (λ ic : nat * A, P ic.2) (imap (λ i, pair (g i)) l))
  = length (filter P l).
Proof.
  revert g. induction l as [|c l IH]; intros g; [done|].
  rewrite imap_cons, (filter_cons P), (filter_cons (λ ic : nat * A, P ic.2)).
  cbn [snd]. specialize (IH (g ∘ S)).
  destruct (decide (P c)); cbn [length]; [f_equal|]; exact IH.
Qed.

Lemma thumbnails_removed_count (root : Element) :
  thumbnails_removed root
  = length (filter (λ c, holds_thumbnail c) (children root)).
Proof.
  unfold thumbnails_removed, removeThumbnailBlock_loop.
  rewrite removeThumbnailBlock_loop_spec. simpl.
  unfold removed_ids. rewrite length_fmap.
  exact (length_filter_imap_pair (λ c, holds_thumbnail c) id (children root)).
Qed.

(** ** The matcher on the literal and digit parts of a pattern *)

Lemma cursor_eta (s : Re.cursor) : Re.Cursor (Re.pos s) (Re.rest s) (Re.groups s) = s.
Proof. by destruct s. Qed.

Lemma startswith_spec (s p : string) :
  Py.startswith s p = true ↔ ∃ t, s = p +:+ t.
Proof.
  revert s. induction p as [|a p IH]; intros s; simpl.
  - split; [|done]. intros _. by exists s.
  - destruct s as [|b s].
    + split; [done|]. intros [t Ht]. by rewrite string_app_cons in Ht.
    + rewrite andb_true_iff, bool_decide_eq_true, IH. split.
      * intros [-> [t ->]]. by exists t.
      * intros [t Ht]. rewrite string_app_cons in Ht. simplify_eq. eauto.
Qed.

Lemma startswith_slice (s p : string) :
  Py.startswith s p = true → s = p +:+ Py.slice_from (String.length p) s.
Proof. intros [t ->]%startswith_spec. by rewrite slice_from_app. Qed.

Lemma run_Seq (fl : Re.flags) (r1 r2 : Re.regex) (s : Re.cursor) k :
  Re.run fl (Re.Seq r1 r2) s k = Re.run fl r1 s (λ s1, Re.run fl r2 s1 k).
Proof. done. Qed.

Lemma run_Group (fl : Re.flags) (i : nat) (r : Re.regex) (s : Re.cursor) k :
  Re.run fl (Re.Group i r) s k = Re.run fl r s (λ s1, k (Re.capture i s s1)).
Proof. done. Qed.

Lemma run_In (fl : Re.flags) (cl : Re.class) (s : Re.cursor) k :
  Re.run fl (Re.In cl) s k
  = match Re.rest s with
    | String a s' => if Re.class_matches fl cl a then k (Re.advance s s') else None
    | EmptyString => None
    end.
Proof. done. Qed.

Lemma run_Star (fl : Re.flags) (r : Re.regex) (s : Re.cursor) k :
  Re.run fl (Re.Star r) s k
  = Re.greedy_loop (Re.run fl r) k (String.length (Re.rest s)) s.
Proof. done. Qed.

(** A literal string matches when the text starts with it, and the
    matcher then goes on behind it. *)
Lemma run_Str (lit : string) (s : Re.cursor) (k : Re.cursor → option Re.cursor) :
  Re.run Re.no_flags (Re.Str lit) s k
  = if Py.startswith (Re.rest s) lit
    then k (Re.Cursor (Re.pos s + String.length lit)
              (Py.slice_from (String.length lit) (Re.rest s)) (Re.groups s))
    else None.
Proof.
  revert s k. induction lit as [|c lit IH]; intros [p t g] k.
  - simpl. by rewrite Nat.add_0_r.
  - assert (Re.run Re.no_flags (Re.Str (String c lit)) (Re.Cursor p t g) k
            = Re.run Re.no_flags (Re.Lit c) (Re.Cursor p t g)
                (λ s1, Re.run Re.no_flags (Re.Str lit) s1 k)) as ->.
    { by destruct lit. }
    simpl. destruct t as [|a t]; [done|]. unfold Re.lit_matches. simpl.
    rewrite (bool_decide_ext (a = c) (c = a)) by done.
    case_bool_decide; [|done]. simpl. rewrite IH. simpl.
    by rewrite Nat.add_succ_r.
Qed.

Lemma leading_split (P : ascii → bool) (s : string) :
  s = leading P s +:+ Py.slice_from (String.length (leading P s)) s.
Proof.
  induction s as [|a s IH]; simpl; [done|].
  destruct (P a); [|done]. simpl. by rewrite string_app_cons, <-IH.
Qed.

Lemma leading_all (P : ascii → bool) (s : string) : all_chars P (leading P s) = true.
Proof.
  induction s as [|a s IH]; simpl; [done|].
  destruct (P a) eqn:Ha; [|done]. simpl. by rewrite Ha.
Qed.

Lemma leading_stops (P : ascii → bool) (s : string) (a : ascii) (t : string) :
  Py.slice_from (String.length (leading P s)) s = String a t → P a = false.
Proof.
  induction s as [|b s IH]; simpl; [done|].
  destruct (P b) eqn:Hb; simpl; [done|]. by intros [= -> _].
Qed.

Lemma leading_app (P : ascii → bool) (ds t : string) :
  all_chars P ds = true →
  (∀ a t', t = String a t' → P a = false) →
  leading P (ds +:+ t) = ds.
Proof.
  intros Hds Ht. induction ds as [|a ds IH].
  - rewrite string_app_nil_l. destruct t as [|a t]; [done|]. simpl.
    by rewrite (Ht a t).
  - simpl in Hds. apply andb_true_iff in Hds as [Ha Hds].
    rewrite string_app_cons. simpl. by rewrite Ha, IH.
Qed.

Lemma slice_to_leading (P : ascii → bool) (s : string) :
  Py.slice_to (String.length (leading P s)) s = leading P s.
Proof.
  induction s as [|a s IH]; simpl; [done|].
  destruct (P a); [|done]. simpl. by rewrite IH.
Qed.

(** Behind a continuation that always succeeds, the greedy loop over a
    character class takes the longest run of the class. *)
Lemma greedy_loop_class (fl : Re.flags) (cl : Re.class)
    (k : Re.cursor → option Re.cursor) (n : nat) (s : Re.cursor) :
  (∀ c, is_Some (k c)) →
  String.length (Re.rest s) ≤ n →
  let run_of := leading (Re.class_matches fl cl) (Re.rest s) in
  Re.greedy_loop (Re.run fl (Re.In cl)) k n s
  = k (Re.Cursor (Re.pos s + String.length run_of)
         (Py.slice_from (String.length run_of) (Re.rest s)) (Re.groups s)).
Proof.
  intros Hk. revert s. induction n as [|n IH]; intros [p t g]; simpl; intros Hlen.
  - destruct t; [|simpl in Hlen; lia]. simpl. by rewrite Nat.add_0_r.
  - destruct t as [|a t]; simpl.
    + by rewrite Nat.add_0_r.
    + destruct (Re.class_matches fl cl a); simpl; [|by rewrite Nat.add_0_r].
      assert ((p <? S p) = true) as -> by (apply Nat.ltb_lt; lia).
      simpl in Hlen. rewrite IH by (simpl; lia). simpl.
      rewrite Nat.add_succ_r.
      by destruct (Hk (Re.Cursor (S (p + String.length (leading (Re.class_matches fl cl) t)))
                         (Py.slice_from (String.length (leading (Re.class_matches fl cl) t)) t) g))
        as [? ->].
Qed.

(** ** IdentifierExtractor *)



Lemma match_at_item (p : nat) (s : string) :
  Re.match_at Re.no_flags item_pattern p s
  = (ds ← digits_here s;
     Some (Re.Cursor (p + 6 + String.length ds)
             (Py.slice_from (String.length ds) (Py.slice_from 6 s)) [(1, ds)])).
Proof.
  unfold Re.match_at, item_pattern, digits_here.
  rewrite run_Seq, run_Str. cbn [Re.rest Re.pos Re.groups].
  destruct (Py.startswith s "/item/"); [|done].
  change (String.length "/item/") with 6.
  set (t := Py.slice_from 6 s). clearbody t.
  unfold Re.Plus. rewrite run_Group, run_Seq, run_In. cbn [Re.rest].
  destruct t as [|a t]; [done|]. cbn [leading].
  change (Re.class_matches Re.no_flags Re.Digit a) with (Re.is_digit a).
  destruct (Re.is_digit a) eqn:Ha; [|done].
  rewrite run_Star, greedy_loop_class; [|by eexists|done].
  cbn [Re.advance Re.rest Re.pos Re.groups mbind option_bind].
  change (Re.class_matches Re.no_flags Re.Digit) with Re.is_digit.
  unfold Re.capture. cbn [Re.rest Re.pos Re.groups String.length Py.slice_from].
  f_equal. f_equal; [lia|]. f_equal. f_equal.
  replace (S (p + 6) + _ - _) with (S (String.length (leading Re.is_digit t))) by lia.
  cbn [Py.slice_to]. f_equal. apply slice_to_leading.
Qed.

Lemma search_from_item (p : nat) (s : string) :
  Re.group 1 <$> Re.search_from Re.no_flags item_pattern p s
  = Some <$> first_digits s.
Proof.
  revert p. induction s as [|a s IH]; intros p.
  - done.
  - cbn [Re.search_from first_digits]. rewrite match_at_item.
    destruct (digits_here (String a s)) as [ds|]; simpl; [done|]. apply IH.
Qed.

Lemma extractCatalogId_first_digits (link : string) :
  extractCatalogId link = py_int <$> first_digits link.
Proof.
  unfold extractCatalogId, Re.search.
  pose proof (search_from_item 0 link) as H.
  destruct (Re.search_from Re.no_flags item_pattern 0 link) as [m|];
    destruct (first_digits link) as [ds|]; simplify_eq/=; [|done].
  by match goal with H : Re.group 1 m = _ |- _ => rewrite H end.
Qed.

Lemma digits_here_Some (s ds : string) :
  digits_here s = Some ds →
  ∃ after, s = "/item/" +:+ ds +:+ after
           ∧ ds ≠ "" ∧ all_chars Re.is_digit ds = true
           ∧ (∀ a t, after = String a t → Re.is_digit a = false).
Proof.
  unfold digits_here. destruct (Py.startswith s "/item/") eqn:Hs; [|done].
  apply startswith_slice in Hs. change (String.length "/item/") with 6 in Hs.
  set (t := Py.slice_from 6 s) in *. clearbody t. subst s.
  destruct (leading Re.is_digit t) as [|a ds'] eqn:Hds; [done|]. intros [= <-].
  exists (Py.slice_from (String.length (leading Re.is_digit t)) t).
  rewrite <-Hds at 1. rewrite <-leading_split. split_and!; [done..| |].
  - rewrite <-Hds. apply leading_all.
  - intros a' t'. apply leading_stops.
Qed.

Lemma digits_here_None (s : string) (d : ascii) (after : string) :
  digits_here s = None → s = "/item/" +:+ String d after → Re.is_digit d = false.
Proof.
  intros Hnone ->. unfold digits_here in Hnone.
  assert (Py.startswith ("/item/" +:+ String d after) "/item/" = true) as Hs.
  { apply startswith_spec. by eexists. }
  rewrite Hs in Hnone.
  change 6 with (String.length "/item/") in Hnone. rewrite slice_from_app in Hnone.
  simpl in Hnone. by destruct (Re.is_digit d).
Qed.

Lemma first_digits_spec (s : string) :
  match first_digits s with
  | Some ds =>
      ∃ before after,
        s = before +:+ "/item/" +:+ ds +:+ after
        ∧ ds ≠ "" ∧ all_chars Re.is_digit ds = true
        ∧ (∀ a t, after = String a t → Re.is_digit a = false)
        ∧ (∀ before' d after',
             s = before' +:+ "/item/" +:+ String d after' → Re.is_digit d = true →
             String.length before ≤ String.length before')
  | None =>
      ∀ before d after,
        s = before +:+ "/item/" +:+ String d after → Re.is_digit d = false
  end.
Proof.
  induction s as [|c s IH].
  - simpl. intros [|? ?] d after; by rewrite ?string_app_cons.
  - cbn [first_digits]. destruct (digits_here (String c s)) as [ds|] eqn:Hhere.
    + apply digits_here_Some in Hhere as (after & Hs & ? & ? & ?).
      exists "", after. rewrite string_app_nil_l. split_and!; [done..|].
      intros; simpl; lia.
    + destruct (first_digits s) as [ds|].
      * destruct IH as (before & after & -> & ? & ? & ? & Hleft).
        exists (String c before), after. split_and!; [done..|].
        intros [|c' before'] d after' Heq Hd.
        -- rewrite string_app_nil_l in Heq.
           rewrite (digits_here_None _ d after' Hhere Heq) in Hd. done.
        -- rewrite (string_app_cons c' before') in Heq. simplify_eq. simpl.
           apply le_n_S. by eapply Hleft.
      * intros [|c' before] d after Heq.
        -- rewrite string_app_nil_l in Heq. by eapply digits_here_None.
        -- rewrite (string_app_cons c' before) in Heq. simplify_eq. by eapply IH.
Qed.

(** C5, as stated, fails: the link of [long_id_link] holds the marker
    followed by 4301 digits, and [int] raises on them instead of
    returning the integer. *)
Lemma extractCatalogId_long_id_raises :
  extractCatalogId long_id_link = Some (inr (int_limit_error 4301))
  ∧ ¬ (∀ link,
         (∃ before d after,
            link = before +:+ "/item/" +:+ String d after ∧ Re.is_digit d = true) →
         ∃ n, extractCatalogId link = Some (inl n)).
Proof.
  assert (extractCatalogId long_id_link = Some (inr (int_limit_error 4301))) as Hlong
    by (by vm_compute).
  split; [exact Hlong|]. intros H.
  destruct (H long_id_link) as (n & Hn).
  - exists "https://x", "1"%char, (digit_run 4300). split; by vm_compute.
  - rewrite Hlong in Hn. discriminate Hn.
Qed.

(** C5, amended. When [extractCatalogId] finds a match, the link holds
    the marker [/item/] followed by digits, the digits are the whole
    run behind the marker, and no marker followed by a digit starts
    further left; a run of at most 4300 digits gives the integer it
    spells, a longer run makes [int] raise. When it finds none, no
    marker in the link is followed by a digit. The two links of the
    specification give 4521 and nothing. *)
Theorem extractCatalogId_spec :
  (∀ link : string,
     match extractCatalogId link with
     | Some item =>
         ∃ before digits after,
           link = before +:+ "/item/" +:+ digits +:+ after
           ∧ digits ≠ "" ∧ all_chars Re.is_digit digits = true
           ∧ (∀ a t, after = String a t → Re.is_digit a = false)
           ∧ (∀ before' d after',
                link = before' +:+ "/item/" +:+ String d after' →
                Re.is_digit d = true →
                String.length before ≤ String.length before')
           ∧ item = (if decide (String.length digits ≤ 4300)
                     then inl (int_of_digits digits)
                     else inr (int_limit_error (String.length digits)))
     | None =>
         ∀ before d after,
           link = before +:+ "/item/" +:+ String d after → Re.is_digit d = false
     end)
  ∧ extractCatalogId "https://x/item/4521" = Some (inl 4521%Z)
  ∧ extractCatalogId "https://x/noid" = None.
Proof.
  split; [|split; by vm_compute].
  intros link. rewrite extractCatalogId_first_digits.
  pose proof (first_digits_spec link) as H.
  destruct (first_digits link) as [ds|]; simpl; [|done].
  destruct H as (before & after & ? & ? & ? & ? & ?).
  exists before, ds, after. split_and!; [done..|].
  unfold py_int, int_max_str_digits. by destruct (decide _); [rewrite bool_decide_eq_true_2|rewrite bool_decide_eq_false_2].
Qed.

(** ** Text edits behind references *)

Lemma edit_text_text_edit (f : string → string) (e : Element) :
  edit_text f e = text_edit (edit_opt f) e.
Proof.
  unfold edit_text, text_edit, edit_opt.
  destruct (Py.truthy (text e)); [done|]. by rewrite set_text_same.
Qed.

Lemma edit_texts_edit_all (f : string → string) (path : list step) (doc : Element) :
  edit_texts f path doc = edit_all (edit_opt f) (findall path doc) doc.
Proof.
  unfold edit_texts, edit_all. generalize (findall path doc). intros ps.
  revert doc. induction ps as [|p ps IH]; intros doc; simpl; [done|].
  rewrite IH. f_equal. clear. revert doc.
  induction p as [|i p IH]; intros doc; simpl.
  - apply edit_text_text_edit.
  - f_equal. apply list_alter_ext; [|done]. intros; apply IH.
Qed.

Lemma update_update_eq (f g : Element → Element) (p : ref) (e : Element) :
  update f p (update g p e) = update (f ∘ g) p e.
Proof.
  revert e. induction p as [|i p IH]; intros e; simpl; [done|].
  unfold set_children. simpl. f_equal.
  rewrite list_alter_alter_eq. apply list_alter_ext; [|done]. intros; apply IH.
Qed.

(** Text edits of two different elements can be done in either order. *)
Lemma update_text_edit_comm (h g : option string → option string) (p q : ref) (e : Element) :
  p ≠ q →
  update (text_edit h) p (update (text_edit g) q e)
  = update (text_edit g) q (update (text_edit h) p e).
Proof.
  revert q e. induction p as [|i p IH]; intros [|j q] e Hne; simpl; try done.
  unfold set_children. simpl. f_equal. destruct (decide (i = j)) as [->|Hij].
  - rewrite !list_alter_alter_eq. apply list_alter_ext; [|done].
    intros c _. simpl. apply IH. congruence.
  - by apply list_alter_alter_ne.
Qed.

Lemma edit_all_app (h : option string → option string) (ps qs : list ref) (doc : Element) :
  edit_all h (ps ++ qs) doc = edit_all h qs (edit_all h ps doc).
Proof. apply fold_left_app. Qed.

Lemma edit_all_comm_one (h g : option string → option string) (p : ref) (qs : list ref)
    (doc : Element) :
  p ∉ qs →
  update (text_edit h) p (edit_all g qs doc) = edit_all g qs (update (text_edit h) p doc).
Proof.
  revert doc. induction qs as [|q qs IH]; intros doc Hp; [done|].
  apply not_elem_of_cons in Hp as [Hpq Hp]. simpl.
  rewrite IH by done. unfold edit_all. simpl. f_equal.
  by apply update_text_edit_comm.
Qed.

(** Two passes over disjoint sets of elements can be swapped. *)
Lemma edit_all_comm (h g : option string → option string) (ps qs : list ref) (doc : Element) :
  (∀ p, p ∈ ps → p ∉ qs) →
  edit_all h ps (edit_all g qs doc) = edit_all g qs (edit_all h ps doc).
Proof.
  revert doc. induction ps as [|p ps IH]; intros doc Hdisj; [done|].
  simpl. rewrite <-IH by (intros; apply Hdisj; by right).
  f_equal. apply edit_all_comm_one. apply Hdisj. by left.
Qed.

(** A pass that overwrites the text whatever it was absorbs an earlier
    pass over elements it covers. *)
Lemma edit_all_absorb_one (x : option string) (g : option string → option string)
    (ps : list ref) (q : ref) (doc : Element) :
  q ∈ ps →
  edit_all (λ _, x) ps (update (text_edit g) q doc) = edit_all (λ _, x) ps doc.
Proof.
  revert doc. induction ps as [|p ps IH]; intros doc Hq; [by apply elem_of_nil in Hq|].
  simpl. destruct (decide (p = q)) as [->|Hpq].
  - by rewrite update_update_eq.
  - apply elem_of_cons in Hq as [->|Hq]; [done|].
    rewrite update_text_edit_comm by done. by apply IH.
Qed.

Lemma edit_all_absorb (x : option string) (g : option string → option string)
    (ps qs : list ref) (doc : Element) :
  qs ⊆ ps →
  edit_all (λ _, x) ps (edit_all g qs doc) = edit_all (λ _, x) ps doc.
Proof.
  revert doc. induction qs as [|q qs IH]; intros doc Hsub; [done|].
  simpl. rewrite IH by (intros ??; apply Hsub; by right).
  apply edit_all_absorb_one, Hsub. by left.
Qed.

(** ** The skeleton: what the selectors and the thumbnail test read *)

Lemma skeleton_unfold (e : Element) :
  skeleton e = Elem (tag e) (attrib e) None (tail e) (skeleton <$> children e).
Proof. by destruct e. Qed.

Lemma skeleton_text_edit (h : option string → option string) (e : Element) :
  skeleton (text_edit h e) = skeleton e.
Proof. by destruct e. Qed.

Lemma skeleton_update (h : option string → option string) (p : ref) (e : Element) :
  skeleton (update (text_edit h) p e) = skeleton e.
Proof.
  revert e. induction p as [|i p IH]; intros e; cbn [update]; [apply skeleton_text_edit|].
  rewrite !skeleton_unfold. simpl. f_equal.
  generalize (children e). intros cs. revert i.
  induction cs as [|c cs IHcs]; intros [|i]; simpl; [done..| |].
  - by rewrite IH.
  - f_equal. apply IHcs.
Qed.

Lemma skeleton_edit_all (h : option string → option string) (ps : list ref) (e : Element) :
  skeleton (edit_all h ps e) = skeleton e.
Proof.
  revert e. induction ps as [|p ps IH]; intros e; simpl; [done|].
  by rewrite IH, skeleton_update.
Qed.

Lemma get_skeleton (p : ref) (e : Element) : get p (skeleton e) = skeleton <$> get p e.
Proof.
  revert e. induction p as [|i p IH]; intros e; simpl; [done|].
  rewrite skeleton_unfold. simpl. rewrite list_lookup_fmap.
  destruct (children e !! i) as [c|]; simpl; [apply IH|done].
Qed.

Lemma tag_skeleton (e : Element) : tag (skeleton e) = tag e.
Proof. by destruct e. Qed.

Lemma tag_at_skeleton (e : Element) (p : ref) : tag_at (skeleton e) p = tag_at e p.
Proof.
  unfold tag_at. rewrite get_skeleton. destruct (get p e); simpl; [|done].
  by rewrite tag_skeleton.
Qed.

Lemma iter_skeleton (e : Element) : iter (skeleton e) = iter e.
Proof.
  induction e as [t a x tl cs IH] using Element_forall_ind. simpl. f_equal.
  generalize 0. induction IH as [|c cs Hc _ IHcs]; intros k; simpl; [done|].
  by rewrite Hc, IHcs.
Qed.

Lemma indices_with_tag_skeleton (t : string) (k : nat) (cs : list Element) :
  indices_with_tag_from t k (skeleton <$> cs) = indices_with_tag_from t k cs.
Proof.
  revert k. induction cs as [|c cs IH]; intros k; simpl; [done|].
  by rewrite tag_skeleton, IH.
Qed.

Lemma select_skeleton (doc : Element) (s : step) (result : list ref) :
  select (skeleton doc) s result = select doc s result.
Proof.
  destruct s as [|t|t]; simpl; [done|..].
  - apply list_bind_ext; [|done]. intros p.
    rewrite get_skeleton. destruct (get p doc) as [e|]; simpl; [|done].
    rewrite iter_skeleton. apply list_bind_ext; [|done]. intros rel.
    by rewrite tag_at_skeleton.
  - apply list_bind_ext; [|done]. intros p.
    rewrite get_skeleton. destruct (get p doc) as [e|]; simpl; [|done].
    rewrite skeleton_unfold. simpl. unfold indices_with_tag.
    by rewrite indices_with_tag_skeleton.
Qed.

Lemma findall_skeleton (path : list step) (doc : Element) :
  findall path (skeleton doc) = findall path doc.
Proof.
  unfold findall. generalize ([[]] : list ref). intros result. revert result.
  induction path as [|s path IH]; intros result; simpl; [done|].
  by rewrite select_skeleton, IH.
Qed.

Lemma holds_thumbnail_skeleton (c : Element) :
  holds_thumbnail (skeleton c) = holds_thumbnail c.
Proof.
  unfold holds_thumbnail. rewrite tag_skeleton, iter_skeleton. f_equal.
  induction (iter c) as [|rel rels IH]; simpl; [done|].
  by rewrite tag_at_skeleton, IH.
Qed.

(** Two documents with the same skeleton select the same elements. *)
Lemma findall_same_skeleton (path : list step) (d1 d2 : Element) :
  skeleton d1 = skeleton d2 → findall path d1 = findall path d2.
Proof. intros H. by rewrite <-(findall_skeleton path d1), H, findall_skeleton. Qed.

Lemma holds_thumbnail_same_skeleton (c1 c2 : Element) :
  skeleton c1 = skeleton c2 → holds_thumbnail c1 = holds_thumbnail c2.
Proof. intros H. by rewrite <-(holds_thumbnail_skeleton c1), H, holds_thumbnail_skeleton. Qed.

(** ** The edit loops, child by child *)

Lemma list_fmap_of_bind {A B C} (g : B → C) (f : A → list B) (l : list A) :
  g <$> (l ≫= f) = l ≫= (λ x, g <$> f x).
Proof.
  induction l as [|x l IH]; [done|]. by rewrite !bind_cons, fmap_app, IH.
Qed.

Lemma edit_all_cons (h : option string → option string) (p : ref) (ps : list ref)
    (doc : Element) :
  edit_all h (p :: ps) doc = edit_all h ps (update (text_edit h) p doc).
Proof. done. Qed.

Lemma edit_all_below (h : option string → option string) (k : nat) (l : list ref)
    (e : Element) :
  edit_all h (cons k <$> l) e
  = set_children (alter (edit_all h l) k (children e)) e.
Proof.
  revert e. induction l as [|q l IH]; intros e.
  - simpl. rewrite list_alter_id by done. by rewrite set_children_same.
  - rewrite fmap_cons, !edit_all_cons, IH. cbn [update]. destruct e as [t a x tl cs]. unfold set_children. simpl.
    f_equal. rewrite list_alter_alter_eq. by apply list_alter_ext.
Qed.

Lemma edit_all_iter_children (h : option string → option string) (L : Element → list ref)
    (t : string) (a : list (string * string)) (x tl : option string)
    (pre cs : list Element) :
  edit_all h (iter_children L (length pre) cs) (Elem t a x tl (pre ++ cs))
  = Elem t a x tl (pre ++ ((λ c, edit_all h (L c) c) <$> cs)).
Proof.
  revert pre. induction cs as [|c cs IH]; intros pre; [done|].
  rewrite iter_children_cons, edit_all_app, edit_all_below, fmap_cons.
  unfold set_children. cbn [tag attrib text tail children].
  rewrite alter_app_r_alt by done. rewrite Nat.sub_diag. cbn [alter list_alter].
  rewrite !(cons_middle _ pre), !app_assoc.
  replace (S (length pre)) with (length (pre ++ [edit_all h (L c) c]))
    by (rewrite length_app; simpl; lia).
  apply IH.
Qed.

Lemma lookup_middle_length {A} (pre cs : list A) (c : A) :
  (pre ++ c :: cs) !! length pre = Some c.
Proof. by rewrite list_lookup_middle. Qed.

Lemma select_descendant_children (t : string) (root : Element) (pre cs : list Element) :
  children root = pre ++ cs →
  (rel ← iter_children iter (length pre) cs;
   if bool_decide (rel ≠ []) && bool_decide (tag_at root rel = Some t)
   then [[] ++ rel] else [])
  = iter_children (descend t) (length pre) cs.
Proof.
  revert pre. induction cs as [|c cs IH]; intros pre Hroot; [done|].
  rewrite !iter_children_cons, bind_app. f_equal.
  - unfold descend. rewrite list_fmap_bind, list_fmap_of_bind.
    apply list_bind_ext; [|done]. intros rel. simpl.
    unfold tag_at. simpl. rewrite Hroot, lookup_middle_length. simpl.
    by case_bool_decide.
  - replace (S (length pre)) with (length (pre ++ [c]))
      by (rewrite length_app; simpl; lia).
    apply IH. by rewrite Hroot, <-app_assoc.
Qed.

Lemma select_descendant_root (t : string) (root : Element) :
  select root (Descendant t) [[]] = iter_children (descend t) 0 (children root).
Proof.
  cbn [select]. rewrite bind_singleton. cbn [get]. rewrite iter_unfold, bind_cons.
  rewrite bool_decide_eq_false_2 by (by intros []). simpl.
  by apply (select_descendant_children t root []).
Qed.

Lemma select_child_children (t : string) (L : Element → list ref) (root : Element)
    (pre cs : list Element) :
  children root = pre ++ cs →
  select root (Child t) (iter_children L (length pre) cs)
  = iter_children (λ c, select c (Child t) (L c)) (length pre) cs.
Proof.
  revert pre. induction cs as [|c cs IH]; intros pre Hroot; [done|].
  rewrite !iter_children_cons. cbn [select]. rewrite bind_app. f_equal.
  - rewrite list_fmap_bind, list_fmap_of_bind.
    apply list_bind_ext; [|done]. intros q. simpl.
    rewrite Hroot, lookup_middle_length. simpl.
    destruct (get q c) as [e|]; [|done].
    rewrite <-list_fmap_compose. by apply list_fmap_ext.
  - replace (S (length pre)) with (length (pre ++ [c]))
      by (rewrite length_app; simpl; lia).
    apply (IH (pre ++ [c])). by rewrite Hroot, <-app_assoc.
Qed.

Lemma findall_self_descendant (t : string) (rest : list step) (root : Element) :
  findall (Self :: Descendant t :: rest) root
  = fold_left (λ result s, select root s result) rest (select root (Descendant t) [[]]).
Proof. done. Qed.

(** What a path [.//t/t1/../tn] selects in the document is what it
    selects below each child of the root, child after child. *)
Lemma findall_children (t : string) (ts : list string) (root : Element) :
  findall (Self :: Descendant t :: (Child <$> ts)) root
  = iter_children (sub_findall t ts) 0 (children root).
Proof.
  rewrite findall_self_descendant, select_descendant_root. unfold sub_findall.
  generalize (descend t). intros L. revert L.
  induction ts as [|t1 ts IH]; intros L; [done|].
  rewrite fmap_cons. cbn [fold_left].
  pose proof (select_child_children t1 L root [] (children root) eq_refl) as H.
  cbn [length] in H. rewrite H. apply IH.
Qed.

Lemma edit_texts_children (f : string → string) (t : string) (ts : list string)
    (root : Element) :
  edit_texts f (Self :: Descendant t :: (Child <$> ts)) root
  = set_children
      ((λ c, edit_all (edit_opt f) (sub_findall t ts c) c) <$> children root) root.
Proof.
  rewrite edit_texts_edit_all, findall_children. destruct root as [tg a x tl cs].
  apply (edit_all_iter_children _ _ tg a x tl [] cs).
Qed.

(** ** TreeEditor: get-or-create *)

Lemma indices_with_tag_from_elem (t : string) (k : nat) (cs : list Element) (i : nat) :
  i ∈ indices_with_tag_from t k cs ↔ ∃ c, k ≤ i ∧ cs !! (i - k) = Some c ∧ tag c = t.
Proof.
  revert k. induction cs as [|c cs IH]; intros k; simpl.
  - split; [by intros ?%elem_of_nil|]. by intros (? & _ & ? & _).
  - assert (i ∈ indices_with_tag_from t (S k) cs
            ↔ ∃ c', S k ≤ i ∧ (c :: cs) !! (i - k) = Some c' ∧ tag c' = t) as Htl.
    { rewrite IH. split; intros (c' & ? & Hi & ?); exists c'; split_and!; try done.
      - replace (i - k) with (S (i - S k)) by lia. done.
      - replace (i - k) with (S (i - S k)) in Hi by lia. done. }
    case_bool_decide as Hc.
    + rewrite elem_of_cons, Htl. split.
      * intros [->|(c' & ? & ? & ?)].
        -- exists c. rewrite Nat.sub_diag. done.
        -- exists c'. split_and!; [lia|done..].
      * intros (c' & Hle & Hi & Ht). destruct (decide (i = k)) as [->|]; [by left|].
        right. exists c'. split_and!; [lia|done..].
    + rewrite Htl. split.
      * intros (c' & ? & ? & ?). exists c'. split_and!; [lia|done..].
      * intros (c' & Hle & Hi & Ht). destruct (decide (i = k)) as [->|].
        -- rewrite Nat.sub_diag in Hi. simplify_eq/=.
        -- exists c'. split_and!; [lia|done..].
Qed.

Lemma head_indices_from (t : string) (k : nat) (cs : list Element) :
  match head (indices_with_tag_from t k cs) with
  | Some i =>
      ∃ pre c post, cs = pre ++ c :: post ∧ i = k + length pre ∧ tag c = t
                    ∧ Forall (λ c', tag c' ≠ t) pre
  | None => Forall (λ c', tag c' ≠ t) cs
  end.
Proof.
  revert k. induction cs as [|c cs IH]; intros k; simpl; [done|].
  case_bool_decide as Hc; simpl.
  - exists [], c, cs. split_and!; [done|simpl; lia|done|done].
  - specialize (IH (S k)). destruct (head (indices_with_tag_from t (S k) cs)) as [i|].
    + destruct IH as (pre & c' & post & -> & -> & ? & ?).
      exists (c :: pre), c', post. split_and!; [done|simpl; lia|done|].
      by constructor.
    + by constructor.
Qed.

Lemma head_indices_Some (t : string) (cs : list Element) (i : nat) :
  head (indices_with_tag t cs) = Some i →
  ∃ pre c post, cs = pre ++ c :: post ∧ i = length pre ∧ tag c = t
                ∧ Forall (λ c', tag c' ≠ t) pre.
Proof.
  intros Hi. pose proof (head_indices_from t 0 cs) as H.
  unfold indices_with_tag in Hi. rewrite Hi in H.
  destruct H as (pre & c & post & ? & ? & ? & ?). by exists pre, c, post.
Qed.

Lemma head_indices_None (t : string) (cs : list Element) :
  head (indices_with_tag t cs) = None → Forall (λ c', tag c' ≠ t) cs.
Proof.
  intros Hi. pose proof (head_indices_from t 0 cs) as H.
  unfold indices_with_tag in Hi. by rewrite Hi in H.
Qed.

Lemma head_indices_lookup (t : string) (cs : list Element) (i : nat) :
  head (indices_with_tag t cs) = Some i → ∃ c, cs !! i = Some c ∧ tag c = t.
Proof.
  intros (pre & c & post & -> & -> & ? & _)%head_indices_Some.
  exists c. by rewrite list_lookup_middle.
Qed.

(** The positions depend on the tags only. *)
Lemma indices_with_tag_from_tags (t : string) (k : nat) (cs cs' : list Element) :
  tag <$> cs = tag <$> cs' →
  indices_with_tag_from t k cs = indices_with_tag_from t k cs'.
Proof.
  revert k cs'. induction cs as [|c cs IH]; intros k [|c' cs'] Htags; simplify_eq/=; [done|].
  rewrite (IH (S k) cs') by done.
  by match goal with H : tag c = tag c' |- _ => rewrite H end.
Qed.

Lemma tags_alter (f : Element → Element) (i : nat) (cs : list Element) :
  (∀ c, cs !! i = Some c → tag (f c) = tag c) →
  tag <$> alter f i cs = tag <$> cs.
Proof.
  revert i. induction cs as [|c cs IH]; intros [|i] Hf; simpl; [done..| |].
  - by rewrite Hf.
  - f_equal. apply IH. intros c' ?. by apply Hf.
Qed.

Lemma head_indices_alter (t : string) (f : Element → Element) (i : nat) (cs : list Element) :
  (∀ c, cs !! i = Some c → tag (f c) = tag c) →
  head (indices_with_tag t (alter f i cs)) = head (indices_with_tag t cs).
Proof.
  intros Hf. unfold indices_with_tag.
  by rewrite (indices_with_tag_from_tags t 0 (alter f i cs) cs) by by apply tags_alter.
Qed.

Lemma indices_with_tag_from_app (t : string) (k : nat) (cs1 cs2 : list Element) :
  indices_with_tag_from t k (cs1 ++ cs2)
  = indices_with_tag_from t k cs1 ++ indices_with_tag_from t (k + length cs1) cs2.
Proof.
  revert k. induction cs1 as [|c cs1 IH]; intros k; simpl.
  - by rewrite Nat.add_0_r.
  - rewrite IH. replace (S k + length cs1) with (k + S (length cs1)) by lia.
    by case_bool_decide.
Qed.

Lemma head_indices_snoc (t : string) (cs : list Element) (c : Element) :
  head (indices_with_tag t (cs ++ [c]))
  = match head (indices_with_tag t cs) with
    | Some i => Some i
    | None => if bool_decide (tag c = t) then Some (length cs) else None
    end.
Proof.
  unfold indices_with_tag. rewrite indices_with_tag_from_app. simpl.
  destruct (indices_with_tag_from t 0 cs); simpl; [|done].
  by case_bool_decide.
Qed.

Lemma update_nil_ext (f : Element → Element) (i : nat) (cs : list Element) :
  alter (update f []) i cs = alter f i cs.
Proof. by apply list_alter_ext. Qed.

Lemma update_app (f : Element → Element) (p q : ref) (e : Element) :
  update f (p ++ q) e = update (update f q) p e.
Proof.
  revert e. induction p as [|i p IH]; intros e; simpl; [done|].
  f_equal. apply list_alter_ext; [|done]. intros; apply IH.
Qed.

Lemma update_ext_get (f g : Element → Element) (p : ref) (doc e : Element) :
  get p doc = Some e → f e = g e → update f p doc = update g p doc.
Proof.
  revert doc. induction p as [|i p IH]; intros doc Hget Hfg; simpl in *.
  - by simplify_eq.
  - destruct (children doc !! i) as [c|] eqn:Hi; [|done]. simpl in Hget.
    f_equal. apply list_alter_ext; [|done]. intros c' ?. simplify_eq. by apply IH.
Qed.

Lemma update_id_get (f : Element → Element) (p : ref) (doc e : Element) :
  get p doc = Some e → f e = e → update f p doc = doc.
Proof.
  revert doc. induction p as [|i p IH]; intros doc Hget Hf; simpl in *.
  - by simplify_eq.
  - destruct (children doc !! i) as [c|] eqn:Hi; [|done]. simpl in Hget.
    assert (alter (update f p) i (children doc) = children doc) as ->;
      [|apply set_children_same].
    transitivity (alter id i (children doc)); [|by apply list_alter_id].
    apply list_alter_ext; [|done]. intros c' ?. simplify_eq. by apply IH.
Qed.

Lemma get_update_eq (f : Element → Element) (p : ref) (doc : Element) :
  get p (update f p doc) = f <$> get p doc.
Proof.
  revert doc. induction p as [|i p IH]; intros doc; simpl; [done|].
  rewrite list_lookup_alter_eq. destruct (children doc !! i) as [c|]; simpl; [apply IH|done].
Qed.

Lemma ensure_child_index (t : string) (e : Element) :
  ∃ c, children (ensure_child t e) !! child_index t (ensure_child t e) = Some c
       ∧ head (indices_with_tag t (children (ensure_child t e)))
         = Some (child_index t (ensure_child t e)).
Proof.
  unfold ensure_child, child_index.
  destruct (head (indices_with_tag t (children e))) as [i|] eqn:Hhead.
  - rewrite Hhead. simpl. apply head_indices_lookup in Hhead as (c & ? & _). eauto.
  - simpl. rewrite head_indices_snoc, Hhead. simpl.
    rewrite bool_decide_eq_true_2 by done. simpl.
    exists (new_element t). split; [|done]. by rewrite list_lookup_middle.
Qed.

(** A get-or-create below a reference: the element behind the
    reference gets the child if it has none, and the new variable
    refers to the first child with the tag. *)
Lemma find_or_create_spec (t : string) (p : ref) (doc e : Element) :
  get p doc = Some e →
  find_or_create t p doc
  = (update (ensure_child t) p doc, p ++ [child_index t (ensure_child t e)]).
Proof.
  intros Hget. unfold find_or_create, find, SubElement. rewrite Hget. simpl.
  unfold ensure_child, child_index.
  destruct (head (indices_with_tag t (children e))) as [i|] eqn:Hhead; simpl.
  - rewrite Hhead. simpl. f_equal. symmetry. apply (update_id_get _ _ _ e); [done|].
    by rewrite Hhead.
  - rewrite head_indices_snoc, Hhead. simpl.
    rewrite bool_decide_eq_true_2 by done. simpl. f_equal.
    apply (update_ext_get _ _ _ _ e); [done|]. by rewrite Hhead.
Qed.

Lemma with_child_ensure (t : string) (f : Element → Element) (e : Element) :
  with_child t f e = update f [child_index t (ensure_child t e)] (ensure_child t e).
Proof.
  unfold with_child, ensure_child, child_index.
  destruct (head (indices_with_tag t (children e))) as [i|] eqn:Hhead; simpl.
  - rewrite Hhead. done.
  - rewrite head_indices_snoc, Hhead. simpl.
    rewrite bool_decide_eq_true_2 by done. simpl.
    unfold set_children. simpl. f_equal.
    rewrite alter_app_r_alt by done. by rewrite Nat.sub_diag.
Qed.

(** The chain of get-or-creates with references does to the element
    behind the first reference what the chain on the element does. *)
Lemma chain_with_chain (ts : list string) (f : Element → Element) (p : ref)
    (doc e : Element) :
  get p doc = Some e → chain ts f p doc = update (with_chain ts f) p doc.
Proof.
  revert p doc e. induction ts as [|t ts IH]; intros p doc e Hget; simpl; [done|].
  rewrite (find_or_create_spec t p doc e Hget).
  destruct (ensure_child_index t e) as (c & Hc & _).
  rewrite (IH _ _ c).
  - rewrite update_app, update_update_eq.
    apply (update_ext_get _ _ _ _ e); [done|]. simpl. by rewrite with_child_ensure.
  - rewrite get_app, get_update_eq, Hget. simpl. by rewrite Hc.
Qed.

Lemma upsertDistributionInfo_chain (restUrl formatName : string) (root : Element) :
  upsertDistributionInfo restUrl formatName root
  = let '(root1, dist_info) := find_or_create "distInfo" [] root in
    chain format_tags (set_text (Some formatName)) dist_info
      (chain linkage_tags (set_text (Some restUrl)) dist_info root1).
Proof.
  unfold upsertDistributionInfo, format_tags, linkage_tags. simpl.
  destruct (find_or_create "distInfo" [] root) as [root1 dist_info].
  destruct (find_or_create "distTranOps" dist_info root1) as [root2 dist_tran_ops].
  destruct (find_or_create "onLineSrc" dist_tran_ops root2) as [root3 online_src].
  destruct (find_or_create "linkage" online_src root3) as [root4 linkage].
  destruct (find_or_create "distFormat" dist_info _) as [root6 dist_format].
  by destruct (find_or_create "formatName" dist_format root6) as [root7 format_name].
Qed.

(** The upsert, as a function on the root: get-or-create [distInfo],
    below it the linkage chain, then the format chain. *)
Lemma upsertDistributionInfo_with_child (restUrl formatName : string) (root : Element) :
  upsertDistributionInfo restUrl formatName root
  = with_child "distInfo"
      (with_chain format_tags (set_text (Some formatName))
       ∘ with_chain linkage_tags (set_text (Some restUrl))) root.
Proof.
  rewrite upsertDistributionInfo_chain.
  rewrite (find_or_create_spec "distInfo" [] root root) by done.
  destruct (ensure_child_index "distInfo" root) as (c & Hc & _).
  set (i := child_index "distInfo" (ensure_child "distInfo" root)) in *.
  cbn [update app].
  rewrite (chain_with_chain linkage_tags _ [i] _ c) by (simpl; by rewrite Hc).
  rewrite (chain_with_chain format_tags _ [i] _ (with_chain linkage_tags (set_text (Some restUrl)) c)).
  - by rewrite update_update_eq, with_child_ensure.
  - rewrite get_update_eq. simpl. by rewrite Hc.
Qed.

Lemma tag_with_child (t : string) (f : Element → Element) (e : Element) :
  tag (with_child t f e) = tag e.
Proof. unfold with_child. by destruct (head _). Qed.

Lemma tag_with_chain (ts : list string) (f : Element → Element) (e : Element) :
  (∀ c, tag (f c) = tag c) → tag (with_chain ts f e) = tag e.
Proof. intros Hf. destruct ts; simpl; [done|]. apply tag_with_child. Qed.

Lemma with_child_settled (t : string) (f : Element → Element) (e : Element) :
  settled t f e → with_child t f e = e.
Proof.
  intros (i & c & Hhead & Hi & Hc). unfold with_child. rewrite Hhead.
  assert (alter f i (children e) = children e) as ->; [|apply set_children_same].
  transitivity (alter id i (children e)); [|by apply list_alter_id].
  apply list_alter_ext; [|done]. intros c' ?. by simplify_eq.
Qed.

Lemma settled_with_child (t : string) (f : Element → Element) (e : Element) :
  (∀ c, tag (f c) = tag c) → (∀ c, f (f c) = f c) →
  settled t f (with_child t f e).
Proof.
  intros Htag Hidem. unfold with_child, settled.
  destruct (head (indices_with_tag t (children e))) as [i|] eqn:Hhead; simpl.
  - destruct (head_indices_lookup _ _ _ Hhead) as (c & Hi & _).
    exists i, (f c). rewrite head_indices_alter by done.
    by rewrite list_lookup_alter_eq, Hi.
  - exists (length (children e)), (f (new_element t)).
    rewrite head_indices_snoc, Hhead, Htag. simpl.
    rewrite bool_decide_eq_true_2 by done. by rewrite list_lookup_middle.
Qed.

Lemma settled_other (t t' : string) (f g : Element → Element) (e : Element) :
  t ≠ t' → (∀ c, tag (g c) = tag c) →
  settled t f e → settled t f (with_child t' g e).
Proof.
  intros Hne Htag (i & c & Hhead & Hi & Hc). unfold with_child, settled.
  destruct (head (indices_with_tag t' (children e))) as [i'|] eqn:Hhead'; simpl.
  - exists i, c. rewrite head_indices_alter by done. split_and!; [done| |done].
    rewrite list_lookup_alter_ne; [done|]. intros ->.
    destruct (head_indices_lookup _ _ _ Hhead) as (c1 & ? & ?).
    destruct (head_indices_lookup _ _ _ Hhead') as (c2 & ? & ?). congruence.
  - exists i, c. rewrite head_indices_snoc, Hhead. split_and!; [done| |done].
    by apply lookup_app_l_Some.
Qed.

Lemma with_chain_idem (ts : list string) (f : Element → Element) :
  (∀ c, tag (f c) = tag c) → (∀ c, f (f c) = f c) →
  ∀ e, with_chain ts f (with_chain ts f e) = with_chain ts f e.
Proof.
  intros Htag Hidem. induction ts as [|t ts IH]; intros e; simpl; [done|].
  apply with_child_settled, settled_with_child; [|done].
  intros c. by apply tag_with_chain.
Qed.

(** Below [distInfo]: after the two chains, both are settled. *)
Lemma both_chains_idem (restUrl formatName : string) (c : Element) :
  let F := with_chain format_tags (set_text (Some formatName))
           ∘ with_chain linkage_tags (set_text (Some restUrl)) in
  F (F c) = F c.
Proof.
  simpl. unfold format_tags, linkage_tags. cbn [with_chain].
  set (G1 := with_child "onLineSrc" _). set (G2 := with_child "formatName" _).
  assert (∀ c, tag (G1 c) = tag c) as Htag1 by (intros; apply tag_with_child).
  assert (∀ c, tag (G2 c) = tag c) as Htag2 by (intros; apply tag_with_child).
  assert (∀ c, G1 (G1 c) = G1 c) as Hidem1.
  { intros c'. by apply (with_chain_idem ["onLineSrc"; "linkage"]). }
  assert (∀ c, G2 (G2 c) = G2 c) as Hidem2.
  { intros c'. by apply (with_chain_idem ["formatName"]). }
  rewrite (with_child_settled "distTranOps" G1).
  - by apply with_child_settled, settled_with_child.
  - apply settled_other; [done..|]. by apply settled_with_child.
Qed.

Lemma upsertDistributionInfo_idem (restUrl formatName : string) (root : Element) :
  upsertDistributionInfo restUrl formatName (upsertDistributionInfo restUrl formatName root)
  = upsertDistributionInfo restUrl formatName root.
Proof.
  rewrite !upsertDistributionInfo_with_child.
  apply with_child_settled, settled_with_child.
  - intros c. unfold compose. rewrite tag_with_chain by done. by apply tag_with_chain.
  - intros c. apply both_chains_idem.
Qed.

(** *** Where the written texts are *)

Lemma follow_with_chain (ts : list string) (v : option string) (e : Element) :
  text <$> follow ts (with_chain ts (set_text v) e) = Some v.
Proof.
  revert e. induction ts as [|t ts IH]; intros e; simpl; [done|].
  set (W := with_chain ts (set_text v)).
  assert (∀ c, tag (W c) = tag c) as Htag by (intros; by apply tag_with_chain).
  unfold with_child.
  destruct (head (indices_with_tag t (children e))) as [i|] eqn:Hhead; simpl.
  - destruct (head_indices_lookup _ _ _ Hhead) as (c & Hi & _).
    rewrite head_indices_alter by done. rewrite Hhead. simpl.
    rewrite list_lookup_alter_eq, Hi. simpl. apply IH.
  - rewrite head_indices_snoc, Hhead, Htag. simpl.
    rewrite bool_decide_eq_true_2 by done. simpl.
    rewrite list_lookup_middle by done. simpl. apply IH.
Qed.

Lemma follow_other (t t' : string) (ts : list string) (g : Element → Element) (e : Element) :
  t ≠ t' → (∀ c, tag (g c) = tag c) →
  is_Some (head (indices_with_tag t (children e))) →
  follow (t :: ts) (with_child t' g e) = follow (t :: ts) e.
Proof.
  intros Hne Htag [i Hhead]. simpl. unfold with_child.
  destruct (head_indices_lookup _ _ _ Hhead) as (c1 & Hi & Ht).
  destruct (head (indices_with_tag t' (children e))) as [i'|] eqn:Hhead'; simpl.
  - rewrite head_indices_alter by done. rewrite Hhead. simpl.
    rewrite list_lookup_alter_ne; [done|]. intros ->.
    destruct (head_indices_lookup _ _ _ Hhead') as (c2 & ? & ?). congruence.
  - rewrite head_indices_snoc, Hhead. simpl.
    by rewrite (lookup_app_l_Some _ _ _ _ Hi), Hi.
Qed.

Lemma follow_distInfo (restUrl formatName : string) (ts : list string) (root : Element) :
  ∃ c, follow ("distInfo" :: ts) (upsertDistributionInfo restUrl formatName root)
       = follow ts (with_chain format_tags (set_text (Some formatName))
                      (with_chain linkage_tags (set_text (Some restUrl)) c)).
Proof.
  rewrite upsertDistributionInfo_with_child.
  set (F := _ ∘ _).
  assert (∀ c, tag (F c) = tag c) as Htag.
  { intros c. unfold F, compose. rewrite tag_with_chain by done. by apply tag_with_chain. }
  cbn [follow]. unfold with_child.
  destruct (head (indices_with_tag "distInfo" (children root))) as [i|] eqn:Hhead; simpl.
  - destruct (head_indices_lookup _ _ _ Hhead) as (c & Hi & _). exists c.
    rewrite head_indices_alter by done. rewrite Hhead. simpl.
    by rewrite list_lookup_alter_eq, Hi.
  - exists (new_element "distInfo").
    rewrite head_indices_snoc, Hhead, Htag. simpl.
    by rewrite list_lookup_middle.
Qed.

Lemma head_with_child (t : string) (f : Element → Element) (e : Element) :
  (∀ c, tag (f c) = tag c) →
  is_Some (head (indices_with_tag t (children (with_child t f e)))).
Proof.
  intros Htag. unfold with_child.
  destruct (head (indices_with_tag t (children e))) as [i|] eqn:Hhead; simpl.
  - rewrite head_indices_alter by done. by eexists.
  - rewrite head_indices_snoc, Hhead, Htag. simpl.
    rewrite bool_decide_eq_true_2 by done. by eexists.
Qed.

Lemma upsertDistributionInfo_linkage (restUrl formatName : string) (root : Element) :
  text <$> follow ("distInfo" :: linkage_tags)
             (upsertDistributionInfo restUrl formatName root)
  = Some (Some restUrl).
Proof.
  destruct (follow_distInfo restUrl formatName linkage_tags root) as [c ->].
  unfold format_tags, linkage_tags. cbn [with_chain].
  rewrite follow_other; [| done | intros; apply tag_with_child |].
  - apply (follow_with_chain ["distTranOps"; "onLineSrc"; "linkage"]).
  - apply head_with_child. intros; apply tag_with_child.
Qed.

Lemma upsertDistributionInfo_formatName (restUrl formatName : string) (root : Element) :
  text <$> follow ("distInfo" :: format_tags)
             (upsertDistributionInfo restUrl formatName root)
  = Some (Some formatName).
Proof.
  destruct (follow_distInfo restUrl formatName format_tags root) as [c ->].
  apply follow_with_chain.
Qed.

(** With no [distInfo] child, the upsert appends the whole block. *)
Lemma upsertDistributionInfo_fresh (restUrl formatName : string) (root : Element) :
  head (indices_with_tag "distInfo" (children root)) = None →
  upsertDistributionInfo restUrl formatName root
  = set_children (children root ++ [fresh_distInfo restUrl formatName]) root.
Proof.
  intros Hhead. rewrite upsertDistributionInfo_with_child. unfold with_child.
  by rewrite Hhead.
Qed.

(** *** What the upsert keeps and what it creates *)

Lemma follow_follow_ref (ts : list string) (e : Element) :
  follow ts e = follow_ref ts e ≫= λ p, get p e.
Proof.
  revert e. induction ts as [|t ts IH]; intros e; cbn [follow follow_ref]; [done|].
  destruct (head (indices_with_tag t (children e))) as [i|]; [|done]. cbn.
  destruct (children e !! i) as [c|] eqn:Hc; [|done]. cbn.
  rewrite IH. destruct (follow_ref ts c) as [r|]; [|done]. cbn. by rewrite Hc.
Qed.

Lemma follow_ref_cons (t : string) (ts : list string) (e c : Element) (j : nat) :
  head (indices_with_tag t (children e)) = Some j → children e !! j = Some c →
  follow_ref (t :: ts) e = cons j <$> follow_ref ts c.
Proof.
  intros Hj Hc. cbn [follow_ref]. rewrite Hj. cbn. rewrite Hc. cbn.
  by destruct (follow_ref ts c).
Qed.

Lemma with_child_label (t : string) (f : Element → Element) (e : Element) :
  tag (with_child t f e) = tag e ∧ attrib (with_child t f e) = attrib e
  ∧ text (with_child t f e) = text e ∧ tail (with_child t f e) = tail e.
Proof. unfold with_child. by destruct (head _). Qed.

(** The child that [with_child] works on, and the children it leaves. *)
Lemma with_child_cases (t : string) (f : Element → Element) (e : Element) :
  (∀ c, tag (f c) = tag c) →
  ∃ j c,
    head (indices_with_tag t (children (with_child t f e))) = Some j
    ∧ children (with_child t f e) !! j = Some (f c)
    ∧ (∀ i, i ≠ j → children (with_child t f e) !! i = children e !! i)
    ∧ (∀ t', is_Some (head (indices_with_tag t' (children e))) →
             head (indices_with_tag t' (children (with_child t f e)))
             = head (indices_with_tag t' (children e)))
    ∧ ((head (indices_with_tag t (children e)) = Some j ∧ children e !! j = Some c)
       ∨ (head (indices_with_tag t (children e)) = None ∧ children e !! j = None
          ∧ c = new_element t)).
Proof.
  intros Htag. unfold with_child.
  destruct (head (indices_with_tag t (children e))) as [j|] eqn:Hhead.
  - destruct (head_indices_lookup _ _ _ Hhead) as (c & Hc & _).
    exists j, c. destruct e as [tg a x tl cs]. cbn [set_children children] in *.
    split_and!.
    + by rewrite head_indices_alter.
    + by rewrite list_lookup_alter_eq, Hc.
    + intros i Hi. by rewrite list_lookup_alter_ne.
    + intros t' _. by apply head_indices_alter.
    + by left.
  - exists (length (children e)), (new_element t).
    destruct e as [tg a x tl cs]. cbn [set_children children] in *.
    split_and!.
    + rewrite head_indices_snoc, Hhead, Htag. cbn [new_element tag].
      by rewrite bool_decide_eq_true_2.
    + by rewrite list_lookup_middle.
    + intros i Hi. destruct (decide (i < length cs)) as [Hlt|Hge].
      * by rewrite lookup_app_l.
      * rewrite !lookup_ge_None_2; [done|lia|rewrite length_app; simpl; lia].
    + intros t' [i Hi]. by rewrite head_indices_snoc, Hi.
    + right. split_and!; [done| |done]. by apply lookup_ge_None_2.
Qed.

Lemma kept_weaken (P Q : ref → Prop) (e e' : Element) :
  (∀ p, P p → Q p) → kept P e e' → kept Q e e'.
Proof.
  intros HPQ H p x Hx. destruct (H p x Hx) as (x' & ? & ? & ? & ? & [?|?]).
  - exists x'. split_and!; [done..|by left].
  - exists x'. split_and!; [done..|right; by apply HPQ].
Qed.

Lemma kept_trans (P Q : ref → Prop) (e1 e2 e3 : Element) :
  kept P e1 e2 → kept Q e2 e3 → kept (λ p, P p ∨ Q p) e1 e3.
Proof.
  intros H1 H2 p x Hx.
  destruct (H1 p x Hx) as (x2 & Hx2 & Ht & Ha & Htl & Htx).
  destruct (H2 p x2 Hx2) as (x3 & Hx3 & Ht' & Ha' & Htl' & Htx').
  exists x3. split_and!; [done|congruence..|].
  destruct Htx as [Htx|?]; [|by right; left].
  destruct Htx' as [Htx'|?]; [left; congruence|by right; right].
Qed.

Lemma grown_weaken (P Q : ref → Prop) (e e' : Element) :
  (∀ p, P p → Q p) → grown P e e' → grown Q e e'.
Proof. intros HPQ H p Hp. destruct (H p Hp) as [?|?]; [by left|right; by apply HPQ]. Qed.

Lemma grown_trans (P Q : ref → Prop) (e1 e2 e3 : Element) :
  grown P e1 e2 → grown Q e2 e3 → grown (λ p, P p ∨ Q p) e1 e3.
Proof.
  intros H1 H2 p Hp. destruct (H2 p Hp) as [Hp2|?]; [|by right; right].
  destruct (H1 p Hp2) as [?|?]; [by left|by right; left].
Qed.

Lemma kept_with_child (t : string) (f : Element → Element) (e : Element)
    (Pc : Element → ref → Prop) :
  (∀ c, tag (f c) = tag c) →
  (∀ c, kept (Pc c) c (f c)) →
  kept (λ p, ∃ j c q,
               p = j :: q
               ∧ head (indices_with_tag t (children (with_child t f e))) = Some j
               ∧ children (with_child t f e) !! j = Some (f c)
               ∧ Pc c q)
       e (with_child t f e).
Proof.
  intros Htag Hf [|i q] x Hx.
  - cbn [get] in Hx. simplify_eq. exists (with_child t f x).
    destruct (with_child_label t f x) as (? & ? & ? & ?).
    split_and!; [done..|by left].
  - cbn [get] in Hx. destruct (children e !! i) as [ci|] eqn:Hci; [|done]. cbn in Hx.
    destruct (with_child_cases t f e Htag) as (j & c & Hhead & Hj & Hother & _ & Hcase).
    destruct (decide (i = j)) as [->|Hne].
    + destruct Hcase as [[_ Hc]|(_ & Hc & _)]; [|congruence].
      rewrite Hci in Hc. simplify_eq.
      destruct (Hf c q x Hx) as (x' & Hx' & ? & ? & ? & Htx).
      exists x'. cbn [get]. rewrite Hj. cbn. split_and!; [done..|].
      destruct Htx as [?|?]; [by left|right]. by exists j, c, q.
    + exists x. cbn [get]. rewrite (Hother i Hne), Hci. cbn.
      split_and!; [done..|by left].
Qed.

Lemma get_new_element (t : string) (p : ref) :
  is_Some (get p (new_element t)) → p = [].
Proof. destruct p as [|i q]; [done|]. cbn. by intros [? ?]. Qed.

Lemma grown_with_child (t : string) (f : Element → Element) (e : Element)
    (Pc : Element → ref → Prop) :
  (∀ c, tag (f c) = tag c) →
  (∀ c, grown (Pc c) c (f c)) →
  grown (λ p, ∃ j c q,
                p = j :: q
                ∧ head (indices_with_tag t (children (with_child t f e))) = Some j
                ∧ children (with_child t f e) !! j = Some (f c)
                ∧ (q = [] ∨ Pc c q))
        e (with_child t f e).
Proof.
  intros Htag Hf [|i q] Hp; [by left; eexists|].
  cbn [get] in Hp.
  destruct (children (with_child t f e) !! i) as [c'|] eqn:Hc'; [|by destruct Hp].
  cbn in Hp.
  destruct (with_child_cases t f e Htag) as (j & c & Hhead & Hj & Hother & _ & Hcase).
  destruct (decide (i = j)) as [->|Hne].
  - rewrite Hj in Hc'. simplify_eq.
    destruct (Hf c q Hp) as [Hold|HP].
    + destruct Hcase as [[_ Hc]|(_ & _ & ->)].
      * left. cbn [get]. by rewrite Hc.
      * right. exists j, (new_element t), q. split_and!; [done..|].
        left. by apply (get_new_element t).
    + right. exists j, c, q. split_and!; [done..|by right].
  - left. cbn [get]. rewrite <-(Hother i Hne), Hc'. done.
Qed.

Lemma follow_ref_with_chain_is_Some (ts : list string) (f : Element → Element) (e : Element) :
  (∀ c, tag (f c) = tag c) → is_Some (follow_ref ts (with_chain ts f e)).
Proof.
  intros Htag. revert e. induction ts as [|t ts IH]; intros e; cbn [with_chain]; [by eexists|].
  destruct (with_child_cases t (with_chain ts f) e) as (j & c & Hhead & Hj & _).
  { intros c. by apply tag_with_chain. }
  rewrite (follow_ref_cons _ _ _ _ _ Hhead Hj).
  destruct (IH c) as [r ->]. by eexists.
Qed.

Lemma kept_with_chain (ts : list string) (v : option string) (e : Element) :
  kept (λ p, follow_ref ts (with_chain ts (set_text v) e) = Some p)
       e (with_chain ts (set_text v) e).
Proof.
  revert e. induction ts as [|t ts IH]; intros e; cbn [with_chain].
  - intros [|i q] x Hx.
    + cbn in Hx. simplify_eq. exists (set_text v x). split_and!; [done..|by right].
    + exists x. split_and!; [by destruct e|done..|by left].
  - assert (∀ c, tag (with_chain ts (set_text v) c) = tag c) as Htag
      by (intros c; by apply tag_with_chain).
    eapply kept_weaken; [|apply (kept_with_child t _ e _ Htag IH)].
    intros p (j & c & q & -> & Hhead & Hj & Hq). cbn beta in Hq.
    by rewrite (follow_ref_cons _ _ _ _ _ Hhead Hj), Hq.
Qed.

Lemma grown_with_chain (ts : list string) (v : option string) (e : Element) :
  grown (λ p, ∃ r, follow_ref ts (with_chain ts (set_text v) e) = Some r ∧ p `prefix_of` r)
        e (with_chain ts (set_text v) e).
Proof.
  revert e. induction ts as [|t ts IH]; intros e; cbn [with_chain].
  - intros p Hp. left. by destruct e, p.
  - assert (∀ c, tag (with_chain ts (set_text v) c) = tag c) as Htag
      by (intros c; by apply tag_with_chain).
    eapply grown_weaken; [|apply (grown_with_child t _ e _ Htag IH)].
    intros p (j & c & q & -> & Hhead & Hj & Hq). cbn beta in Hq.
    rewrite (follow_ref_cons _ _ _ _ _ Hhead Hj).
    destruct Hq as [->|(r & -> & Hpre)].
    + destruct (follow_ref_with_chain_is_Some ts (set_text v) c (λ _, eq_refl)) as [r ->].
      exists (j :: r). split; [done|]. apply prefix_cons, prefix_nil.
    + exists (j :: r). split; [done|]. by apply prefix_cons.
Qed.

(** A way that is there is the way the chain takes. *)
Lemma follow_ref_with_chain_reuse (ts' ts : list string) (f : Element → Element)
    (e : Element) (q : ref) :
  (∀ c, tag (f c) = tag c) →
  ts' `prefix_of` ts → follow_ref ts' e = Some q →
  follow_ref ts' (with_chain ts f e) = Some q.
Proof.
  intros Htag. revert ts e q. induction ts' as [|t ts' IH]; intros ts e q Hpre Hq; [done|].
  destruct Hpre as [rest ->]. cbn [app with_chain].
  cbn [follow_ref] in Hq.
  destruct (head (indices_with_tag t (children e))) as [j|] eqn:Hhead; [|done]. cbn in Hq.
  destruct (children e !! j) as [c|] eqn:Hc; [|done]. cbn in Hq.
  destruct (follow_ref ts' c) as [r|] eqn:Hr; [|done]. cbn in Hq. simplify_eq.
  destruct (with_child_cases t (with_chain (ts' ++ rest) f) e) as (j' & c' & Hhead' & Hj' & _ & _ & Hcase).
  { intros c0. by apply tag_with_chain. }
  destruct Hcase as [[Hh Hc']|[Hh _]]; [|congruence].
  rewrite Hhead in Hh. injection Hh as <-. rewrite Hc in Hc'. injection Hc' as <-.
  rewrite (follow_ref_cons _ _ _ _ _ Hhead' Hj').
  rewrite (IH (ts' ++ rest) c r); [done|by eexists|done].
Qed.

(** A way through a child with another tag is left alone. *)
Lemma follow_ref_other (t t' : string) (ts : list string) (g : Element → Element)
    (e : Element) (q : ref) :
  t ≠ t' → (∀ c, tag (g c) = tag c) →
  follow_ref (t :: ts) e = Some q →
  follow_ref (t :: ts) (with_child t' g e) = Some q.
Proof.
  intros Hne Htag Hq. cbn [follow_ref] in Hq.
  destruct (head (indices_with_tag t (children e))) as [j|] eqn:Hhead; [|done]. cbn in Hq.
  destruct (children e !! j) as [c|] eqn:Hc; [|done]. cbn in Hq.
  destruct (with_child_cases t' g e Htag) as (j' & c' & _ & _ & Hother & Hheads & Hcase).
  assert (j ≠ j') as Hjj'.
  { intros ->. destruct Hcase as [[Hh' Hc']|(_ & Hc' & _)]; [|congruence].
    destruct (head_indices_lookup _ _ _ Hhead) as (c1 & ? & ?).
    destruct (head_indices_lookup _ _ _ Hh') as (c2 & ? & ?). congruence. }
  cbn [follow_ref]. rewrite (Hheads t) by (by eexists). rewrite Hhead. cbn.
  rewrite (Hother j Hjj'), Hc. cbn. done.
Qed.

(** Below [distInfo]: the two chains, one after the other. *)
Lemma both_chains_follow_ref (u v : option string) (c : Element) (q : ref) :
  follow_ref linkage_tags (with_chain linkage_tags (set_text u) c) = Some q →
  follow_ref linkage_tags
    (with_chain format_tags (set_text v) (with_chain linkage_tags (set_text u) c))
  = Some q.
Proof.
  intros Hq. unfold format_tags. cbn [with_chain].
  apply (follow_ref_other "distTranOps" "distFormat"); [done| |done].
  intros c0. apply tag_with_child.
Qed.

Lemma both_chains_kept (u v : option string) (c : Element) :
  let F := with_chain format_tags (set_text v) ∘ with_chain linkage_tags (set_text u) in
  kept (λ q, follow_ref linkage_tags (F c) = Some q ∨ follow_ref format_tags (F c) = Some q)
       c (F c).
Proof.
  intros F. unfold F, compose.
  eapply kept_weaken;
    [|exact (kept_trans _ _ _ _ _ (kept_with_chain linkage_tags u c)
               (kept_with_chain format_tags v (with_chain linkage_tags (set_text u) c)))].
  intros q [Hq|Hq]; [left; by apply both_chains_follow_ref|by right].
Qed.

Lemma both_chains_grown (u v : option string) (c : Element) :
  let F := with_chain format_tags (set_text v) ∘ with_chain linkage_tags (set_text u) in
  grown (λ q, (∃ r, follow_ref linkage_tags (F c) = Some r ∧ q `prefix_of` r)
              ∨ (∃ r, follow_ref format_tags (F c) = Some r ∧ q `prefix_of` r))
        c (F c).
Proof.
  intros F. unfold F, compose.
  eapply grown_weaken;
    [|exact (grown_trans _ _ _ _ _ (grown_with_chain linkage_tags u c)
               (grown_with_chain format_tags v (with_chain linkage_tags (set_text u) c)))].
  intros q [(r & Hr & ?)|?]; [left; exists r; split; [by apply both_chains_follow_ref|done]
                             |by right].
Qed.

Lemma both_chains_reuse (u v : option string) (c : Element) (ts : list string) (q : ref) :
  let F := with_chain format_tags (set_text v) ∘ with_chain linkage_tags (set_text u) in
  ts `prefix_of` linkage_tags ∨ ts `prefix_of` format_tags →
  follow_ref ts c = Some q → follow_ref ts (F c) = Some q.
Proof.
  intros F Hpre Hq. unfold F, compose. destruct ts as [|t ts]; [done|].
  destruct Hpre as [Hpre|Hpre].
  - pose proof (prefix_cons_inv_1 _ _ _ _ Hpre) as ->.
    unfold format_tags. cbn [with_chain].
    apply (follow_ref_other "distTranOps" "distFormat"); [done|intros; apply tag_with_child|].
    by apply follow_ref_with_chain_reuse.
  - pose proof (prefix_cons_inv_1 _ _ _ _ Hpre) as ->.
    apply follow_ref_with_chain_reuse; [done..|].
    unfold linkage_tags. cbn [with_chain].
    apply (follow_ref_other "distFormat" "distTranOps"); [done|intros; apply tag_with_child|done].
Qed.

Lemma both_chains_tag (u v : option string) (c : Element) :
  tag ((with_chain format_tags (set_text v) ∘ with_chain linkage_tags (set_text u)) c) = tag c.
Proof. unfold compose. rewrite tag_with_chain by done. by apply tag_with_chain. Qed.

Lemma both_chains_is_Some (u v : option string) (c : Element) :
  is_Some (follow_ref linkage_tags
             ((with_chain format_tags (set_text v) ∘ with_chain linkage_tags (set_text u)) c)).
Proof.
  destruct (follow_ref_with_chain_is_Some linkage_tags (set_text u) c (λ _, eq_refl)) as [r Hr].
  exists r. by apply both_chains_follow_ref.
Qed.

(** Every element of the document is still there after the upsert, in
    its place and as it was, but for the texts of the two leaves. *)
Lemma upsertDistributionInfo_kept (restUrl formatName : string) (root : Element) :
  kept (λ p, follow_ref ("distInfo" :: linkage_tags)
               (upsertDistributionInfo restUrl formatName root) = Some p
             ∨ follow_ref ("distInfo" :: format_tags)
                 (upsertDistributionInfo restUrl formatName root) = Some p)
       root (upsertDistributionInfo restUrl formatName root).
Proof.
  rewrite upsertDistributionInfo_with_child.
  eapply kept_weaken;
    [|exact (kept_with_child "distInfo" _ root _
               (both_chains_tag (Some restUrl) (Some formatName))
               (both_chains_kept (Some restUrl) (Some formatName)))].
  intros p (j & c & q & -> & Hhead & Hj & Hq). cbn beta in Hq.
  rewrite !(follow_ref_cons _ _ _ _ _ Hhead Hj).
  destruct Hq as [->| ->]; [by left|by right].
Qed.

(** Every element that the upsert creates lies on one of the two ways. *)
Lemma upsertDistributionInfo_grown (restUrl formatName : string) (root : Element) :
  grown (λ p, (∃ r, follow_ref ("distInfo" :: linkage_tags)
                      (upsertDistributionInfo restUrl formatName root) = Some r
                    ∧ p `prefix_of` r)
              ∨ (∃ r, follow_ref ("distInfo" :: format_tags)
                        (upsertDistributionInfo restUrl formatName root) = Some r
                      ∧ p `prefix_of` r))
        root (upsertDistributionInfo restUrl formatName root).
Proof.
  rewrite upsertDistributionInfo_with_child.
  eapply grown_weaken;
    [|exact (grown_with_child "distInfo" _ root _
               (both_chains_tag (Some restUrl) (Some formatName))
               (both_chains_grown (Some restUrl) (Some formatName)))].
  intros p (j & c & q & -> & Hhead & Hj & Hq). cbn beta in Hq.
  rewrite !(follow_ref_cons _ _ _ _ _ Hhead Hj).
  destruct Hq as [->|[(r & -> & ?)|(r & -> & ?)]].
  - left. destruct (both_chains_is_Some (Some restUrl) (Some formatName) c) as [r ->].
    exists (j :: r). split; [done|]. apply prefix_cons, prefix_nil.
  - left. exists (j :: r). split; [done|]. by apply prefix_cons.
  - right. exists (j :: r). split; [done|]. by apply prefix_cons.
Qed.

(** Where the document has a part of one of the two ways, the upsert
    takes it. *)
Lemma upsertDistributionInfo_reuse (restUrl formatName : string) (root : Element)
    (ts : list string) (q : ref) :
  ts `prefix_of` "distInfo" :: linkage_tags ∨ ts `prefix_of` "distInfo" :: format_tags →
  follow_ref ts root = Some q →
  follow_ref ts (upsertDistributionInfo restUrl formatName root) = Some q.
Proof.
  intros Hpre Hq. destruct ts as [|t ts]; [done|].
  assert (t = "distInfo"
          ∧ (ts `prefix_of` linkage_tags ∨ ts `prefix_of` format_tags)) as [-> Hpre'].
  { destruct Hpre as [Hpre|Hpre];
      (split; [by apply prefix_cons_inv_1 in Hpre|]);
      [left|right]; by apply prefix_cons_inv_2 in Hpre. }
  rewrite upsertDistributionInfo_with_child.
  cbn [follow_ref] in Hq.
  destruct (head (indices_with_tag "distInfo" (children root))) as [j|] eqn:Hhead; [|done].
  cbn in Hq. destruct (children root !! j) as [c|] eqn:Hc; [|done]. cbn in Hq.
  destruct (follow_ref ts c) as [r|] eqn:Hr; [|done]. cbn in Hq. simplify_eq.
  destruct (with_child_cases "distInfo" _ root
              (both_chains_tag (Some restUrl) (Some formatName)))
    as (j' & c' & Hhead' & Hj' & _ & _ & Hcase).
  destruct Hcase as [[Hh Hc']|[Hh _]]; [|congruence].
  rewrite Hhead in Hh. injection Hh as <-. rewrite Hc in Hc'. injection Hc' as <-.
  rewrite (follow_ref_cons _ _ _ _ _ Hhead' Hj').
  by rewrite (both_chains_reuse (Some restUrl) (Some formatName) c ts r Hpre' Hr).
Qed.

(** ** TreeEditor: the claims *)

(** C1, as stated, fails: one call takes out both binary containers of
    [two_thumbnails], not at most one. *)
Lemma removeThumbnailBlock_removes_two :
  removeThumbnailBlock two_thumbnails = node "metadata" []
  ∧ length (children two_thumbnails)
    - length (children (removeThumbnailBlock two_thumbnails)) = 2
  ∧ ¬ (∀ root, length (children root)
               - length (children (removeThumbnailBlock root)) ≤ 1).
Proof.
  split_and!; [by vm_compute..|].
  intros H. specialize (H two_thumbnails). vm_compute in H. lia.
Qed.

(** C1, amended. One call removes every child of the root whose tag
    ends with [Binary] and that has, at any depth or in itself, an
    element whose tag ends with [Thumbnail]; the other children stay, in
    their order, and so does the rest of the root. With no such child
    the document is unchanged. *)
Theorem removeThumbnailBlock_spec (root : Element) :
  removeThumbnailBlock root
  = set_children (filter (λ c, ¬ holds_thumbnail c) (children root)) root
  ∧ (∀ c, holds_thumbnail c ↔
          Py.endswith (tag c) "Binary" = true
          ∧ ∃ rel e, get rel c = Some e ∧ Py.endswith (tag e) "Thumbnail" = true)
  ∧ thumbnails_removed root = length (filter (λ c, holds_thumbnail c) (children root))
  ∧ ((∀ c, c ∈ children root → ¬ holds_thumbnail c) → removeThumbnailBlock root = root).
Proof.
  split_and!.
  - apply removeThumbnailBlock_filter.
  - intros c. rewrite Is_true_true. apply holds_thumbnail_true.
  - apply thumbnails_removed_count.
  - intros Hnone. rewrite removeThumbnailBlock_filter, filter_all.
    + apply set_children_same.
    + by apply Forall_forall.
Qed.

Lemma removeThumbnailBlock_spec_witness :
  removeThumbnailBlock two_linkages = two_linkages.
Proof.
  apply (removeThumbnailBlock_spec two_linkages).
  intros c Hc. vm_compute in Hc.
  apply list_elem_of_singleton in Hc as ->. vm_compute. tauto.
Defined.

(** C4, as stated, fails: the block of [two_linkages] lists two
    linkages, and two applications leave both of them there, the second
    with its old text. *)
Lemma upsertDistributionInfo_keeps_two_linkages :
  let twice :=
    upsertDistributionInfo "https://svc/rest" "ESRI REST Service"
      (upsertDistributionInfo "https://svc/rest" "ESRI REST Service" two_linkages) in
  ∃ dist_info,
    follow ["distInfo"] twice = Some dist_info
    ∧ count_tag "linkage" dist_info = 2
    ∧ count_tag "linkage" dist_info ≠ 1
    ∧ text <$> get [0; 0; 1] dist_info = Some (Some "old-b").
Proof. eexists. split_and!; [by vm_compute..| |by vm_compute]. by vm_compute. Qed.

(** C4, amended. The upsert is idempotent: a second application with the
    same arguments leaves the document as the first one made it. After
    it, the linkage reached through the first [distInfo], its first
    [distTranOps], then [onLineSrc], then [linkage] holds [restUrl], and
    the format name reached through the first [distInfo], [distFormat],
    [formatName] holds [formatName]. On a root without [distInfo] the
    upsert appends one block with exactly one linkage and one format
    name. In general the upsert is get-or-create along the two ways
    and nothing else: every element of the document is still there, in
    its place, with its tag, attributes and tail, and with its text
    unless it is one of the two leaves, so further linkages keep theirs;
    every element that was not there lies on one of the two ways; and
    where the document has a part of a way, the upsert takes that part
    and creates nothing for it. *)
Theorem upsertDistributionInfo_idempotent (restUrl formatName : string) (root : Element) :
  let once := upsertDistributionInfo restUrl formatName root in
  upsertDistributionInfo restUrl formatName once = once
  ∧ text <$> follow ("distInfo" :: linkage_tags) once = Some (Some restUrl)
  ∧ text <$> follow ("distInfo" :: format_tags) once = Some (Some formatName)
  ∧ (head (indices_with_tag "distInfo" (children root)) = None →
     once = set_children (children root ++ [fresh_distInfo restUrl formatName]) root
     ∧ count_tag "linkage" (fresh_distInfo restUrl formatName) = 1
     ∧ count_tag "formatName" (fresh_distInfo restUrl formatName) = 1)
  ∧ once
    = with_child "distInfo"
        (with_chain format_tags (set_text (Some formatName))
         ∘ with_chain linkage_tags (set_text (Some restUrl)))
        root
  ∧ (∀ p e,
       get p root = Some e →
       ∃ e', get p once = Some e'
             ∧ tag e' = tag e ∧ attrib e' = attrib e ∧ tail e' = tail e
             ∧ (text e' = text e
                ∨ follow_ref ("distInfo" :: linkage_tags) once = Some p
                ∨ follow_ref ("distInfo" :: format_tags) once = Some p))
  ∧ (∀ p,
       is_Some (get p once) →
       is_Some (get p root)
       ∨ (∃ r, follow_ref ("distInfo" :: linkage_tags) once = Some r ∧ p `prefix_of` r)
       ∨ (∃ r, follow_ref ("distInfo" :: format_tags) once = Some r ∧ p `prefix_of` r))
  ∧ (∀ ts q,
       ts `prefix_of` "distInfo" :: linkage_tags
       ∨ ts `prefix_of` "distInfo" :: format_tags →
       follow_ref ts root = Some q → follow_ref ts once = Some q)
  ∧ (∀ ts, follow ts once = follow_ref ts once ≫= λ p, get p once).
Proof.
  split_and!.
  - apply upsertDistributionInfo_idem.
  - apply upsertDistributionInfo_linkage.
  - apply upsertDistributionInfo_formatName.
  - intros Hnone. split_and!; [by apply upsertDistributionInfo_fresh|done..].
  - apply upsertDistributionInfo_with_child.
  - apply upsertDistributionInfo_kept.
  - apply upsertDistributionInfo_grown.
  - intros ts q. apply upsertDistributionInfo_reuse.
  - intros ts. apply follow_follow_ref.
Qed.

Lemma upsertDistributionInfo_idempotent_witness :
  upsertDistributionInfo "https://svc/rest" "ESRI REST Service" (node "metadata" [])
  = node "metadata" [fresh_distInfo "https://svc/rest" "ESRI REST Service"].
Proof.
  destruct (upsertDistributionInfo_idempotent "https://svc/rest" "ESRI REST Service"
              (node "metadata" [])) as (_ & _ & _ & Hfresh & _).
  apply Hfresh. reflexivity.
Defined.

(** ** The frame of the edits *)

Lemma descend_skeleton (t : string) (c : Element) : descend t (skeleton c) = descend t c.
Proof.
  unfold descend. rewrite iter_skeleton. apply list_bind_ext; [|done].
  intros rel. by rewrite tag_at_skeleton.
Qed.

Lemma sub_findall_skeleton (t : string) (ts : list string) (c : Element) :
  sub_findall t ts (skeleton c) = sub_findall t ts c.
Proof.
  unfold sub_findall. rewrite descend_skeleton. generalize (descend t c).
  induction ts as [|t1 ts IH]; intros result; [done|].
  rewrite fmap_cons. cbn [fold_left]. by rewrite select_skeleton, IH.
Qed.

Lemma sub_findall_edit_all (t : string) (ts : list string)
    (h : option string → option string) (ps : list ref) (c : Element) :
  sub_findall t ts (edit_all h ps c) = sub_findall t ts c.
Proof.
  by rewrite <-(sub_findall_skeleton t ts (edit_all h ps c)), skeleton_edit_all,
    sub_findall_skeleton.
Qed.

Lemma holds_thumbnail_edit_all (h : option string → option string) (ps : list ref)
    (c : Element) :
  holds_thumbnail (edit_all h ps c) = holds_thumbnail c.
Proof. apply holds_thumbnail_same_skeleton, skeleton_edit_all. Qed.

Lemma tag_edit_all (h : option string → option string) (ps : list ref) (c : Element) :
  tag (edit_all h ps c) = tag c.
Proof. by rewrite <-(tag_skeleton (edit_all h ps c)), skeleton_edit_all, tag_skeleton. Qed.

(** What a [/t] step selects has tag [t]. *)
Lemma elem_of_select_child (t : string) (c : Element) (result : list ref) (p : ref) :
  p ∈ select c (Child t) result → tag_at c p = Some t.
Proof.
  cbn [select]. intros (q & Hp & _)%list_elem_of_bind.
  destruct (get q c) as [e|] eqn:Hget; [|by apply elem_of_nil in Hp].
  apply list_elem_of_fmap in Hp as (i & -> & Hi).
  apply indices_with_tag_from_elem in Hi as (c' & _ & Hi & Ht).
  rewrite Nat.sub_0_r in Hi. unfold tag_at. rewrite get_app, Hget. simpl.
  by rewrite Hi, <-Ht.
Qed.

Lemma sub_findall_snoc (t : string) (ts : list string) (tn : string) (c : Element) :
  sub_findall t (ts ++ [tn]) c = select c (Child tn) (sub_findall t ts c).
Proof. unfold sub_findall. by rewrite fmap_app, fold_left_app. Qed.

Lemma sub_findall_disjoint (t t' : string) (ts ts' : list string) (tn tn' : string)
    (c : Element) (p : ref) :
  tn ≠ tn' →
  p ∈ sub_findall t (ts ++ [tn]) c → p ∉ sub_findall t' (ts' ++ [tn']) c.
Proof.
  rewrite !sub_findall_snoc. intros Hne H1%elem_of_select_child H2%elem_of_select_child.
  congruence.
Qed.

(** Below one child of the root: blanking the two kinds of text after
    the two edit loops is blanking them in the first place. *)
Lemma blank_after_edit (ha hl : option string → option string) (c : Element) :
  let La := sub_findall "dataIdInfo" ["idAbs"] in
  let Ll := sub_findall "dataIdInfo" ["resConst"; "Consts"; "useLimit"] in
  let edited := edit_all hl (Ll (edit_all ha (La c) c)) (edit_all ha (La c) c) in
  let blank x :=
    edit_all (λ _, None) (Ll (edit_all (λ _, None) (La x) x))
      (edit_all (λ _, None) (La x) x) in
  blank edited = blank c.
Proof.
  cbv zeta. rewrite !sub_findall_edit_all.
  set (La := sub_findall "dataIdInfo" ["idAbs"] c).
  set (Ll := sub_findall "dataIdInfo" ["resConst"; "Consts"; "useLimit"] c).
  rewrite (edit_all_comm (λ _, None) hl La Ll).
  - rewrite (edit_all_absorb None ha La La) by done.
    by rewrite (edit_all_absorb None hl Ll Ll) by done.
  - intros p. apply (sub_findall_disjoint "dataIdInfo" "dataIdInfo" []
                       ["resConst"; "Consts"] "idAbs" "useLimit"). done.
Qed.

(** *** The children of the root *)

Lemma indices_with_tag_from_ge (t : string) (k : nat) (cs : list Element) (i : nat) :
  head (indices_with_tag_from t k cs) = Some i → k ≤ i.
Proof.
  intros Hi. assert (i ∈ indices_with_tag_from t k cs) as Hin.
  { destruct (indices_with_tag_from t k cs); simplify_eq/=. by left. }
  apply indices_with_tag_from_elem in Hin as (c & ? & _). done.
Qed.

Lemma with_child_upsert_first (t : string) (f : Element → Element) (e : Element) :
  with_child t f e = set_children (upsert_first t f (children e)) e.
Proof.
  unfold with_child, indices_with_tag.
  assert (∀ cs k,
            match head (indices_with_tag_from t k cs) with
            | Some i => alter f (i - k) cs
            | None => cs ++ [f (new_element t)]
            end = upsert_first t f cs) as H.
  { induction cs as [|c cs IH]; intros k; simpl; [done|].
    case_bool_decide; simpl.
    - by rewrite Nat.sub_diag.
    - specialize (IH (S k)).
      destruct (head (indices_with_tag_from t (S k) cs)) as [i|] eqn:Hhead.
      + apply indices_with_tag_from_ge in Hhead.
        replace (i - k) with (S (i - S k)) by lia. cbn [alter list_alter]. by rewrite IH.
      + simpl. by rewrite IH. }
  specialize (H (children e) 0).
  destruct (head (indices_with_tag_from t 0 (children e))) as [i|].
  - rewrite Nat.sub_0_r in H. by rewrite H.
  - by rewrite H.
Qed.

Lemma holds_thumbnail_distInfo (c : Element) :
  tag c = "distInfo" → ¬ holds_thumbnail c.
Proof.
  intros Ht. unfold holds_thumbnail. rewrite Ht.
  change (Py.endswith "distInfo" "Binary") with false. simpl. tauto.
Qed.

Lemma filter_fmap_filter (P : Element → Prop) `{!∀ c, Decision (P c)}
    (b g : Element → Element) (cs : list Element) :
  (∀ c, P (b c) ↔ P c) →
  filter P (b <$> filter P (g <$> cs)) = filter P ((b ∘ g) <$> cs).
Proof.
  intros Hb. induction cs as [|c cs IH]; [done|].
  rewrite !fmap_cons. simpl. rewrite (filter_cons P (g c)), (filter_cons P (b (g c))).
  destruct (decide (P (g c))) as [Hc|Hc].
  - rewrite decide_True by by apply Hb.
    rewrite fmap_cons, filter_cons_True by by apply Hb. by rewrite IH.
  - by rewrite decide_False by by rewrite Hb.
Qed.

(** Upsert on the kept children, then blanking and dropping, is
    blanking and dropping. *)
Lemma drop_after_upsert (F b g : Element → Element) (cs : list Element) :
  (∀ c, tag (F c) = tag c) →
  (∀ c, tag (b c) = tag c) → (∀ c, tag (g c) = tag c) →
  (∀ c, holds_thumbnail (b c) = holds_thumbnail c) →
  (∀ c, holds_thumbnail (g c) = holds_thumbnail c) →
  (∀ c, b (g c) = b c) →
  drop_first "distInfo"
    (filter (λ c, ¬ holds_thumbnail c)
       (b <$> upsert_first "distInfo" F
                (filter (λ c, ¬ holds_thumbnail c) (g <$> cs))))
  = drop_first "distInfo" (filter (λ c, ¬ holds_thumbnail c) (b <$> cs)).
Proof.
  intros HF Hb Hg Hkb Hkg Hbg. induction cs as [|c cs IH].
  - simpl. rewrite filter_cons_True.
    + simpl. by rewrite Hb, HF, bool_decide_eq_true_2.
    + apply holds_thumbnail_distInfo. by rewrite Hb, HF.
  - rewrite !fmap_cons.
    rewrite (filter_cons _ (g c)), (filter_cons _ (b c)).
    destruct (decide (¬ holds_thumbnail (g c))) as [Hc|Hc].
    + rewrite decide_True by (by rewrite Hkb, <-Hkg).
      cbn [upsert_first drop_first]. rewrite Hg, Hb.
      case_bool_decide as Ht.
      * rewrite fmap_cons, filter_cons_True
          by (apply holds_thumbnail_distInfo; by rewrite Hb, HF, Hg).
        cbn [drop_first]. rewrite Hb, HF, Hg, bool_decide_eq_true_2 by done.
        rewrite filter_fmap_filter by (intros; by rewrite Hkb).
        f_equal. apply list_fmap_ext. intros ? c' _. apply Hbg.
      * rewrite fmap_cons, filter_cons_True by (by rewrite Hkb).
        cbn [drop_first]. rewrite Hb, Hg, bool_decide_eq_false_2 by done.
        by rewrite Hbg, IH.
    + rewrite decide_False by (by rewrite Hkb, <-Hkg). apply IH.
Qed.

Lemma blank_texts_children (t : string) (ts : list string) (root : Element) :
  blank_texts (Self :: Descendant t :: (Child <$> ts)) root
  = set_children
      ((λ c, edit_all (λ _, None) (sub_findall t ts c) c) <$> children root) root.
Proof.
  change (blank_texts ?p ?r) with (edit_all (λ _, None) (findall p r) r).
  rewrite findall_children. destruct root as [tg a x tl cs].
  apply (edit_all_iter_children _ _ tg a x tl [] cs).
Qed.

Lemma outside_targets_children (root : Element) :
  outside_targets root
  = set_children
      (drop_first "distInfo"
         (filter (λ c, ¬ holds_thumbnail c)
            ((λ c, edit_all (λ _, None)
                     (sub_findall "dataIdInfo" ["resConst"; "Consts"; "useLimit"]
                        (edit_all (λ _, None) (sub_findall "dataIdInfo" ["idAbs"] c) c))
                     (edit_all (λ _, None) (sub_findall "dataIdInfo" ["idAbs"] c) c))
             <$> children root)))
      root.
Proof.
  unfold outside_targets, drop_distInfo, drop_thumbnails.
  change abstract_path with (Self :: Descendant "dataIdInfo" :: (Child <$> ["idAbs"])).
  change use_limit_path
    with (Self :: Descendant "dataIdInfo" :: (Child <$> ["resConst"; "Consts"; "useLimit"])).
  rewrite !blank_texts_children. destruct root as [tg a x tl cs].
  unfold set_children. simpl. by rewrite <-list_fmap_compose.
Qed.

Lemma edit_document_children (restUrl : string) (root : Element) :
  edit_document restUrl root
  = set_children
      (upsert_first "distInfo"
         (with_chain format_tags (set_text (Some "ESRI REST Service"))
          ∘ with_chain linkage_tags (set_text (Some restUrl)))
         (filter (λ c, ¬ holds_thumbnail c)
            ((λ c, edit_all (edit_opt truncateUseLimit)
                     (sub_findall "dataIdInfo" ["resConst"; "Consts"; "useLimit"]
                        (edit_all (edit_opt stripLeadingLinks)
                           (sub_findall "dataIdInfo" ["idAbs"] c) c))
                     (edit_all (edit_opt stripLeadingLinks)
                        (sub_findall "dataIdInfo" ["idAbs"] c) c))
             <$> children root)))
      root.
Proof.
  unfold edit_document.
  change abstract_path with (Self :: Descendant "dataIdInfo" :: (Child <$> ["idAbs"])).
  change use_limit_path
    with (Self :: Descendant "dataIdInfo" :: (Child <$> ["resConst"; "Consts"; "useLimit"])).
  rewrite !edit_texts_children, removeThumbnailBlock_filter,
    upsertDistributionInfo_with_child, with_child_upsert_first.
  destruct root as [tg a x tl cs].
  unfold set_children. simpl. by rewrite <-list_fmap_compose.
Qed.


(** ** The text behind a reference after the edit loops *)

Lemma text_at_update (h : option string → option string) (p q : ref) (doc : Element) :
  text_at (update (text_edit h) q doc) p
  = if decide (p = q) then h <$> text_at doc p else text_at doc p.
Proof.
  unfold text_at. revert p doc. induction q as [|j q IH]; intros [|i p] doc; simpl.
  - done.
  - by destruct doc.
  - by destruct doc.
  - destruct (decide (i = j)) as [->|Hij].
    + rewrite list_lookup_alter_eq. destruct (children doc !! j) as [c|]; simpl.
      * rewrite IH. repeat case_decide; congruence.
      * by case_decide.
    + rewrite list_lookup_alter_ne by done. rewrite decide_False by congruence. done.
Qed.

Lemma text_at_edit_all (h : option string → option string) (ps : list ref) (p : ref)
    (doc : Element) :
  NoDup ps → p ∈ ps → text_at (edit_all h ps doc) p = h <$> text_at doc p.
Proof.
  intros Hnd. revert doc. induction Hnd as [|q ps Hq Hnd IH]; intros doc Hp.
  - by apply elem_of_nil in Hp.
  - rewrite edit_all_cons. apply elem_of_cons in Hp as [->|Hp].
    + assert (∀ d, text_at (edit_all h ps d) q = text_at d q) as ->.
      { clear -Hq. induction ps as [|r ps IH]; intros d; [done|].
        apply not_elem_of_cons in Hq as [? ?].
        rewrite edit_all_cons, IH, text_at_update by done. by rewrite decide_False. }
      rewrite text_at_update. by rewrite decide_True.
    + rewrite IH, text_at_update by done. rewrite decide_False; [done|].
      intros ->. done.
Qed.

Lemma NoDup_indices_with_tag_from (t : string) (k : nat) (cs : list Element) :
  NoDup (indices_with_tag_from t k cs).
Proof.
  revert k. induction cs as [|c cs IH]; intros k; simpl; [constructor|].
  case_bool_decide; [|apply IH]. constructor; [|apply IH].
  intros (c' & ? & _)%indices_with_tag_from_elem. lia.
Qed.

Lemma NoDup_select_child (t : string) (c : Element) (result : list ref) :
  NoDup result → NoDup (select c (Child t) result).
Proof.
  intros Hnd. cbn [select]. apply NoDup_bind; [| |done].
  - intros q1 q2 y _ _ H1 H2.
    destruct (get q1 c); [|by apply elem_of_nil in H1].
    destruct (get q2 c); [|by apply elem_of_nil in H2].
    apply list_elem_of_fmap in H1 as (i1 & -> & _).
    apply list_elem_of_fmap in H2 as (i2 & Heq & _).
    by apply app_inj_tail in Heq as [? _].
  - intros q _. destruct (get q c); [|constructor].
    apply NoDup_fmap_2; [|apply NoDup_indices_with_tag_from].
    intros i1 i2 Heq. by apply app_inj_tail in Heq as [_ ?].
Qed.

Lemma NoDup_descend (t : string) (c : Element) : NoDup (descend t c).
Proof.
  unfold descend. apply NoDup_bind; [| |apply NoDup_iter].
  - intros r1 r2 y _ _ H1 H2.
    destruct (bool_decide (tag_at c r1 = Some t)); [|by apply elem_of_nil in H1].
    destruct (bool_decide (tag_at c r2 = Some t)); [|by apply elem_of_nil in H2].
    apply list_elem_of_singleton in H1, H2. congruence.
  - intros r _. destruct (bool_decide _); [apply NoDup_singleton|constructor].
Qed.

Lemma NoDup_sub_findall (t : string) (ts : list string) (c : Element) :
  NoDup (sub_findall t ts c).
Proof.
  induction ts as [|tn ts IH] using rev_ind; [apply NoDup_descend|].
  rewrite sub_findall_snoc. by apply NoDup_select_child.
Qed.

(** [findall] returns no element twice. *)
Lemma NoDup_findall (t : string) (ts : list string) (root : Element) :
  NoDup (findall (Self :: Descendant t :: (Child <$> ts)) root).
Proof.
  rewrite findall_children. apply NoDup_iter_children, Forall_forall.
  intros c _. apply NoDup_sub_findall.
Qed.

(** Each selected element gets its text edited once. *)
Lemma text_at_edit_texts (f : string → string) (t : string) (ts : list string)
    (root : Element) (p : ref) :
  p ∈ findall (Self :: Descendant t :: (Child <$> ts)) root →
  text_at (edit_texts f (Self :: Descendant t :: (Child <$> ts)) root) p
  = edit_opt f <$> text_at root p.
Proof.
  intros Hp. rewrite edit_texts_edit_all.
  apply text_at_edit_all; [apply NoDup_findall|done].
Qed.

(** ** End to end on the example of the specification *)

(** C2, as stated, fails: the substitution puts group 1 back, and group
    1 holds the opening paragraph tag, so the abstract does not become
    [Real text.] *)
Lemma stripLeadingLinks_keeps_paragraph_tag :
  stripLeadingLinks abstract_example = "<p></p>Real text."
  ∧ stripLeadingLinks abstract_example ≠ "Real text."
  ∧ text_at (edit_document "https://svc/rest" fixture) [0; 0]
    = Some (Some "<p></p>Real text.").
Proof. split_and!; by vm_compute. Qed.

(** C2, amended. An abstract whose text is the example of the
    specification becomes [<p></p>Real text.]: the links go, the
    paragraph tag in front of them stays. For every document the linkage
    reached through [distInfo], [distTranOps], [onLineSrc], [linkage]
    holds the REST URL after the edits, and the link [.../item/99] gives
    the catalog id 99. On the fixture, the run posts the edited document
    under that id. *)
Theorem end_to_end_example :
  (∀ (root : Element) (p : ref),
     p ∈ findall abstract_path root →
     text_at root p = Some (Some abstract_example) →
     text_at (edit_texts stripLeadingLinks abstract_path root) p
     = Some (Some "<p></p>Real text."))
  ∧ (∀ (root : Element) (restUrl : string),
       text <$> follow ("distInfo" :: linkage_tags) (edit_document restUrl root)
       = Some (Some restUrl))
  ∧ extractCatalogId ".../item/99" = Some (inl 99%Z)
  ∧ edit_document "https://svc/rest" fixture = fixture_edited
  ∧ Toy.run_record Toy.config (Toy.row "eDNA Survey" "a1" ".../item/99")
      (MkState [inl (MkResponse 200 "fixture"); inl (MkResponse 200 "")]
         (MkGlobals (Some "tok") None None None))
    = (Success,
       MkState []
         (MkGlobals (Some "tok") (Some fixture_edited)
            (Some (Toy.tostring fixture_edited)) (Some 99%Z)),
       [Print "Starting update for eDNA Survey...";
        Get (source_url "a1") (inl (MkResponse 200 "fixture"));
        Print " - Edited XML abstract for eDNA Survey -";
        Print " - Edited XML use terms for eDNA Survey -";
        Print " - Removed thumbnail from XML for eDNA Survey -";
        Print " - Added/edited distribution info to XML for eDNA Survey -";
        Print " - Updating InPort item ID: 99";
        Post (Some "https://inport/xml")
          (InportUpdate (Some "tok") 99 1005 (Toy.tostring fixture_edited))
          (inl (MkResponse 200 ""));
        Print " - InPort Status Code: 200 - ";
        Print " - InPort Errors and Warnings:  - "]).
Proof.
  split_and!.
  - intros root p Hp Htext.
    change abstract_path
      with (Self :: Descendant "dataIdInfo" :: (Child <$> ["idAbs"])) in *.
    rewrite (text_at_edit_texts stripLeadingLinks "dataIdInfo" ["idAbs"] root p Hp), Htext.
    by vm_compute.
  - intros root restUrl. apply upsertDistributionInfo_linkage.
  - by vm_compute.
  - by vm_compute.
  - by vm_compute.
Qed.

Lemma end_to_end_example_witness :
  text_at (edit_texts stripLeadingLinks abstract_path fixture) [0; 0]
  = Some (Some "<p></p>Real text.").
Proof.
  apply (proj1 end_to_end_example fixture [0; 0]).
  - vm_compute. left.
  - by vm_compute.
Defined.

(** *** More on the selected places *)

Lemma elem_of_select_descendant (t : string) (root : Element) (p : ref) :
  p ∈ select root (Descendant t) [[]] ↔ p ≠ [] ∧ tag_at root p = Some t.
Proof.
  cbn [select]. rewrite bind_singleton. cbn [get]. rewrite list_elem_of_bind. split.
  - intros (rel & Hp & _).
    destruct (bool_decide (rel ≠ [])) eqn:Hne; [|by apply elem_of_nil in Hp].
    destruct (bool_decide (tag_at root rel = Some t)) eqn:Ht; [|by apply elem_of_nil in Hp].
    apply list_elem_of_singleton in Hp as ->.
    apply bool_decide_eq_true in Hne. by apply bool_decide_eq_true in Ht.
  - intros [Hne Ht]. exists p. split.
    + rewrite bool_decide_eq_true_2, bool_decide_eq_true_2 by done. by left.
    + apply elem_of_iter. unfold tag_at in Ht.
      destruct (get p root); [done|discriminate].
Qed.

Lemma elem_of_select_child_iff (t : string) (doc : Element) (result : list ref) (p : ref) :
  p ∈ select doc (Child t) result
  ↔ ∃ q i, q ∈ result ∧ p = q ++ [i] ∧ tag_at doc p = Some t.
Proof.
  split.
  - intros Hp. pose proof (elem_of_select_child _ _ _ _ Hp) as Ht.
    cbn [select] in Hp. apply list_elem_of_bind in Hp as (q & Hp & Hq).
    destruct (get q doc) as [e|]; [|by apply elem_of_nil in Hp].
    apply list_elem_of_fmap in Hp as (i & -> & _). by exists q, i.
  - intros (q & i & Hq & -> & Ht). cbn [select]. apply list_elem_of_bind.
    exists q. split; [|done]. unfold tag_at in Ht. rewrite get_app in Ht.
    destruct (get q doc) as [e|]; [|discriminate]. cbn in Ht.
    destruct (children e !! i) as [c|] eqn:Hc; [|discriminate]. cbn in Ht.
    apply list_elem_of_fmap. exists i. split; [done|].
    apply indices_with_tag_from_elem. exists c.
    rewrite Nat.sub_0_r. split_and!; [lia|done|congruence].
Qed.

Lemma text_at_edit_all_other (h : option string → option string) (ps : list ref) (p : ref)
    (doc : Element) :
  p ∉ ps → text_at (edit_all h ps doc) p = text_at doc p.
Proof.
  revert doc. induction ps as [|q ps IH]; intros doc Hp; [done|].
  apply not_elem_of_cons in Hp as [? ?].
  rewrite edit_all_cons, IH, text_at_update by done. by rewrite decide_False.
Qed.


Lemma filter_none {A} (P : A → Prop) `{∀ x, Decision (P x)} (l : list A) :
  Forall (λ x, ¬ P x) l → filter P l = [].
Proof.
  induction 1 as [|x l Hx _ IH]; [done|].
  by rewrite filter_cons, decide_False.
Qed.


(** ** The frame of the edit section *)

Lemma label_skeleton (e : Element) :
  attrib (skeleton e) = attrib e ∧ tail (skeleton e) = tail e.
Proof. by destruct e. Qed.

Lemma label_edit_all (h : option string → option string) (ps : list ref) (c : Element) :
  attrib (edit_all h ps c) = attrib c ∧ tail (edit_all h ps c) = tail c.
Proof.
  destruct (label_skeleton (edit_all h ps c)) as [<- <-].
  rewrite skeleton_edit_all. apply label_skeleton.
Qed.

Lemma text_edit_all_below (h : option string → option string) (t : string)
    (ts : list string) (tn : string) (c0 c : Element) :
  text (edit_all h (sub_findall t (ts ++ [tn]) c0) c) = text c.
Proof.
  assert (text_at (edit_all h (sub_findall t (ts ++ [tn]) c0) c) [] = text_at c []) as H.
  { apply text_at_edit_all_other. rewrite sub_findall_snoc.
    intros (q & i & _ & Hp & _)%elem_of_select_child_iff. by destruct q. }
  by injection H.
Qed.

Lemma follow_one (t : string) (e : Element) :
  follow [t] e = head (filter (λ c, tag c = t) (children e)).
Proof.
  cbn [follow]. destruct (head (indices_with_tag t (children e))) as [i|] eqn:Hhead.
  - destruct (head_indices_Some _ _ _ Hhead) as (pre & c & post & Hcs & -> & Ht & Hpre).
    rewrite Hcs. cbn. rewrite list_lookup_middle by done. cbn.
    rewrite filter_app, filter_none, filter_cons_True by done. done.
  - apply head_indices_None in Hhead. by rewrite filter_none.
Qed.

(** The first [distInfo] of the root is the one the upsert works on,
    after the text edits and the removals. *)
Lemma first_distInfo_edited (F g : Element → Element) (cs : list Element) (c : Element) :
  (∀ c, tag (F c) = tag c) → (∀ c, tag (g c) = tag c) →
  head (filter (λ c, tag c = "distInfo") cs) = Some c →
  head (filter (λ c, tag c = "distInfo")
          (upsert_first "distInfo" F (filter (λ c, ¬ holds_thumbnail c) (g <$> cs))))
  = Some (F (g c)).
Proof.
  intros HF Hg. induction cs as [|c0 cs IH]; [done|].
  rewrite fmap_cons, (filter_cons _ c0), (filter_cons _ (g c0)).
  destruct (decide (tag c0 = "distInfo")) as [Ht|Ht].
  - intros [= ->].
    rewrite decide_True by (apply holds_thumbnail_distInfo; by rewrite Hg).
    cbn [upsert_first]. rewrite bool_decide_eq_true_2 by (by rewrite Hg).
    by rewrite filter_cons_True by (by rewrite HF, Hg).
  - intros Hc. destruct (decide (¬ holds_thumbnail (g c0))); [|by apply IH].
    cbn [upsert_first]. rewrite bool_decide_eq_false_2 by (by rewrite Hg).
    rewrite filter_cons_False by (by rewrite Hg). by apply IH.
Qed.

Lemma tails_upsert_first (t : string) (F : Element → Element) (cs : list Element) :
  (∀ c, tail (F c) = tail c) →
  omap id (tail <$> upsert_first t F cs) = omap id (tail <$> cs).
Proof.
  intros HF. induction cs as [|c cs IH]; cbn [upsert_first].
  - rewrite fmap_cons, HF. done.
  - case_bool_decide; rewrite !fmap_cons; [by rewrite HF|].
    cbn [omap list_omap]. by rewrite IH.
Qed.

Lemma tails_filter_fmap (g : Element → Element) (cs : list Element) :
  (∀ c, tail (g c) = tail c) → (∀ c, holds_thumbnail (g c) = holds_thumbnail c) →
  tail <$> filter (λ c, ¬ holds_thumbnail c) (g <$> cs)
  = tail <$> filter (λ c, ¬ holds_thumbnail c) cs.
Proof.
  intros Hg Hk. induction cs as [|c cs IH]; [done|].
  rewrite fmap_cons, (filter_cons _ (g c)), (filter_cons _ c), Hk.
  destruct (decide _); [|done]. by rewrite !fmap_cons, Hg, IH.
Qed.

(** C10, as stated, fails: [root.remove] takes a child out with its
    tail, so the text behind a removed thumbnail container, a text
    node of the root outside every target, is lost. *)
Lemma edit_document_drops_tail :
  text_nodes thumbnail_with_tail = ["KEEP ME"]
  ∧ text_nodes (edit_document "https://svc/rest" thumbnail_with_tail) = []
  ∧ ¬ (∀ restUrl root, text_nodes (edit_document restUrl root) = text_nodes root).
Proof.
  split_and!; [by vm_compute..|].
  intros H. specialize (H "https://svc/rest" thumbnail_with_tail).
  vm_compute in H. discriminate H.
Qed.

(** C10, amended. The edits of lines 114-174 change nothing outside
    their targets, where a removed thumbnail container goes with its
    tail, the text behind it. The document after the edits and the
    document before them are the same once the abstract and use-limit
    texts are blanked, the children of the root that hold a thumbnail
    are dropped and the first [distInfo] child of the root is dropped:
    the tag, attributes, text and tail of every other element, and the
    order of the elements, are as they were. The character data of the
    root itself is what it was without the tails of the removed
    containers. The first [distInfo] keeps its own tag, attributes,
    text and tail; only what is below it changes. *)
Theorem edit_document_frame (restUrl : string) (root : Element) :
  outside_targets (edit_document restUrl root) = outside_targets root
  ∧ text_nodes (edit_document restUrl root) = text_nodes (drop_thumbnails root)
  ∧ (∀ c, follow ["distInfo"] root = Some c →
          ∃ c', follow ["distInfo"] (edit_document restUrl root) = Some c'
                ∧ tag c' = tag c ∧ attrib c' = attrib c
                ∧ text c' = text c ∧ tail c' = tail c).
Proof.
  set (g := λ c, edit_all (edit_opt truncateUseLimit)
                   (sub_findall "dataIdInfo" ["resConst"; "Consts"; "useLimit"]
                      (edit_all (edit_opt stripLeadingLinks)
                         (sub_findall "dataIdInfo" ["idAbs"] c) c))
                   (edit_all (edit_opt stripLeadingLinks)
                      (sub_findall "dataIdInfo" ["idAbs"] c) c)).
  set (F := with_chain format_tags (set_text (Some "ESRI REST Service"))
            ∘ with_chain linkage_tags (set_text (Some restUrl))).
  assert (∀ c, tag (F c) = tag c) as HF by (intros c; apply both_chains_tag).
  assert (∀ c, tag (g c) = tag c) as Hg by (intros c; unfold g; by rewrite !tag_edit_all).
  assert (∀ c, holds_thumbnail (g c) = holds_thumbnail c) as Hkg
    by (intros c; unfold g; by rewrite !holds_thumbnail_edit_all).
  assert (∀ c, attrib (g c) = attrib c ∧ tail (g c) = tail c) as Hlg.
  { intros c. unfold g.
    destruct (label_edit_all (edit_opt truncateUseLimit)
                (sub_findall "dataIdInfo" ["resConst"; "Consts"; "useLimit"]
                   (edit_all (edit_opt stripLeadingLinks)
                      (sub_findall "dataIdInfo" ["idAbs"] c) c))
                (edit_all (edit_opt stripLeadingLinks)
                   (sub_findall "dataIdInfo" ["idAbs"] c) c)) as [-> ->].
    apply label_edit_all. }
  assert (∀ c, text (g c) = text c) as Htg.
  { intros c. unfold g.
    rewrite (text_edit_all_below _ "dataIdInfo" ["resConst"; "Consts"] "useLimit").
    apply (text_edit_all_below _ "dataIdInfo" [] "idAbs"). }
  assert (∀ c, attrib (F c) = attrib c ∧ text (F c) = text c ∧ tail (F c) = tail c) as HlF.
  { intros c. unfold F, compose, format_tags, linkage_tags. cbn [with_chain].
    destruct (with_child_label "distFormat"
                (λ e, with_child "formatName" (λ e0, set_text (Some "ESRI REST Service") e0) e)
                (with_child "distTranOps"
                   (λ e, with_child "onLineSrc"
                           (λ e0, with_child "linkage" (λ e1, set_text (Some restUrl) e1) e0) e)
                   c)) as (_ & -> & -> & ->).
    destruct (with_child_label "distTranOps"
                (λ e, with_child "onLineSrc"
                        (λ e0, with_child "linkage" (λ e1, set_text (Some restUrl) e1) e0) e)
                c) as (_ & -> & -> & ->).
    done. }
  split_and!.
  - rewrite (outside_targets_children (edit_document restUrl root)),
      (outside_targets_children root), edit_document_children.
    destruct root as [tg a x tl cs]. unfold set_children.
    cbn [tag attrib text tail children]. f_equal.
    apply (drop_after_upsert _ _ g); [done| |done| |done|].
    + intros c. by rewrite !tag_edit_all.
    + intros c. by rewrite !holds_thumbnail_edit_all.
    + intros c. unfold g.
      apply (blank_after_edit (edit_opt stripLeadingLinks) (edit_opt truncateUseLimit)).
  - rewrite edit_document_children. fold g F. unfold text_nodes, drop_thumbnails.
    destruct root as [tg a x tl cs]. cbn [set_children children text].
    cbn [omap list_omap].
    rewrite tails_upsert_first by (intros c; apply HlF).
    rewrite tails_filter_fmap; [done|intros c; apply Hlg|done].
  - intros c Hc. rewrite follow_one in Hc.
    exists (F (g c)). rewrite follow_one, edit_document_children. fold g F.
    destruct root as [tg a x tl cs]. cbn [set_children children] in *.
    split; [by apply first_distInfo_edited|].
    destruct (HlF (g c)) as (-> & -> & ->). destruct (Hlg c) as [-> ->].
    by rewrite HF, Hg, Htg.
Qed.

Lemma edit_document_frame_witness :
  ∃ c', follow ["distInfo"] (edit_document "https://svc/rest" two_linkages) = Some c'
        ∧ tag c' = "distInfo" ∧ attrib c' = [] ∧ text c' = None ∧ tail c' = None.
Proof.
  destruct (edit_document_frame "https://svc/rest" two_linkages) as (_ & _ & H).
  destruct (H _ eq_refl) as (c' & Hc' & Htag & Hattrib & Htext & Htail).
  exists c'. split_and!; [exact Hc'|exact Htag|exact Hattrib|exact Htext|exact Htail].
Defined.

(** ** The loop *)

Section Loop.

Context {World : Type}.
Variable requests_get : string → World → (Response + Exc) * World.
Variable requests_post : option string → Payload → World → (Response + Exc) * World.
Variable raise_for_status : Response → option Exc.
Variable json_sessionId : Response → option string + Exc.
Variable fromstring : string → Element + Exc.
Variable tostring : Element → string.
Variable config : Config.

Abbreviation iteration := (run_record requests_get requests_post fromstring tostring config).
Abbreviation batch := (run_batch requests_get requests_post fromstring tostring config).
Abbreviation acquire :=
  (acquire_session requests_post raise_for_status json_sessionId config).
Abbreviation whole_script :=
  (script requests_get requests_post raise_for_status json_sessionId fromstring
     tostring config).

(** *** One iteration, case by case *)

Ltac step_body :=
  cbv beta iota zeta
    delta [run_record record_body mbind M_bind bind print http_get http_post
           call assign ret raise continue read
           set_root set_modified_xml set_item_id];
  cbn [world globals session_id root modified_xml item_id app].


Lemma run_record_fetch_raises (row : SourceRecord) (st : State) (e : Exc) (w : World) :
  requests_get (source_url (file_id row)) (world st) = (inr e, w) →
  iteration row st
  = (Caught AtFetch e, MkState w (globals st),
     [Print (starting_line row); Get (source_url (file_id row)) (inr e);
      Print (error_line row e)]).
Proof.
  intros Hget. step_body. by rewrite Hget.
Qed.

Lemma run_record_fetch_status (row : SourceRecord) (st : State) (r : Response) (w : World) :
  requests_get (source_url (file_id row)) (world st) = (inl r, w) →
  status_code r ≠ 200%Z →
  iteration row st
  = (SkippedFetch (status_code r), MkState w (globals st),
     [Print (starting_line row); Get (source_url (file_id row)) (inl r);
      Print (fetch_failed_line row (status_code r))]).
Proof.
  intros Hget Hstatus. step_body. rewrite Hget. step_body.
  by rewrite bool_decide_eq_true_2.
Qed.

Lemma run_record_parse_raises (row : SourceRecord) (st : State) (r : Response) (w : World)
    (e : Exc) :
  requests_get (source_url (file_id row)) (world st) = (inl r, w) →
  status_code r = 200%Z →
  fromstring (content r) = inr e →
  iteration row st
  = (Caught AtParse e, MkState w (globals st),
     [Print (starting_line row); Get (source_url (file_id row)) (inl r);
      Print (error_line row e)]).
Proof.
  intros Hget Hstatus Hparse.
  step_body. rewrite Hget. step_body.
  rewrite bool_decide_eq_false_2 by (rewrite Hstatus; by intros []).
  step_body. by rewrite Hparse.
Qed.

Lemma run_record_no_id (row : SourceRecord) (st : State) (r : Response) (w : World)
    (doc : Element) :
  requests_get (source_url (file_id row)) (world st) = (inl r, w) →
  status_code r = 200%Z →
  fromstring (content r) = inl doc →
  extractCatalogId (link row) = None →
  iteration row st
  = (SkippedNoId, MkState w (edited_globals tostring row doc (globals st)),
     [Print (starting_line row); Get (source_url (file_id row)) (inl r)]
     ++ edit_log row doc ++ [Print (skipping_line row)]).
Proof.
  intros Hget Hstatus Hparse Hid.
  step_body. rewrite Hget. step_body.
  rewrite bool_decide_eq_false_2 by (rewrite Hstatus; by intros []).
  step_body. rewrite Hparse. step_body. rewrite Hid. step_body.
  unfold edit_log, edited_globals, edit_document. by rewrite <-!app_assoc.
Qed.

Lemma run_record_id_raises (row : SourceRecord) (st : State) (r : Response) (w : World)
    (doc : Element) (e : Exc) :
  requests_get (source_url (file_id row)) (world st) = (inl r, w) →
  status_code r = 200%Z →
  fromstring (content r) = inl doc →
  extractCatalogId (link row) = Some (inr e) →
  iteration row st
  = (Caught AtId e, MkState w (edited_globals tostring row doc (globals st)),
     [Print (starting_line row); Get (source_url (file_id row)) (inl r)]
     ++ edit_log row doc ++ [Print (error_line row e)]).
Proof.
  intros Hget Hstatus Hparse Hid.
  step_body. rewrite Hget. step_body.
  rewrite bool_decide_eq_false_2 by (rewrite Hstatus; by intros []).
  step_body. rewrite Hparse. step_body. rewrite Hid. step_body.
  unfold edit_log, edited_globals, edit_document. by rewrite <-!app_assoc.
Qed.

Lemma run_record_published (row : SourceRecord) (st : State) (r : Response) (w : World)
    (doc : Element) (n : Z) (upd : Response) (w2 : World) :
  requests_get (source_url (file_id row)) (world st) = (inl r, w) →
  status_code r = 200%Z →
  fromstring (content r) = inl doc →
  extractCatalogId (link row) = Some (inl n) →
  requests_post (inport_xml_url config)
    (inport_update tostring row doc n (globals st)) w = (inl upd, w2) →
  iteration row st
  = (Success, MkState w2 (published_globals tostring row doc n (globals st)),
     [Print (starting_line row); Get (source_url (file_id row)) (inl r)]
     ++ edit_log row doc
     ++ [Print (updating_line n);
         Post (inport_xml_url config)
           (inport_update tostring row doc n (globals st)) (inl upd);
         Print (status_line upd); Print (warnings_line upd)]).
Proof.
  intros Hget Hstatus Hparse Hid Hpost. unfold inport_update, edit_document in Hpost.
  step_body. rewrite Hget. step_body.
  rewrite bool_decide_eq_false_2 by (rewrite Hstatus; by intros []).
  step_body. rewrite Hparse. step_body. rewrite Hid. step_body.
  rewrite Hpost. step_body.
  unfold edit_log, published_globals, inport_update, edit_document.
  by rewrite <-!app_assoc.
Qed.

Lemma run_record_publish_raises (row : SourceRecord) (st : State) (r : Response) (w : World)
    (doc : Element) (n : Z) (e : Exc) (w2 : World) :
  requests_get (source_url (file_id row)) (world st) = (inl r, w) →
  status_code r = 200%Z →
  fromstring (content r) = inl doc →
  extractCatalogId (link row) = Some (inl n) →
  requests_post (inport_xml_url config)
    (inport_update tostring row doc n (globals st)) w = (inr e, w2) →
  iteration row st
  = (Caught AtPublish e, MkState w2 (published_globals tostring row doc n (globals st)),
     [Print (starting_line row); Get (source_url (file_id row)) (inl r)]
     ++ edit_log row doc
     ++ [Print (updating_line n);
         Post (inport_xml_url config)
           (inport_update tostring row doc n (globals st)) (inr e);
         Print (error_line row e)]).
Proof.
  intros Hget Hstatus Hparse Hid Hpost. unfold inport_update, edit_document in Hpost.
  step_body. rewrite Hget. step_body.
  rewrite bool_decide_eq_false_2 by (rewrite Hstatus; by intros []).
  step_body. rewrite Hparse. step_body. rewrite Hid. step_body.
  rewrite Hpost. step_body.
  unfold edit_log, published_globals, inport_update, edit_document.
  by rewrite <-!app_assoc.
Qed.

(** Every iteration is one of the seven. *)
Lemma run_record_cases (row : SourceRecord) (st : State) :
  let url := source_url (file_id row) in
  let head_events answer := [Print (starting_line row); Get url answer] in
  ∃ answer w,
    requests_get url (world st) = (answer, w)
    ∧ ((∃ e, answer = inr e
             ∧ iteration row st
               = (Caught AtFetch e, MkState w (globals st),
                  head_events answer ++ [Print (error_line row e)]))
       ∨ (∃ r, answer = inl r ∧ status_code r ≠ 200%Z
               ∧ iteration row st
                 = (SkippedFetch (status_code r), MkState w (globals st),
                    head_events answer
                    ++ [Print (fetch_failed_line row (status_code r))]))
       ∨ (∃ r e, answer = inl r ∧ status_code r = 200%Z
                 ∧ fromstring (content r) = inr e
                 ∧ iteration row st
                   = (Caught AtParse e, MkState w (globals st),
                      head_events answer ++ [Print (error_line row e)]))
       ∨ (∃ r doc, answer = inl r ∧ status_code r = 200%Z
                   ∧ fromstring (content r) = inl doc
                   ∧ extractCatalogId (link row) = None
                   ∧ iteration row st
                     = (SkippedNoId,
                        MkState w (edited_globals tostring row doc (globals st)),
                        head_events answer ++ edit_log row doc
                        ++ [Print (skipping_line row)]))
       ∨ (∃ r doc e, answer = inl r ∧ status_code r = 200%Z
                     ∧ fromstring (content r) = inl doc
                     ∧ extractCatalogId (link row) = Some (inr e)
                     ∧ iteration row st
                       = (Caught AtId e,
                          MkState w (edited_globals tostring row doc (globals st)),
                          head_events answer ++ edit_log row doc
                          ++ [Print (error_line row e)]))
       ∨ (∃ r doc n upd w2,
            answer = inl r ∧ status_code r = 200%Z
            ∧ fromstring (content r) = inl doc
            ∧ extractCatalogId (link row) = Some (inl n)
            ∧ requests_post (inport_xml_url config)
                (inport_update tostring row doc n (globals st)) w = (inl upd, w2)
            ∧ iteration row st
              = (Success,
                 MkState w2 (published_globals tostring row doc n (globals st)),
                 head_events answer ++ edit_log row doc
                 ++ [Print (updating_line n);
                     Post (inport_xml_url config)
                       (inport_update tostring row doc n (globals st)) (inl upd);
                     Print (status_line upd); Print (warnings_line upd)]))
       ∨ (∃ r doc n e w2,
            answer = inl r ∧ status_code r = 200%Z
            ∧ fromstring (content r) = inl doc
            ∧ extractCatalogId (link row) = Some (inl n)
            ∧ requests_post (inport_xml_url config)
                (inport_update tostring row doc n (globals st)) w = (inr e, w2)
            ∧ iteration row st
              = (Caught AtPublish e,
                 MkState w2 (published_globals tostring row doc n (globals st)),
                 head_events answer ++ edit_log row doc
                 ++ [Print (updating_line n);
                     Post (inport_xml_url config)
                       (inport_update tostring row doc n (globals st)) (inr e);
                     Print (error_line row e)]))).
Proof.
  intros url head_events. unfold head_events, url.
  destruct (requests_get (source_url (file_id row)) (world st)) as [answer w] eqn:Hget.
  exists answer, w. split; [done|].
  destruct answer as [r|e].
  2:{ left. exists e. split; [done|]. by apply run_record_fetch_raises. }
  right. destruct (decide (status_code r = 200%Z)) as [Hstatus|Hstatus].
  2:{ left. exists r. split_and!; [done..|]. by apply run_record_fetch_status. }
  right. destruct (fromstring (content r)) as [doc|e] eqn:Hparse.
  2:{ left. exists r, e. split_and!; [done..|]. by apply run_record_parse_raises. }
  right. destruct (extractCatalogId (link row)) as [[n|e]|] eqn:Hid.
  3:{ left. exists r, doc. split_and!; [done..|]. by apply run_record_no_id. }
  2:{ right. left. exists r, doc, e. split_and!; [done..|]. by apply run_record_id_raises. }
  right. right.
  destruct (requests_post (inport_xml_url config)
              (inport_update tostring row doc n (globals st)) w)
    as [[upd|e] w2] eqn:Hpost.
  - left. exists r, doc, n, upd, w2. split_and!; [done..|].
    by eapply run_record_published.
  - right. exists r, doc, n, e, w2. split_and!; [done..|].
    by eapply run_record_publish_raises.
Qed.

(** *** The batch *)

Lemma run_batch_cons (row : SourceRecord) (rows : list SourceRecord) (st : State) :
  batch (row :: rows) st
  = (((iteration row st).1.1, (iteration row st).2)
     :: (batch rows (iteration row st).1.2).1,
     (batch rows (iteration row st).1.2).2).
Proof.
  cbn [run_batch]. destruct (iteration row st) as [[o st1] ev].
  cbn [fst snd]. by destruct (batch rows st1).
Qed.


Lemma run_record_session (row : SourceRecord) (st : State) :
  session_id (globals (iteration row st).1.2) = session_id (globals st).
Proof.
  destruct (run_record_cases row st) as (answer & w & _ & H).
  destruct H as [(? & _ & ->)|[(? & _ & _ & ->)|[(? & ? & _ & _ & _ & ->)
    |[(? & ? & _ & _ & _ & _ & ->)|[(? & ? & ? & _ & _ & _ & _ & ->)
    |[(? & ? & ? & ? & ? & _ & _ & _ & _ & _ & ->)
    |(? & ? & ? & ? & ? & _ & _ & _ & _ & _ & ->)]]]]]]; done.
Qed.

Lemma run_batch_session (rows : list SourceRecord) (st : State) :
  session_id (globals (batch rows st).2) = session_id (globals st).
Proof.
  revert st. induction rows as [|row rows IH]; intros st; [done|].
  rewrite run_batch_cons. simpl. by rewrite IH, run_record_session.
Qed.



(** A publish request among the events of an iteration is behind the
    lines of the edit section. *)
Lemma post_in_events (row : SourceRecord) (doc : Element) (url : string)
    (answer : Response + Exc) (behind : list Event) (ev : Event) :
  is_post ev = true →
  ev ∈ [Print (starting_line row); Get url answer] ++ edit_log row doc ++ behind ↔
  ev ∈ behind.
Proof.
  intros Hev. unfold edit_log.
  rewrite !elem_of_app, !elem_of_cons, elem_of_replicate, elem_of_nil. split.
  - intros [[->|[->|[]]]|[[[->|[->|[]]]|[[-> _]|[->|[]]]]|?]]; done.
  - by intros; right; right.
Qed.



Ltac record_cases row st :=
  let H := fresh "H" in
  destruct (run_record_cases row st) as (?answer & ?w & ?Hget & H);
  destruct H as [(?e & -> & ?Hrun)|[(?r & -> & ?Hstatus & ?Hrun)
    |[(?r & ?e & -> & ?Hstatus & ?Hparse & ?Hrun)
    |[(?r & ?doc & -> & ?Hstatus & ?Hparse & ?Hid & ?Hrun)
    |[(?r & ?doc & ?e & -> & ?Hstatus & ?Hparse & ?Hid & ?Hrun)
    |[(?r & ?doc & ?n & ?upd & ?w2 & -> & ?Hstatus & ?Hparse & ?Hid & ?Hpost & ?Hrun)
    |(?r & ?doc & ?n & ?e & ?w2 & -> & ?Hstatus & ?Hparse & ?Hid & ?Hpost & ?Hrun)]]]]]].







(** *** The session value *)

Lemma run_record_posted_session (row : SourceRecord) (st : State) (ev : Event)
    (sid : option string) :
  ev ∈ (iteration row st).2 → posted_session ev = Some sid →
  sid = session_id (globals st).
Proof.
  intros Hin Hsid.
  assert (is_post ev = true) as Hpost' by (by destruct ev as [| |? []]).
  record_cases row st; rewrite Hrun in Hin; clear Hrun; cbn [snd] in Hin;
    try (apply post_in_events in Hin; [|exact Hpost']);
    cbn [app] in Hin;
    repeat (apply elem_of_cons in Hin as [->|Hin];
            [unfold inport_update in Hsid; cbn [posted_session] in Hsid; congruence|]);
    by apply elem_of_nil in Hin.
Qed.

Lemma run_batch_posted_session (rows : list SourceRecord) (st : State) (ev : Event)
    (sid : option string) :
  ev ∈ concat ((batch rows st).1.*2) → posted_session ev = Some sid →
  sid = session_id (globals st).
Proof.
  revert st. induction rows as [|row rows IH]; intros st Hin Hsid.
  - by apply elem_of_nil in Hin.
  - rewrite run_batch_cons in Hin. cbn [fst snd fmap list_fmap concat] in Hin.
    apply elem_of_app in Hin as [Hin|Hin].
    + by eapply run_record_posted_session.
    + rewrite <-(run_record_session row st). by apply IH.
Qed.

Ltac step_session :=
  cbv beta iota zeta
    delta [acquire_session mbind M_bind bind print assign set_session_id];
  cbn [world globals session_id root modified_xml item_id app].




(** *** The requests of a run *)

Lemma omap_silent {A} (f : Event → option A) (l : list Event) :
  Forall (λ ev, f ev = None) l → omap f l = [].
Proof.
  induction 1 as [|ev l Hev _ IH]; [done|]. cbn [omap list_omap]. by rewrite Hev.
Qed.

Lemma omap_edit_log {A} (f : Event → option A) (row : SourceRecord) (doc : Element) :
  (∀ line, f (Print line) = None) → omap f (edit_log row doc) = [].
Proof.
  intros Hf. apply omap_silent. unfold edit_log.
  rewrite !Forall_app. split_and!; [by repeat constructor| |by repeat constructor].
  apply Forall_forall. by intros ev [-> _]%elem_of_replicate.
Qed.

(** Session acquisition ends normally, fetches nothing and publishes
    nothing. *)
Lemma acquire_session_ok (st : State) :
  ∃ sid w1 ev,
    acquire st = (Ok (), MkState w1 (set_session_id sid (globals st)), ev)
    ∧ omap fetched_url ev = []
    ∧ Forall (λ e, posted_session e = None) ev.
Proof.
  step_session.
  destruct (inport_session_url config) as [[|a url]|] eqn:Hurl; step_session.
  - eexists None, _, _. split; [reflexivity|]. split; [done|]. by repeat constructor.
  - destruct (requests_post _ _ _) as [[r|e] w1]; cbn [world globals];
      [destruct (raise_for_status r) as [e|];
       [|destruct (json_sessionId r) as [sid|e]]|];
      (eexists _, _, _; split; [reflexivity|]; split; [done|]; by repeat constructor).
  - eexists None, _, _. split; [reflexivity|]. split; [done|]. by repeat constructor.
Qed.

(** X11. Session acquisition (lines 56-74) never raises: whatever the
    request and the decoding run into, the script goes on. It makes at
    most one request, the POST of the credentials to the configured
    URL, and none when no URL is configured. It leaves a session value
    exactly when the request was answered, [raise_for_status] did not
    raise and the answer held a [sessionId]; in every other case the
    session value is [None]. The other module variables stay. *)
Theorem acquire_session_outcome (st : State) :
  let credentials := Credentials (inport_username config) (inport_password config) in
  ∃ sid w1 ev,
    acquire st = (Ok (), MkState w1 (set_session_id sid (globals st)), ev)
    ∧ omap fetched_url ev = []
    ∧ (omap posted ev = []
       ∨ omap posted ev = [(inport_session_url config, credentials)])
    ∧ (omap posted ev = [] ↔
       inport_session_url config = None ∨ inport_session_url config = Some "")
    ∧ ∀ tok, sid = Some tok ↔
             ∃ url r,
               inport_session_url config = Some url ∧ url ≠ ""
               ∧ requests_post (Some url) credentials (world st) = (inl r, w1)
               ∧ raise_for_status r = None
               ∧ json_sessionId r = inl (Some tok).
Proof.
  intros credentials. unfold credentials. clear credentials. step_session.
  destruct (inport_session_url config) as [[|a url]|] eqn:Hurl; step_session.
  - eexists None, (world st), _. split; [reflexivity|].
    split_and!; [done|by left|by split; [right|]|].
    intros tok. split; [done|]. by intros (? & ? & [= <-] & ? & _).
  - destruct (requests_post _ _ _) as [[r|e] w1] eqn:Hpost; cbn [world globals].
    + destruct (raise_for_status r) as [e|] eqn:Hraise;
        [|destruct (json_sessionId r) as [sid|e] eqn:Hjson].
      * eexists None, w1, _. split; [reflexivity|].
        split_and!; [done|by right|by split; [|intros [|]]|].
        intros tok. split; [done|]. intros (? & r' & [= <-] & _ & Hp & Hr & _).
        rewrite Hpost in Hp. simplify_eq.
      * eexists sid, w1, _. split; [reflexivity|].
        split_and!; [done|by right|by split; [|intros [|]]|].
        intros tok. split.
        -- intros ->. exists (String a url), r. by split_and!.
        -- intros (? & r' & [= <-] & _ & Hp & _ & Hj).
           rewrite Hpost in Hp. simplify_eq. congruence.
      * eexists None, w1, _. split; [reflexivity|].
        split_and!; [done|by right|by split; [|intros [|]]|].
        intros tok. split; [done|]. intros (? & r' & [= <-] & _ & Hp & _ & Hj).
        rewrite Hpost in Hp. simplify_eq. congruence.
    + eexists None, w1, _. split; [reflexivity|].
      split_and!; [done|by right|by split; [|intros [|]]|].
      intros tok. split; [done|]. intros (? & r' & [= <-] & _ & Hp & _).
      rewrite Hpost in Hp. simplify_eq.
  - eexists None, (world st), _. split; [reflexivity|].
    split_and!; [done|by left|by split; [left|]|].
    intros tok. split; [done|]. by intros (? & ? & [=] & _).
Qed.

Lemma run_record_fetched (row : SourceRecord) (st : State) :
  omap fetched_url (iteration row st).2 = [source_url (file_id row)].
Proof.
  record_cases row st; rewrite Hrun; cbn [snd];
    rewrite ?omap_app, ?omap_edit_log by done; done.
Qed.

(** X12. The requests of one iteration (lines 102-200). There is
    exactly one GET, for the metadata of the row's own item. There is
    at most one POST; it goes to the configured publish URL and its
    body holds the session value the iteration started with, the id
    found in the row's link, the transform id 1005 and the
    serialization of the edited document that was parsed from the
    answer to this iteration's GET, an answer of status 200. *)
Theorem iteration_requests (row : SourceRecord) (st : State) :
  let '(o, st', ev) := iteration row st in
  omap fetched_url ev = [source_url (file_id row)]
  ∧ (omap posted ev = []
     ∨ ∃ r w doc n,
         requests_get (source_url (file_id row)) (world st) = (inl r, w)
         ∧ status_code r = 200%Z
         ∧ fromstring (content r) = inl doc
         ∧ extractCatalogId (link row) = Some (inl n)
         ∧ omap posted ev
           = [(inport_xml_url config,
               InportUpdate (session_id (globals st)) n 1005
                 (tostring (edit_document (rest_url row) doc)))]).
Proof.
  pose proof (run_record_fetched row st) as Hget'.
  record_cases row st; rewrite Hrun in Hget' |- *; cbn [snd] in Hget';
    (split; [exact Hget'|]);
    rewrite ?omap_app, ?omap_edit_log by done;
    [by left..| |]; right; exists r, w, doc, n; by split_and!.
Qed.

Lemma run_batch_fetched (rows : list SourceRecord) (st : State) :
  omap fetched_url (concat ((batch rows st).1.*2)) = (source_url ∘ file_id) <$> rows.
Proof.
  revert st. induction rows as [|row rows IH]; intros st; [done|].
  rewrite run_batch_cons. cbn [fst snd fmap list_fmap concat].
  rewrite omap_app, run_record_fetched. cbn [app]. f_equal. apply IH.
Qed.

(** X13. The fetches of a whole run (lines 82-107): the metadata of
    the rows whose survey is on the list of line 82 is fetched, once
    per row and in the order of the data frame, whatever the earlier
    iterations ran into; nothing is fetched for a row of another
    survey, and session acquisition fetches nothing. *)
Theorem script_fetches (df_features : list SourceRecord) (w : World) :
  omap fetched_url (whole_script df_features w).2
  = (source_url ∘ file_id)
    <$> filter (λ row, survey_name row ∈ surveys_with_inport) df_features.
Proof.
  unfold script.
  destruct (acquire_session_ok (MkState w (MkGlobals None None None None)))
    as (sid & w1 & ev0 & -> & Hev0 & _).
  pose proof (run_batch_fetched (df_subset df_features)
                (MkState w1 (set_session_id sid
                   (globals (MkState w (MkGlobals None None None None)))))) as H.
  destruct (batch _ _) as [runs st2]. cbn [fst snd] in *.
  rewrite !omap_app, Hev0, H. cbn [omap list_omap fetched_url app].
  by rewrite app_nil_r.
Qed.

(** X14. The session value of a run (lines 56-74 and 193-198): what
    session acquisition left, a token or [None], is what the module
    variable holds when the run ends, and it is the session value of
    every publish request of the run. No iteration changes it, and it
    is not acquired again after a publish request that failed. *)
Theorem session_fixed_for_run (df_features : list SourceRecord) (w : World) :
  let '(runs, st, trace) := whole_script df_features w in
  session_id (globals st)
  = session_id (globals (acquire (MkState w (MkGlobals None None None None))).1.2)
  ∧ ∀ ev sid, ev ∈ trace → posted_session ev = Some sid →
              sid = session_id (globals st).
Proof.
  unfold script.
  destruct (acquire_session_ok (MkState w (MkGlobals None None None None)))
    as (sid0 & w1 & ev0 & -> & _ & Hev0).
  cbn [fst snd globals].
  set (st1 := MkState w1 _).
  pose proof (run_batch_session (df_subset df_features) st1) as Hsession.
  pose proof (run_batch_posted_session (df_subset df_features) st1) as Hposted.
  destruct (batch (df_subset df_features) st1) as [runs st2].
  cbn [fst snd] in *. split; [done|].
  intros ev sid Hin Hsid. rewrite Hsession.
  rewrite !elem_of_app in Hin. destruct Hin as [Hin|[Hin|[Hin|Hin]]].
  - rewrite Forall_forall in Hev0. rewrite (Hev0 ev Hin) in Hsid. discriminate.
  - apply list_elem_of_singleton in Hin as ->. done.
  - by apply (Hposted ev sid).
  - apply list_elem_of_singleton in Hin as ->. done.
Qed.

End Loop.


(** ** The claims of the loop on the scripted network *)





Lemma extractCatalogId_spec_witness :
  extractCatalogId "https://x/item/4521" = Some (inl 4521%Z).
Proof. apply extractCatalogId_spec. Defined.

(** ** What the two paths select, and what the edit loops do with it *)

(** X1. The abstract loop (line 114) visits exactly the [idAbs]
    children of the [dataIdInfo] elements that lie below the root; an
    [idAbs] whose parent is the root itself, or is not a [dataIdInfo],
    is not visited. *)
Theorem findall_abstract_path (root : Element) (p : ref) :
  p ∈ findall abstract_path root
  ↔ ∃ q i, p = q ++ [i] ∧ q ≠ []
           ∧ tag_at root q = Some "dataIdInfo" ∧ tag_at root p = Some "idAbs".
Proof.
  unfold abstract_path. rewrite findall_self_descendant. cbn [fold_left].
  rewrite elem_of_select_child_iff. split.
  - intros (q & i & Hq & -> & Ht). apply elem_of_select_descendant in Hq as [? ?].
    by exists q, i.
  - intros (q & i & -> & Hne & Hq & Ht). exists q, i.
    split_and!; [|done..]. by apply elem_of_select_descendant.
Qed.

(** X2. The use-limit loop (line 124) visits exactly the [useLimit]
    elements reached from a [dataIdInfo] below the root through a
    [resConst] child and a [Consts] grandchild. *)
Theorem findall_use_limit_path (root : Element) (p : ref) :
  p ∈ findall use_limit_path root
  ↔ ∃ q i j k, p = q ++ [i; j; k] ∧ q ≠ []
               ∧ tag_at root q = Some "dataIdInfo"
               ∧ tag_at root (q ++ [i]) = Some "resConst"
               ∧ tag_at root (q ++ [i; j]) = Some "Consts"
               ∧ tag_at root p = Some "useLimit".
Proof.
  unfold use_limit_path. rewrite findall_self_descendant. cbn [fold_left].
  rewrite elem_of_select_child_iff. split.
  - intros (q2 & k & Hq2 & -> & Ht).
    apply elem_of_select_child_iff in Hq2 as (q1 & j & Hq1 & -> & Ht2).
    apply elem_of_select_child_iff in Hq1 as (q & i & Hq & -> & Ht1).
    apply elem_of_select_descendant in Hq as [? ?].
    exists q, i, j, k. rewrite <-!app_assoc in *. by cbn in *.
  - intros (q & i & j & k & -> & Hne & Hq & Hi & Hj & Ht).
    exists ((q ++ [i]) ++ [j]), k. rewrite <-!app_assoc. cbn.
    split_and!; [|done..].
    apply elem_of_select_child_iff. exists (q ++ [i]), j. rewrite <-!app_assoc. cbn.
    split_and!; [|done..].
    apply elem_of_select_child_iff. exists q, i.
    split_and!; [|done..]. by apply elem_of_select_descendant.
Qed.

(** X3. A text loop of lines 114-127 over a path [.//t/t1/../tn]
    changes texts only: tags, attributes, tails and the shape of the
    document stay. The text of every selected element is passed
    through the guarded edit exactly once ([None] and the empty text
    stay, any other text [x] becomes [f x]), also when the same element
    could be reached in two ways; the text of every other element
    stays. *)
Theorem edit_texts_pointwise (f : string → string) (t : string) (ts : list string)
    (root : Element) :
  skeleton (edit_texts f (Self :: Descendant t :: (Child <$> ts)) root) = skeleton root
  ∧ ∀ p, text_at (edit_texts f (Self :: Descendant t :: (Child <$> ts)) root) p
         = if decide (p ∈ findall (Self :: Descendant t :: (Child <$> ts)) root)
           then edit_opt f <$> text_at root p
           else text_at root p.
Proof.
  split.
  - by rewrite edit_texts_edit_all, skeleton_edit_all.
  - intros p. destruct (decide _) as [Hp|Hp].
    + by apply text_at_edit_texts.
    + rewrite edit_texts_edit_all. by apply text_at_edit_all_other.
Qed.

(** ** The use-limit cut, applied again *)

(** X4. Cutting a use-limit text that was cut before: a text of 267
    characters or more is a fixed point after the first cut; a shorter
    text gains one more period each time (until it is 267 characters
    long). *)
Theorem truncateUseLimit_twice (t : string) :
  truncateUseLimit (truncateUseLimit t)
  = if decide (267 <= String.length t) then truncateUseLimit t else t +:+ "..".
Proof.
  unfold truncateUseLimit. destruct (decide _) as [Hlen|Hlen].
  - f_equal.
    pose proof (slice_to_app (Py.slice_to 267 t) ".") as H.
    rewrite slice_to_length in H. by replace (267 `min` String.length t) with 267 in H by lia.
  - rewrite (slice_to_short 267 t) by lia.
    rewrite slice_to_short; [by rewrite string_app_assoc|].
    rewrite string_app_length. change (String.length ".") with 1. lia.
Qed.

(** ** IdentifierExtractor: the sign of the id *)

Lemma int_of_digits_nonneg (s : string) : (0 <= int_of_digits s)%Z.
Proof.
  unfold int_of_digits.
  assert (∀ acc, (0 <= acc)%Z →
            (0 <= (fix go (acc : Z) (s : string) {struct s} : Z :=
                     match s with
                     | EmptyString => acc
                     | String a s' => go (10 * acc + digit_value a)%Z s'
                     end) acc s)%Z) as H.
  { induction s as [|a s IH]; intros acc Hacc; [done|].
    apply IH. unfold digit_value. lia. }
  by apply H.
Qed.

(** X15. The id taken from a link (lines 184-189) is never negative. *)
Theorem extractCatalogId_nonneg (link : string) (n : Z) :
  extractCatalogId link = Some (inl n) → (0 <= n)%Z.
Proof.
  rewrite extractCatalogId_first_digits.
  destruct (first_digits link) as [ds|]; [|done]. cbn. unfold py_int.
  case_bool_decide; [|done]. intros [= <-]. apply int_of_digits_nonneg.
Qed.

Lemma extractCatalogId_nonneg_witness :
  extractCatalogId "https://x/item/007-5" = Some (inl 7%Z) ∧ (0 <= 7)%Z.
Proof.
  assert (extractCatalogId "https://x/item/007-5" = Some (inl 7%Z)) as H by (by vm_compute).
  split; [exact H|]. exact (extractCatalogId_nonneg "https://x/item/007-5" 7 H).
Defined.

(** ** TextNormalizer: where the pattern of line 118 can match *)

Lemma slice_from_slice_from (n m : nat) (s : string) :
  Py.slice_from m (Py.slice_from n s) = Py.slice_from (n + m) s.
Proof.
  revert s. induction n as [|n IH]; intros s; [done|].
  destruct s as [|a s]; simpl; [by destruct m|apply IH].
Qed.

Lemma slice_from_length (n : nat) (s : string) :
  String.length (Py.slice_from n s) = String.length s - n.
Proof.
  revert s. induction n as [|n IH]; intros [|a s]; simpl; try done; lia.
Qed.

Lemma reach_refl (s : Re.cursor) : reach s s.
Proof.
  unfold reach. rewrite Nat.sub_diag. split_and!; [lia|lia|done].
Qed.

Lemma reach_trans (s1 s2 s3 : Re.cursor) : reach s1 s2 → reach s2 s3 → reach s1 s3.
Proof.
  unfold reach. intros (H1 & H2 & H3) (H4 & H5 & H6).
  rewrite H3, slice_from_length in H5. rewrite H6, H3, slice_from_slice_from.
  split_and!; [lia|lia|]. f_equal. lia.
Qed.

Lemma reach_advance (s : Re.cursor) (a : ascii) (s' : string) :
  Re.rest s = String a s' → reach s (Re.advance s s').
Proof.
  intros Hs. unfold reach, Re.advance. cbn [Re.pos Re.rest]. rewrite Hs.
  replace (S (Re.pos s) - Re.pos s) with 1 by lia. cbn. split_and!; [lia|lia|done].
Qed.

Lemma greedy_loop_sound body pure (k : Re.cursor → option Re.cursor) (n : nat)
    (s : Re.cursor) (res : Re.cursor) :
  sound body pure →
  Re.greedy_loop body k n s = Some res →
  ∃ s', reach s s' ∧ k s' = Some res ∧ (pure = true → Re.groups s' = Re.groups s).
Proof.
  intros Hbody. revert s. induction n as [|n IH]; intros s; cbn [Re.greedy_loop].
  - intros Hk. exists s. split_and!; [apply reach_refl|done|done].
  - unfold Re.orelse.
    destruct (body s _) as [res'|] eqn:Hb.
    + intros [= ->]. apply Hbody in Hb as (s1 & Hr1 & Hk1 & Hg1).
      destruct (Re.pos s <? Re.pos s1); [|discriminate].
      apply IH in Hk1 as (s' & Hr & Hk & Hg). exists s'.
      split_and!; [by eapply reach_trans|done|]. intros Hp. by rewrite Hg, Hg1.
    + intros Hk. exists s. split_and!; [apply reach_refl|done|done].
Qed.

Lemma lazy_loop_sound body pure (k : Re.cursor → option Re.cursor) (n : nat)
    (s : Re.cursor) (res : Re.cursor) :
  sound body pure →
  Re.lazy_loop body k n s = Some res →
  ∃ s', reach s s' ∧ k s' = Some res ∧ (pure = true → Re.groups s' = Re.groups s).
Proof.
  intros Hbody. revert s. induction n as [|n IH]; intros s; cbn [Re.lazy_loop].
  - intros Hk. exists s. split_and!; [apply reach_refl|done|done].
  - unfold Re.orelse.
    destruct (k s) as [res'|] eqn:Hks.
    + intros [= ->]. exists s. split_and!; [apply reach_refl|done|done].
    + intros Hb. apply Hbody in Hb as (s1 & Hr1 & Hk1 & Hg1).
      destruct (Re.pos s <? Re.pos s1); [|discriminate].
      apply IH in Hk1 as (s' & Hr & Hk & Hg). exists s'.
      split_and!; [by eapply reach_trans|done|]. intros Hp. by rewrite Hg, Hg1.
Qed.

Lemma run_sound (fl : Re.flags) (r : Re.regex) : sound (Re.run fl r) (no_group r).
Proof.
  induction r as [|c|cl| |r1 IH1 r2 IH2|r1 IH1|r1 IH1|r1 IH1|i r1 IH1];
    intros s k res; cbn [Re.run no_group].
  - intros Hk. exists s. split_and!; [apply reach_refl|done|done].
  - destruct (Re.rest s) as [|a s'] eqn:Hs; [done|].
    destruct (Re.lit_matches fl c a); [|done]. intros Hk.
    exists (Re.advance s s'). split_and!; [by eapply reach_advance|done|done].
  - destruct (Re.rest s) as [|a s'] eqn:Hs; [done|].
    destruct (Re.class_matches fl cl a); [|done]. intros Hk.
    exists (Re.advance s s'). split_and!; [by eapply reach_advance|done|done].
  - destruct (Re.pos s =? 0); [|done]. intros Hk.
    exists s. split_and!; [apply reach_refl|done|done].
  - intros (s1 & Hr1 & H2 & Hg1)%IH1. apply IH2 in H2 as (s2 & Hr2 & Hk & Hg2).
    exists s2. split_and!; [by eapply reach_trans|done|].
    intros [? ?]%andb_prop. rewrite Hg2, Hg1; done.
  - unfold Re.orelse. destruct (Re.run fl r1 s k) as [res'|] eqn:H1.
    + intros [= ->]. by apply IH1.
    + intros Hk. exists s. split_and!; [apply reach_refl|done|done].
  - by apply greedy_loop_sound.
  - by apply lazy_loop_sound.
  - intros (s1 & Hr1 & Hk & _)%IH1. exists (Re.capture i s s1).
    split_and!; [exact Hr1|done|done].
Qed.

Lemma match_pattern_unfold : match_pattern = Re.Seq (Re.Group 1 lead_part) (Re.Plus anchor).
Proof. reflexivity. Qed.

Lemma lower_lt (a : ascii) : Re.lower a = Re.lower "<" → a = "<"%char.
Proof. destruct a as [[] [] [] [] [] [] [] []]; vm_compute; congruence. Qed.

Lemma lower_a (a : ascii) : Re.lower a = Re.lower "a" → a = "a"%char ∨ a = "A"%char.
Proof.
  destruct a as [[] [] [] [] [] [] [] []]; vm_compute; intros H;
    first [by left | by right | discriminate H].
Qed.

(** The pattern starts with [^]: it matches at the start of the text
    or nowhere. *)
Lemma match_pattern_later (fl : Re.flags) (p : nat) (s : string) :
  p ≠ 0 → Re.match_at fl match_pattern p s = None.
Proof.
  intros Hp. unfold Re.match_at. rewrite match_pattern_unfold.
  unfold lead_part. cbv zeta. cbn [Re.run Re.pos].
  destruct p; [done|]. done.
Qed.

Lemma sub_from_later (fl : Re.flags) (t : list Re.piece) (fuel p : nat) (s : string) :
  p ≠ 0 → Re.sub_from fl match_pattern t fuel p s = s.
Proof.
  revert p s. induction fuel as [|fuel IH]; intros p s Hp; [done|].
  cbn [Re.sub_from]. rewrite match_pattern_later by done.
  destruct s as [|c s]; [done|]. by rewrite IH.
Qed.

Lemma sub_no_match (fl : Re.flags) (t : list Re.piece) (s : string) :
  Re.match_at fl match_pattern 0 s = None → Re.sub fl match_pattern t s = s.
Proof.
  intros H. unfold Re.sub. cbn [Re.sub_from]. rewrite H.
  destruct s as [|c s]; [done|]. by rewrite sub_from_later.
Qed.

Lemma first_nonspace_space (a : ascii) (s : string) :
  Re.is_space a = true → first_nonspace (String a s) = first_nonspace s.
Proof. intros H. cbn [first_nonspace]. by rewrite H. Qed.

Lemma first_nonspace_lt (s : string) : first_nonspace (String "<" s) = Some "<"%char.
Proof. reflexivity. Qed.

(** White space cannot lead to a match when what follows it cannot. *)
Lemma spaces_fail (k : Re.cursor → option Re.cursor) (n : nat) (s : Re.cursor) :
  (∀ s', first_nonspace (Re.rest s') ≠ Some "<"%char → k s' = None) →
  first_nonspace (Re.rest s) ≠ Some "<"%char →
  Re.greedy_loop (Re.run strip_flags (Re.In Re.Space)) k n s = None.
Proof.
  intros Hk. revert s. induction n as [|n IH]; intros s Hs; cbn [Re.greedy_loop].
  - by apply Hk.
  - rewrite (Hk s Hs). cbn [Re.run].
    destruct (Re.rest s) as [|a s'] eqn:Hrest; [done|].
    cbn [Re.class_matches]. destruct (Re.is_space a) eqn:Ha; [|done].
    cbn [Re.advance Re.pos]. destruct (_ <? _); [|done].
    rewrite IH; [done|]. cbn [Re.rest]. by rewrite first_nonspace_space in Hs.
Qed.

Lemma lt_fails (r : Re.regex) (k : Re.cursor → option Re.cursor) (s : Re.cursor) :
  first_nonspace (Re.rest s) ≠ Some "<"%char →
  Re.run strip_flags (Re.Seq (Re.Lit "<") r) s k = None.
Proof.
  intros Hs. cbn [Re.run]. destruct (Re.rest s) as [|a s'] eqn:Hrest; [done|].
  unfold Re.lit_matches. cbn [strip_flags Re.IGNORECASE].
  case_bool_decide as Ha; [|done].
  apply lower_lt in Ha as ->. by rewrite first_nonspace_lt in Hs.
Qed.

Lemma match_pattern_no_lt (t : string) :
  first_nonspace t ≠ Some "<"%char →
  Re.match_at strip_flags match_pattern 0 t = None.
Proof.
  intros Ht. unfold Re.match_at. rewrite match_pattern_unfold.
  change (Re.run strip_flags (Re.Seq (Re.Group 1 lead_part) (Re.Plus anchor))
            (Re.Cursor 0 t []) Some)
    with (Re.greedy_loop (Re.run strip_flags (Re.In Re.Space))
            (λ s2, Re.orelse
                     (Re.run strip_flags (Re.Seq (Re.Lit "<") (Re.Str "p>")) s2
                        (λ s3, Re.run strip_flags (Re.Star (Re.In Re.Space)) s3
                                 (λ s4, Re.run strip_flags (Re.Plus anchor)
                                          (Re.capture 1 (Re.Cursor 0 t []) s4) Some)))
                     (Re.run strip_flags (Re.Star (Re.In Re.Space)) s2
                        (λ s4, Re.run strip_flags (Re.Plus anchor)
                                 (Re.capture 1 (Re.Cursor 0 t []) s4) Some)))
            (String.length t) (Re.Cursor 0 t [])).
  apply spaces_fail; [|done]. intros s2 Hs2.
  rewrite lt_fails by done. cbn [Re.orelse].
  change (Re.run strip_flags (Re.Star (Re.In Re.Space)) s2 ?k)
    with (Re.greedy_loop (Re.run strip_flags (Re.In Re.Space)) k
            (String.length (Re.rest s2)) s2).
  apply spaces_fail; [|done]. intros s4 Hs4.
  change (Re.Plus anchor)
    with (Re.Seq (Re.Seq (Re.Seq (Re.Lit "<") (Re.Lit "a")) anchor_tail) (Re.Star anchor)).
  change (Re.run strip_flags (Re.Seq (Re.Seq (Re.Seq (Re.Lit "<") (Re.Lit "a")) ?r1) ?r2) ?s ?k)
    with (Re.run strip_flags (Re.Seq (Re.Lit "<") (Re.Lit "a")) s
            (λ s1, Re.run strip_flags r1 s1 (λ s2, Re.run strip_flags r2 s2 k))).
  by apply lt_fails.
Qed.

(** X5. An abstract whose first character after leading white space is
    not [<] (or that has no such character) is left as it is by the
    edit of line 120: links in the middle of the text stay. *)
Theorem stripLeadingLinks_plain (t : string) :
  first_nonspace t ≠ Some "<"%char → stripLeadingLinks t = t.
Proof.
  intros Ht. unfold stripLeadingLinks. apply sub_no_match.
  by apply match_pattern_no_lt.
Qed.

Lemma stripLeadingLinks_plain_witness :
  first_nonspace mid_text_link ≠ Some "<"%char
  ∧ stripLeadingLinks mid_text_link = mid_text_link.
Proof.
  assert (first_nonspace mid_text_link ≠ Some "<"%char) as H by (vm_compute; congruence).
  split; [exact H|]. exact (stripLeadingLinks_plain mid_text_link H).
Defined.


Lemma run_lit (fl : Re.flags) (c : ascii) (r : Re.regex) (s : Re.cursor)
    (k : Re.cursor → option Re.cursor) (res : Re.cursor) :
  Re.run fl (Re.Seq (Re.Lit c) r) s k = Some res →
  ∃ a s', Re.rest s = String a s' ∧ Re.lit_matches fl c a = true
          ∧ Re.run fl r (Re.advance s s') k = Some res.
Proof.
  cbn [Re.run]. destruct (Re.rest s) as [|a s']; [done|].
  destruct (Re.lit_matches fl c a) eqn:Ha; [|done]. intros H. by exists a, s'.
Qed.

(** A match of the pattern of line 118 at the start of [t]: the group
    holds the first [n1] characters, the first link starts right after
    them with [<a] or [<A], and the match ends at [pos m], with the
    rest of [t] still to read. *)
Lemma match_pattern_start (t : string) (m : Re.cursor) :
  Re.match_at strip_flags match_pattern 0 t = Some m →
  ∃ n1 x r,
    n1 + 2 <= Re.pos m <= String.length t
    ∧ Re.rest m = Py.slice_from (Re.pos m) t
    ∧ Re.group 1 m = Some (Py.slice_to n1 t)
    ∧ Py.slice_from n1 t = String "<" (String x r)
    ∧ (x = "a"%char ∨ x = "A"%char).
Proof.
  unfold Re.match_at. rewrite match_pattern_unfold. cbn [Re.run]. intros H.
  apply (run_sound strip_flags lead_part) in H as (s1 & Hr1 & H & Hg1).
  specialize (Hg1 eq_refl). cbn [Re.groups] in Hg1.
  destruct Hr1 as (_ & Hlen1 & Hrest1). cbn [Re.pos Re.rest] in Hlen1, Hrest1.
  rewrite Nat.sub_0_r in Hlen1, Hrest1.
  change (Re.run strip_flags (Re.Plus anchor) ?c ?k)
    with (Re.run strip_flags
            (Re.Seq (Re.Lit "<") (Re.Seq (Re.Lit "a") (Re.Seq anchor_tail (Re.Star anchor))))
            c k) in H.
  apply run_lit in H as (x0 & s' & Hx0 & Hm0 & H).
  apply run_lit in H as (x & s'' & Hx & Hm & H).
  apply (run_sound strip_flags (Re.Seq anchor_tail (Re.Star anchor))) in H
    as (s2 & Hr2 & [= ->] & Hg2).
  specialize (Hg2 eq_refl).
  unfold Re.lit_matches in Hm0, Hm. cbn [strip_flags Re.IGNORECASE] in Hm0, Hm.
  apply bool_decide_eq_true in Hm0, Hm. apply lower_lt in Hm0 as ->. apply lower_a in Hm.
  unfold Re.capture, Re.advance in *. cbn [Re.rest Re.pos Re.groups] in *.
  subst s'. rewrite Nat.sub_0_r in Hg2.
  destruct Hr2 as (Hle & Hlen2 & Hrest2). cbn [Re.pos Re.rest] in Hle, Hlen2, Hrest2.
  cbn [Re.pos Re.rest] in Hx0.
  assert (String.length t - Re.pos s1 = 2 + String.length s'') as Hlen.
  { rewrite <-slice_from_length, <-Hrest1, Hx0. done. }
  exists (Re.pos s1), x, s''. split_and!; [lia|lia| | |congruence|done].
  - rewrite Hrest2.
    replace (Re.pos m) with (Re.pos s1 + (2 + (Re.pos m - S (S (Re.pos s1))))) at 2 by lia.
    by rewrite <-slice_from_slice_from, <-Hrest1, Hx0.
  - unfold Re.group. rewrite Hg2, Hg1. cbn. by rewrite decide_True.
Qed.

(** X6. The edit of line 120 either leaves the abstract as it is, or
    cuts one stretch out of it: the stretch begins with [<a] or [<A],
    and the text before it and the text after it are kept as they
    are, in this order; nothing is put in. *)
Theorem stripLeadingLinks_cut (t : string) :
  stripLeadingLinks t = t
  ∨ ∃ before x links after,
      t = before +:+ String "<" (String x links) +:+ after
      ∧ (x = "a"%char ∨ x = "A"%char)
      ∧ stripLeadingLinks t = before +:+ after.
Proof.
  destruct (Re.match_at strip_flags match_pattern 0 t) as [m|] eqn:Hm.
  - right. pose proof (match_pattern_start t m Hm) as (n1 & x & r & Hpos & Hrest & Hg & Hx & Hxa).
    assert (Py.slice_from (Re.pos m) t = Py.slice_from (Re.pos m - n1 - 2) r) as Htail.
    { replace (Re.pos m) with (n1 + (2 + (Re.pos m - n1 - 2))) at 1 by lia.
      by rewrite <-slice_from_slice_from, Hx. }
    exists (Py.slice_to n1 t), x, (Py.slice_to (Re.pos m - n1 - 2) r),
           (Py.slice_from (Re.pos m) t).
    split_and!; [|done|].
    + rewrite Htail, !string_app_cons, slice_to_from, <-Hx. by rewrite slice_to_from.
    + unfold stripLeadingLinks, Re.sub. cbn [Re.sub_from].
      fold strip_flags. rewrite Hm.
      destruct (Re.pos m =? 0) eqn:H0; [apply Nat.eqb_eq in H0; lia|].
      rewrite sub_from_later by lia. cbn [Re.expand foldr]. rewrite Hg. cbn [default].
      by rewrite string_app_nil_r, Hrest.
  - left. by apply sub_no_match.
Qed.

(** ** TreeEditor: more on the thumbnail loop and the upsert *)

(** X7. After the thumbnail loop (lines 133-139) no child of the root
    holds a thumbnail; the children taken out are as many as the
    removal lines printed; and a second run of the loop would find
    nothing to remove. *)
Theorem removeThumbnailBlock_post (root : Element) :
  (∀ c, c ∈ children (removeThumbnailBlock root) → holds_thumbnail c = false)
  ∧ length (children (removeThumbnailBlock root)) + thumbnails_removed root
    = length (children root)
  ∧ thumbnails_removed (removeThumbnailBlock root) = 0
  ∧ removeThumbnailBlock (removeThumbnailBlock root) = removeThumbnailBlock root.
Proof.
  assert (∀ c, c ∈ children (removeThumbnailBlock root) → holds_thumbnail c = false) as Hpost.
  { intros c. rewrite removeThumbnailBlock_filter. destruct root as [t a x tl cs].
    cbn [set_children children]. intros [Hc _]%list_elem_of_filter.
    by destruct (holds_thumbnail c). }
  split_and!; [done| | |].
  - rewrite thumbnails_removed_count, removeThumbnailBlock_filter.
    destruct root as [t a x tl cs]. cbn [set_children children].
    clear Hpost. induction cs as [|c cs IH]; [done|].
    rewrite !filter_cons. repeat case_decide; cbn [length] in *; first [lia|tauto].
  - rewrite thumbnails_removed_count.
    rewrite filter_none; [done|].
    apply Forall_forall. intros c Hc. rewrite (Hpost c Hc). by intros [].
  - rewrite (removeThumbnailBlock_filter (removeThumbnailBlock root)).
    rewrite filter_all.
    + by destruct (removeThumbnailBlock root).
    + apply Forall_forall. intros c Hc. rewrite (Hpost c Hc). by intros [].
Qed.

Lemma with_child_ext (t : string) (f g : Element → Element) (e : Element) :
  (∀ c, f c = g c) → with_child t f e = with_child t g e.
Proof.
  intros Hfg. unfold with_child. destruct (head _) as [i|].
  - f_equal. apply list_alter_ext; [|done]. intros c _. apply Hfg.
  - by rewrite Hfg.
Qed.

Lemma with_child_compose (t : string) (f g : Element → Element) (e : Element) :
  (∀ c, tag (f c) = tag c) →
  with_child t g (with_child t f e) = with_child t (g ∘ f) e.
Proof.
  intros Htag. destruct e as [tg a x tl cs]. unfold with_child.
  cbn [children].
  destruct (head (indices_with_tag t cs)) as [i|] eqn:Hhead;
    unfold set_children; cbn [children tag attrib text tail].
  - rewrite head_indices_alter, Hhead by done.
    unfold set_children; cbn [children tag attrib text tail]. f_equal.
    by rewrite list_alter_alter_eq.
  - rewrite head_indices_snoc, Hhead, Htag. cbn [new_element tag].
    rewrite bool_decide_eq_true_2 by done.
    unfold set_children; cbn [children tag attrib text tail]. f_equal.
    rewrite alter_app_r_alt by lia. rewrite Nat.sub_diag. done.
Qed.

Lemma with_child_comm (t t' : string) (f g : Element → Element) (e : Element) :
  t ≠ t' →
  (∀ c, tag (f c) = tag c) → (∀ c, tag (g c) = tag c) →
  is_Some (head (indices_with_tag t (children e))) →
  with_child t f (with_child t' g e) = with_child t' g (with_child t f e).
Proof.
  intros Hne Hf Hg [i Hi]. destruct e as [tg a x tl cs].
  cbn [children] in Hi. unfold with_child.
  cbn [children]. rewrite Hi.
  destruct (head_indices_lookup _ _ _ Hi) as (c & Hc & Htc).
  destruct (head (indices_with_tag t' cs)) as [j|] eqn:Hj;
    unfold set_children; cbn [children tag attrib text tail].
  - destruct (head_indices_lookup _ _ _ Hj) as (c' & Hc' & Htc').
    assert (i ≠ j) by (intros ->; congruence).
    rewrite !head_indices_alter, Hi, Hj by done.
    unfold set_children; cbn [children tag attrib text tail]. f_equal.
    by apply list_alter_alter_ne.
  - rewrite head_indices_snoc, Hi, head_indices_alter, Hj by done.
    unfold set_children; cbn [children tag attrib text tail]. f_equal.
    apply alter_app_l. by eapply lookup_lt_Some.
Qed.

Lemma with_chain_overwrite (ts : list string) (v1 v2 : option string) (e : Element) :
  with_chain ts (set_text v2) (with_chain ts (set_text v1) e) = with_chain ts (set_text v2) e.
Proof.
  revert e. induction ts as [|t ts IH]; intros e; cbn [with_chain]; [by destruct e|].
  rewrite with_child_compose by (intros c; by apply tag_with_chain).
  by apply with_child_ext.
Qed.

(** X8. The later upsert wins: an upsert after an upsert with other
    values gives the document that the later one alone gives. Nothing
    of the earlier values is left, and nothing is created twice. *)
Theorem upsertDistributionInfo_overwrites (url1 name1 url2 name2 : string) (root : Element) :
  upsertDistributionInfo url2 name2 (upsertDistributionInfo url1 name1 root)
  = upsertDistributionInfo url2 name2 root.
Proof.
  rewrite !upsertDistributionInfo_with_child.
  rewrite with_child_compose.
  2:{ intros c. unfold compose. rewrite tag_with_chain by done. by apply tag_with_chain. }
  apply with_child_ext. intros c. unfold compose, format_tags, linkage_tags.
  cbn [with_chain].
  rewrite (with_child_comm "distTranOps" "distFormat");
    [|done|intros; apply tag_with_child..|].
  2:{ apply head_with_child. intros; apply tag_with_child. }
  rewrite !with_child_compose by (intros; apply tag_with_child).
  rewrite (with_child_ext "distFormat" _
             (with_chain ["formatName"] (set_text (Some name2))))
    by (intros c'; apply (with_chain_overwrite ["formatName"])).
  rewrite (with_child_ext "distTranOps" _
             (with_chain ["onLineSrc"; "linkage"] (set_text (Some url2))))
    by (intros c'; apply (with_chain_overwrite ["onLineSrc"; "linkage"])).
  done.
Qed.


(** ** The edit section as a whole *)

(** X9. The two text loops do not get in each other's way: whatever
    the two edits are, the abstract loop followed by the use-limit
    loop gives the same document as the use-limit loop followed by the
    abstract loop. *)
Theorem edit_loops_commute (f g : string → string) (root : Element) :
  edit_texts g use_limit_path (edit_texts f abstract_path root)
  = edit_texts f abstract_path (edit_texts g use_limit_path root).
Proof.
  rewrite !edit_texts_edit_all.
  rewrite (findall_same_skeleton use_limit_path _ root) by apply skeleton_edit_all.
  rewrite (findall_same_skeleton abstract_path (edit_all _ _ _) root)
    by apply skeleton_edit_all.
  apply edit_all_comm. intros p Hl Ha.
  unfold use_limit_path in Hl. unfold abstract_path in Ha.
  rewrite findall_self_descendant in Hl, Ha. cbn [fold_left] in Hl, Ha.
  apply elem_of_select_child in Hl, Ha. congruence.
Qed.

Lemma elem_of_upsert_first (t : string) (f : Element → Element) (cs : list Element)
    (c : Element) :
  c ∈ upsert_first t f cs → c ∈ cs ∨ ∃ c0, c = f c0 ∧ tag c0 = t.
Proof.
  induction cs as [|c1 cs IH]; cbn [upsert_first].
  - intros ->%list_elem_of_singleton. right. by exists (new_element t).
  - case_bool_decide as Ht.
    + intros [->|Hc]%elem_of_cons; [right; by exists c1|left; by right].
    + intros [->|Hc]%elem_of_cons; [left; by left|].
      destruct (IH Hc) as [?|?]; [left; by right|by right].
Qed.

(** X10. The document that goes to [ET.tostring] (line 181): the root
    element itself is as parsed; none of its children holds a
    thumbnail, so the upsert after the thumbnail loop brings none
    back; the linkage reached through the first [distInfo] holds the
    row's REST URL and the format name holds [ESRI REST Service]. *)
Theorem edit_document_post (restUrl : string) (root : Element) :
  tag (edit_document restUrl root) = tag root
  ∧ attrib (edit_document restUrl root) = attrib root
  ∧ text (edit_document restUrl root) = text root
  ∧ tail (edit_document restUrl root) = tail root
  ∧ (∀ c, c ∈ children (edit_document restUrl root) → holds_thumbnail c = false)
  ∧ text <$> follow ("distInfo" :: linkage_tags) (edit_document restUrl root)
    = Some (Some restUrl)
  ∧ text <$> follow ("distInfo" :: format_tags) (edit_document restUrl root)
    = Some (Some "ESRI REST Service").
Proof.
  split_and!; [by rewrite edit_document_children; destruct root..| | |].
  - rewrite edit_document_children. destruct root as [t a x tl cs].
    cbn [set_children children]. intros c [Hc|(c0 & -> & Hc0)]%elem_of_upsert_first.
    + apply list_elem_of_filter in Hc as [Hc _]. by destruct (holds_thumbnail c).
    + match goal with |- holds_thumbnail ?e = false =>
        pose proof (holds_thumbnail_distInfo e) as H end.
      destruct (holds_thumbnail _); [|done]. exfalso. apply H; [|done].
      unfold compose. rewrite tag_with_chain by done. by rewrite tag_with_chain.
  - apply upsertDistributionInfo_linkage.
  - apply upsertDistributionInfo_formatName.
Qed.


